(** * Route-Navigator: the route-computation engine of [bestpath.py]

    A shallow embedding of the graph model, the five path algorithms, the
    weather-risk model, the route evaluator, the request handler and the
    ingestion done by [main], followed by the properties proved about them.

    Modelling conventions.
    - Python [float] values are modelled by exact rationals [Q]: no rounding,
      no NaN.  The sentinel [math.inf] is modelled by [None] in an
      [option Q] (type [ext]).
    - Python [str] is [string]; the order [<] on [str] is the byte-wise
      lexicographic order [String.compare].
    - [dict] objects whose iteration order is never observed are [gmap]s;
      [set]s are [gset]s.  [Graph.adj], whose key order is observed by
      [kruskal_mst_edges] and [bellman_ford], is an association list in
      key-insertion order.
    - A function that may raise ([KeyError], [ValueError]) or loop returns an
      [option]: [None] stands for "does not return a value".  Loops and
      recursion that are not structural take a fuel argument; the top-level
      functions supply a bound, and the theorems show that a value is
      returned. *)

From Stdlib Require Import QArith Qminmax Lqa String Ascii List.
From stdpp Require Import gmap strings list fin_maps sorting.

Set Warnings "-clear-no-such-hyp".

Open Scope string_scope.
Open Scope list_scope.
Open Scope nat_scope.

(* ===================================================================== *)
(** * Part I: the embedding *)
(* ===================================================================== *)

(** ** Numbers *)

(** [max(a, b)] of Python on two arguments: [b] when [b > a], else [a]. *)
Definition py_max (a b : Q) : Q := if Qlt_le_dec a b then b else a.

(** [math.inf] is [None]. *)
Abbreviation ext := (option Q) (only parsing).

(** [x + w < y] where [x], [y] may be [math.inf] and [w] is finite. *)
Definition ext_add_lt (x : ext) (w : Q) (y : ext) : bool :=
  match x, y with
  | Some a, Some b => if Qlt_le_dec (a + w) b then true else false
  | Some _, None => true
  | None, _ => false
  end.

(** ** Data classes *)

Record City := mkCity {
  cid : string;
  name : string;
  state : string;
  sea_level_m : option Q
}.

Record Edge := mkEdge {
  src : string;
  dst : string;
  map_dist : Q;
  real_dist : Q
}.

(** ** Graph *)

Record Graph := mkGraph {
  cities : gmap string City;
  adj : list (string * list Edge)
}.

(** [Graph()] *)
Definition Graph_init : Graph := mkGraph ∅ [].

(** [adj.get(u, [])] on a [defaultdict(list)] kept in key-insertion order. *)
Fixpoint adj_get {A} (a : list (string * list A)) (u : string) : list A :=
  match a with
  | [] => []
  | (k, es) :: r => if decide (k = u) then es else adj_get r u
  end.

(** [adj[u].append(e)] on a [defaultdict(list)]: a missing key is created at
    the end of the key order. *)
Fixpoint adj_append {A} (a : list (string * list A)) (u : string) (e : A)
  : list (string * list A) :=
  match a with
  | [] => [(u, [e])]
  | (k, es) :: r =>
      if decide (k = u) then (k, es ++ [e]) :: r
      else (k, es) :: adj_append r u e
  end.

Definition add_c (g : Graph) (c : City) : Graph :=
  mkGraph (<[cid c := c]> (cities g)) (adj g).

Definition add_bidir_edge (g : Graph) (s d : string) (md : Q) : Graph :=
  match cities g !! s, cities g !! d with
  | Some A, Some B =>
      let delta_miles :=
        match sea_level_m A, sea_level_m B with
        | Some ea, Some eb => ((eb - ea) / 1609.34)%Q
        | _, _ => 0%Q
        end in
      let tan_ab := if Qeq_bool md 0 then 0%Q else (delta_miles / md)%Q in
      let tan_ba := (- tan_ab)%Q in
      let real_ab := py_max (md * (1 + tan_ab)) 0.01 in
      let real_ba := py_max (md * (1 + tan_ba)) 0.01 in
      let adj1 := adj_append (adj g) s (mkEdge s d md real_ab) in
      let adj2 := adj_append adj1 d (mkEdge d s md real_ba) in
      mkGraph (cities g) adj2
  | _, _ => g
  end.

(** First edge of [es] whose [dst] is [v]. *)
Fixpoint find_dst (es : list Edge) (v : string) : option Edge :=
  match es with
  | [] => None
  | e :: r => if decide (dst e = v) then Some e else find_dst r v
  end.

Definition edge_dist (g : Graph) (u v : string) : Q :=
  match find_dst (adj_get (adj g) u) v with
  | Some e => real_dist e
  | None =>
      match find_dst (adj_get (adj g) v) u with
      | Some e => real_dist e
      | None => 0%Q
      end
  end.

(** Every edge of every adjacency list, in key order (the [all_edges] list of
    [bellman_ford], lines 164-167). *)
Definition all_edges {A} (a : list (string * list A)) : list A :=
  flat_map snd a.

(** An adjacency list holds a self-loop. *)
Definition has_self_loop (g : Graph) : Prop :=
  ∃ e, e ∈ all_edges (adj g) ∧ src e = dst e.

(** ** The graphs the program can build *)

Inductive built : Graph → Prop :=
  | built_init : built Graph_init
  | built_add_c g c : built g → built (add_c g c)
  | built_add_bidir_edge g s d md : built g → built (add_bidir_edge g s d md).

(** ** Strings and number parsing *)

(** [ch.isspace()] on the ASCII range. *)
Definition is_space (c : ascii) : bool :=
  let n := nat_of_ascii c in
  (((9 <=? n) && (n <=? 13)) || ((28 <=? n) && (n <=? 32)))%nat.

(** [ch.isdigit()] on the ASCII range. *)
Definition is_digit (c : ascii) : bool :=
  let n := nat_of_ascii c in ((48 <=? n) && (n <=? 57))%nat.

Definition digit_val (c : ascii) : Z := Z.of_nat (nat_of_ascii c - 48).

Fixpoint lstrip (s : string) : string :=
  match s with
  | EmptyString => EmptyString
  | String c r => if is_space c then lstrip r else s
  end.

Fixpoint rstrip (s : string) : string :=
  match s with
  | EmptyString => EmptyString
  | String c r =>
      match rstrip r with
      | EmptyString => if is_space c then EmptyString else String c EmptyString
      | r' => String c r'
      end
  end.

(** [s.strip()] *)
Definition py_strip (s : string) : string := lstrip (rstrip s).

(** [x or y] where [x] is the result of [r.get(...)]: [None] and the empty
    string are falsy. *)
Definition py_or (x : option string) (y : string) : string :=
  match x with
  | Some (String c r) => String c r
  | _ => y
  end.

(** The tail [("_"? digit)*] of a digit part; returns the value read so far,
    the number of digits and the unread input. *)
Fixpoint digits_rest (acc : Z) (n : nat) (l : list ascii) : Z * nat * list ascii :=
  match l with
  | c :: r =>
      if is_digit c then digits_rest (10 * acc + digit_val c) (S n) r
      else if Ascii.eqb c "_" then
        match r with
        | c2 :: r2 =>
            if is_digit c2 then digits_rest (10 * acc + digit_val c2) (S n) r2
            else (acc, n, l)
        | [] => (acc, n, l)
        end
      else (acc, n, l)
  | [] => (acc, n, [])
  end.

(** A digit part [digit ("_"? digit)*]. *)
Definition digitpart (l : list ascii) : option (Z * nat * list ascii) :=
  match l with
  | c :: r => if is_digit c then Some (digits_rest (digit_val c) 1 r) else None
  | [] => None
  end.

(** An optional sign: [1] or [-1] and the unread input. *)
Definition opt_sign (l : list ascii) : Z * list ascii :=
  match l with
  | c :: r =>
      if Ascii.eqb c "-" then ((-1)%Z, r)
      else if Ascii.eqb c "+" then (1%Z, r)
      else (1%Z, l)
  | [] => (1%Z, [])
  end.

(** The mantissa [digitpart ["." [digitpart]] | "." digitpart]: numerator,
    number of fraction digits, unread input. *)
Definition mantissa (l : list ascii) : option (Z * nat * list ascii) :=
  match digitpart l with
  | Some (ip, _, r) =>
      match r with
      | c :: r' =>
          if Ascii.eqb c "." then
            match digitpart r' with
            | Some (_, fl, r'') =>
                let '(num, _, _) := digits_rest ip 0 r' in Some (num, fl, r'')
            | None => Some (ip, 0, r')
            end
          else Some (ip, 0, r)
      | [] => Some (ip, 0, [])
      end
  | None =>
      match l with
      | c :: r' =>
          if Ascii.eqb c "." then
            match digitpart r' with
            | Some (fp, fl, r'') => Some (fp, fl, r'')
            | None => None
            end
          else None
      | [] => None
      end
  end.

(** The optional exponent [("e" | "E") [sign] digitpart]; must reach the end
    of the input. *)
Definition exponent (l : list ascii) : option Z :=
  match l with
  | [] => Some 0%Z
  | c :: r =>
      if Ascii.eqb c "e" || Ascii.eqb c "E" then
        let '(sg, r') := opt_sign r in
        match digitpart r' with
        | Some (ev, _, []) => Some (sg * ev)%Z
        | _ => None
        end
      else None
  end.

(** [float(s)] on the finite decimal literals; [None] is [ValueError].  The
    literals [inf], [infinity] and [nan], which Python also accepts, denote no
    rational number and are not covered. *)
Definition py_float (s : string) : option Q :=
  let '(sg, l) := opt_sign (list_ascii_of_string (py_strip s)) in
  match mantissa l with
  | Some (num, fl, r) =>
      match exponent r with
      | Some ev =>
          Some (inject_Z (sg * num) / inject_Z (10 ^ Z.of_nat fl)
                * Qpower 10 ev)%Q
      | None => None
      end
  | None => None
  end.

(** [''.join(ch for ch in raw if (ch.isdigit() or ch=='.' or ch=='-'))] *)
Fixpoint keep_numeric (s : string) : string :=
  match s with
  | EmptyString => EmptyString
  | String c r =>
      if is_digit c || Ascii.eqb c "." || Ascii.eqb c "-"
      then String c (keep_numeric r) else keep_numeric r
  end.

(** [list.sort()] with key order [le]: a stable sort. *)
Fixpoint sort_insert {A} (le : A → A → bool) (x : A) (l : list A) : list A :=
  match l with
  | [] => [x]
  | y :: r => if le x y then x :: l else y :: sort_insert le x r
  end.

Fixpoint py_sort {A} (le : A → A → bool) (l : list A) : list A :=
  match l with
  | [] => []
  | x :: r => sort_insert le x (py_sort le r)
  end.

(** The consecutive pairs [(route[i], route[i+1])] of a route. *)
Fixpoint segments (route : list string) : list (string * string) :=
  match route with
  | c1 :: (c2 :: _) as rest => (c1, c2) :: segments rest
  | _ => []
  end.

(** ** WeatherRisk *)

Record WeatherRisk := mkWeatherRisk {
  risk : gmap string (gmap string Q);
  dates : list string
}.

(** [WeatherRisk()] *)
Definition WeatherRisk_init : WeatherRisk := mkWeatherRisk ∅ [].

(** The value parsed from the raw risk text (lines 200-204); [None] when the
    [float] call of the [except] branch raises [ValueError]. *)
Definition parse_risk (raw : string) : option Q :=
  match py_float raw with
  | Some v => Some v
  | None =>
      let digits := keep_numeric raw in
      match digits with
      | EmptyString => Some 0%Q
      | _ => py_float digits
      end
  end.

(** The three fields read from a row [r] of the [csv.DictReader] (lines 195,
    198 and 199); a row maps column names to text. *)
Definition row_city (r : gmap string string) : string :=
  py_strip (py_or (r !! "city_id") (py_or (r !! "city") (py_or (r !! "id") ""))).

Definition row_date (r : gmap string string) : string :=
  py_strip (py_or (r !! "date") "").

Definition row_raw (r : gmap string string) : string :=
  py_strip (py_or (r !! "risk") "").

(** One iteration of the [for r in reader] loop of [load]; [None] when the
    iteration raises. *)
Definition load_row (wr : WeatherRisk) (r : gmap string string) : option WeatherRisk :=
  let c := row_city r in
  match c with
  | EmptyString => Some wr
  | _ =>
      let date := row_date r in
      let raw := row_raw r in
      match parse_risk raw with
      | None => None
      | Some val =>
          let risk' := <[c := <[date := val]> (default ∅ (risk wr !! c))]> (risk wr) in
          let dates' :=
            match date with
            | EmptyString => dates wr
            | _ => if bool_decide (date ∈ dates wr) then dates wr
                   else dates wr ++ [date]
            end in
          Some (mkWeatherRisk risk' dates')
      end
  end.

(** How a call of [load] ends: it returns, or a [ValueError] leaves it with
    the object as it is at that point. *)
Inductive load_result :=
  | Loaded (wr : WeatherRisk)
  | LoadValueError (wr : WeatherRisk).

Fixpoint load_rows (wr : WeatherRisk) (rows : list (gmap string string)) : load_result :=
  match rows with
  | [] => Loaded wr
  | r :: rest =>
      match load_row wr r with
      | Some wr' => load_rows wr' rest
      | None => LoadValueError wr
      end
  end.

(** [WeatherRisk.load], on the rows the [csv.DictReader] yields. *)
Definition load (wr : WeatherRisk) (rows : list (gmap string string)) : load_result :=
  match load_rows wr rows with
  | Loaded wr' => Loaded (mkWeatherRisk (risk wr') (py_sort String.leb (dates wr')))
  | LoadValueError wr' => LoadValueError wr'
  end.

(** [wr.risk.get(c, {})] *)
Definition risk_of (wr : WeatherRisk) (c : string) : gmap string Q :=
  default ∅ (risk wr !! c).

Definition edge_risk (wr : WeatherRisk) (c1 c2 date : string) : Q :=
  ((default 0 (risk_of wr c1 !! date) + default 0 (risk_of wr c2 !! date)) / 2)%Q.

(** The inner loop of [best_date_for_path] (lines 256-261) from running total
    [total]: [None] when [ok] ends [False]. *)
Fixpoint date_total (wr : WeatherRisk) (date : string) (route : list string)
    (total : Q) : option Q :=
  match route with
  | c1 :: (c2 :: _) as rest =>
      if bool_decide (is_Some (risk_of wr c1 !! date)) &&
         bool_decide (is_Some (risk_of wr c2 !! date))
      then date_total wr date rest (total + edge_risk wr c1 c2 date)
      else None
  | _ => Some total
  end.

(** One iteration of the loop over [wr.dates].  The pair
    [(best_date, best_risk)] is [(None, math.inf)] until a date is chosen:
    [None] here; afterwards it is [Some (date, risk)]. *)
Definition best_date_step (wr : WeatherRisk) (route : list string)
    (best : option (string * Q)) (date : string) : option (string * Q) :=
  match date_total wr date route 0 with
  | Some total =>
      match best with
      | None => Some (date, total)
      | Some (_, best_risk) =>
          if Qlt_le_dec total best_risk then Some (date, total) else best
      end
  | None => best
  end.

Definition best_date_for_path (route : list string) (wr : WeatherRisk)
  : option string * Q :=
  if (length route <? 2)%nat then (None, 0%Q)
  else
    match foldl (best_date_step wr route) None (dates wr) with
    | None => (None, 0%Q)
    | Some (best_date, best_risk) => (Some best_date, best_risk)
    end.

(** ** Helpers of the path algorithms *)

(** The loop of [reconstruct] (lines 221-225), started at [cur]: the items
    appended to [path], in order.  [parent.get(cur)] is [None] both for a
    missing key and for a stored [None]. *)
Fixpoint reconstruct_walk (fuel : nat) (parent : gmap string (option string))
    (start : string) (cur : option string) : option (list string) :=
  match fuel with
  | O => None
  | S f =>
      match cur with
      | None => Some []
      | Some c =>
          if decide (c = start) then Some [c]
          else cons c <$> reconstruct_walk f parent start (mjoin (parent !! c))
      end
  end.

(** [reconstruct(parent, start, dest)].  A walk that needs more steps than
    [parent] has keys has entered a cycle and never ends. *)
Definition reconstruct (parent : gmap string (option string))
    (start dest : string) : option (list string) :=
  if decide (dest = start) then Some [start]
  else
    match parent !! dest with
    | None => Some []
    | Some _ =>
        path ← reconstruct_walk (S (size parent)) parent start (Some dest);
        match rev path with
        | x :: r => if decide (x = start) then Some (x :: r) else Some []
        | [] => Some []
        end
    end.

(** The body of the [for] loop of a breadth-first search (lines 59-62 and
    238-239) for one neighbour [v] of [u]; the state is
    [(q, visited, parent)]. *)
Definition bfs_visit (u : string)
    (st : list string * gset string * gmap string (option string)) (v : string)
  : list string * gset string * gmap string (option string) :=
  let '(q, visited, parent) := st in
  if decide (v ∈ visited) then st
  else (q ++ [v], {[v]} ∪ visited, <[v := Some u]> parent).

(** The [while q] loop shared by [bfs_path] and [tree_path_in_adj]; [nbrs u]
    is the list the [for] loop runs over.  Returns [parent]. *)
Fixpoint bfs_loop (fuel : nat) (nbrs : string → list string) (dest : string)
    (q : list string) (visited : gset string)
    (parent : gmap string (option string))
  : option (gmap string (option string)) :=
  match fuel with
  | O => None
  | S f =>
      match q with
      | [] => Some parent
      | u :: q' =>
          if decide (u = dest) then Some parent
          else
            let '(q2, visited2, parent2) :=
              foldl (bfs_visit u) (q', visited, parent) (nbrs u) in
            bfs_loop f nbrs dest q2 visited2 parent2
      end
  end.

(** [tree_path_in_adj(adj, start, dest)] for an [adj] mapping a node to the
    list of its neighbours.  Every pass of the loop dequeues a node and every
    node is enqueued once, so the passes are bounded by the number of
    neighbour entries. *)
Definition tree_path_in_adj (tadj : list (string * list string))
    (start dest : string) : option (list string) :=
  let nbrs u := adj_get tadj u in
  let fuel := 2 + length (all_edges tadj) in
  parent ← bfs_loop fuel nbrs dest [start] {[start]} {[start := None]};
  reconstruct parent start dest.

(** [path_distance(g, route)] *)
Definition path_distance (g : Graph) (route : list string) : Q :=
  foldl (λ total p, (total + edge_dist g p.1 p.2)%Q) 0%Q (segments route).

Definition gas_used (distance : Q) : Q := (distance / 45)%Q.

(** ** BFS and DFS *)

Definition bfs_path (g : Graph) (start dest : string) : option (list string) :=
  let nbrs u := map dst (adj_get (adj g) u) in
  let fuel := 2 + length (all_edges (adj g)) in
  parent ← bfs_loop fuel nbrs dest [start] {[start]} {[start := None]};
  reconstruct parent start dest.

(** The state shared by the calls of [_dfs]. *)
Record dfs_state := mkDfs {
  dfs_visited : gset string;
  dfs_parent : gmap string (option string);
  dfs_found : bool
}.

(** The [for] loop of [_dfs(u)] over the edges [es]; [rec] is the recursive
    call. *)
Fixpoint dfs_for (rec : string → dfs_state → option dfs_state) (u : string)
    (es : list Edge) (st : dfs_state) : option dfs_state :=
  match es with
  | [] => Some st
  | e :: r =>
      if decide (dst e ∈ dfs_visited st) then dfs_for rec u r st
      else
        st' ← rec (dst e)
                 (mkDfs (dfs_visited st) (<[dst e := Some u]> (dfs_parent st))
                        (dfs_found st));
        dfs_for rec u r st'
  end.

(** [_dfs(u)]; the fuel bounds the depth of the recursion. *)
Fixpoint dfs (fuel : nat) (g : Graph) (dest : string) (u : string)
    (st : dfs_state) : option dfs_state :=
  match fuel with
  | O => None
  | S f =>
      if dfs_found st then Some st
      else
        let st1 := mkDfs ({[u]} ∪ dfs_visited st) (dfs_parent st) (dfs_found st) in
        if decide (u = dest)
        then Some (mkDfs (dfs_visited st1) (dfs_parent st1) true)
        else dfs_for (dfs f g dest) u (adj_get (adj g) u) st1
  end.

(** [dfs_path]: every nested call marks a node that was not visited, so the
    depth is bounded by the number of edge targets. *)
Definition dfs_path (g : Graph) (start dest : string) : option (list string) :=
  let fuel := 2 + length (all_edges (adj g)) in
  st ← dfs fuel g dest start (mkDfs ∅ {[start := None]} false);
  reconstruct (dfs_parent st) start dest.

(** ** Prim *)

(** The tuples [(e.real_dist, e.src, e.dst)] pushed on the heap. *)
Definition heap_item : Type := Q * string * string.

Definition item_of (e : Edge) : heap_item := (real_dist e, src e, dst e).

(** [x < y] on these tuples: lexicographic, numbers first, then the two
    strings. *)
Definition item_lt (x y : heap_item) : bool :=
  let '(dx, ux, vx) := x in
  let '(dy, uy, vy) := y in
  match Qcompare dx dy with
  | Lt => true
  | Gt => false
  | Eq =>
      match String.compare ux uy with
      | Lt => true
      | Gt => false
      | Eq => String.ltb vx vy
      end
  end.

(** [heapq] keeps a binary heap in a list; the algorithm only observes that
    [heappop] removes and returns a least item under [<], which is a total
    order on these tuples.  The heap is modelled by the list of its items:
    [heappush] adds an item, [heappop] extracts a least one. *)
Definition heappush (pq : list heap_item) (x : heap_item) : list heap_item :=
  pq ++ [x].

Fixpoint heappop (pq : list heap_item) : option (heap_item * list heap_item) :=
  match pq with
  | [] => None
  | x :: r =>
      match heappop r with
      | None => Some (x, [])
      | Some (m, r') => if item_lt m x then Some (m, x :: r') else Some (x, r)
      end
  end.

(** The second [for] loop of the [while] body (lines 99-101). *)
Definition prim_push (visited : gset string) (pq : list heap_item) (ne : Edge)
  : list heap_item :=
  if decide (dst ne ∈ visited) then pq else heappush pq (item_of ne).

(** The [while] loop of [prim_mst_edges]. *)
Fixpoint prim_loop (fuel : nat) (g : Graph) (pq : list heap_item)
    (visited : gset string) (mst : list Edge) : option (list Edge) :=
  match fuel with
  | O => None
  | S f =>
      match pq with
      | [] => Some mst
      | _ =>
          if (size visited <? size (cities g))%nat then
            match heappop pq with
            | None => Some mst
            | Some ((_, u, v), pq1) =>
                if decide (v ∈ visited) then prim_loop f g pq1 visited mst
                else
                  let visited1 := {[v]} ∪ visited in
                  let mst1 :=
                    match find_dst (adj_get (adj g) u) v with
                    | Some e => mst ++ [e]
                    | None => mst
                    end in
                  let pq2 := foldl (prim_push visited1) pq1 (adj_get (adj g) v) in
                  prim_loop f g pq2 visited1 mst1
            end
          else Some mst
      end
  end.

(** [prim_mst_edges(start)].  Every pass pops an item and the items pushed
    are edges of adjacency lists of distinct nodes, so the passes are bounded
    by the number of edges. *)
Definition prim_mst_edges (g : Graph) (start : string) : option (list Edge) :=
  match cities g !! start with
  | None => Some []
  | Some _ =>
      let pq := foldl (λ pq e, heappush pq (item_of e)) [] (adj_get (adj g) start) in
      prim_loop (S (length (all_edges (adj g)))) g pq {[start]} []
  end.

(** The [mst_adj] of [prim_path] and [kruskal_path] (lines 106-109). *)
Definition mst_adj_of (mst : list Edge) : list (string * list string) :=
  foldl (λ m e, adj_append (adj_append m (src e) (dst e)) (dst e) (src e)) [] mst.

Definition prim_path (g : Graph) (start dest : string) : option (list string) :=
  mst ← prim_mst_edges g start;
  tree_path_in_adj (mst_adj_of mst) start dest.

(** ** Kruskal *)

(** [find(x)] with path compression; returns the updated [parent] and the
    root.  [None]: [KeyError], or the chain of parents does not end. *)
Fixpoint uf_find (fuel : nat) (parent : gmap string string) (x : string)
  : option (gmap string string * string) :=
  match fuel with
  | O => None
  | S f =>
      p ← parent !! x;
      if decide (p ≠ x) then
        '(parent1, r) ← uf_find f parent p;
        Some (<[x := r]> parent1, r)
      else Some (parent, p)
  end.

(** [union(a, b)] on the pair [(parent, rank)]. *)
Definition uf_union (fuel : nat) (parent : gmap string string)
    (rank : gmap string nat) (a b : string)
  : option (gmap string string * gmap string nat) :=
  '(parent1, ra) ← uf_find fuel parent a;
  '(parent2, rb) ← uf_find fuel parent1 b;
  if decide (ra ≠ rb) then
    rka ← rank !! ra;
    rkb ← rank !! rb;
    if (rka <? rkb)%nat then Some (<[ra := rb]> parent2, rank)
    else if (rkb <? rka)%nat then Some (<[rb := ra]> parent2, rank)
    else Some (<[rb := ra]> parent2, <[ra := S rka]> rank)
  else Some (parent2, rank).

(** [tuple(sorted((e.src, e.dst)))] *)
Definition edge_key (e : Edge) : string * string :=
  if String.ltb (dst e) (src e) then (dst e, src e) else (src e, dst e).

(** The de-duplication loop (lines 135-140); the state is [(seen, edges)]. *)
Definition dedupe_step (st : gset (string * string) * list Edge) (e : Edge)
  : gset (string * string) * list Edge :=
  let '(seen, edges) := st in
  if decide (edge_key e ∈ seen) then st
  else ({[edge_key e]} ∪ seen, edges ++ [e]).

(** The body of the final loop (lines 143-146); the state is
    [(parent, rank, mst)]. *)
Definition kruskal_step (fuel : nat)
    (st : option (gmap string string * gmap string nat * list Edge)) (e : Edge)
  : option (gmap string string * gmap string nat * list Edge) :=
  '(parent, rank, mst) ← st;
  '(parent1, r1) ← uf_find fuel parent (src e);
  '(parent2, r2) ← uf_find fuel parent1 (dst e);
  if decide (r1 ≠ r2) then
    '(parent3, rank3) ← uf_union fuel parent2 rank (src e) (dst e);
    Some (parent3, rank3, mst ++ [e])
  else Some (parent2, rank, mst).

(** [kruskal_mst_edges()].  A rank grows only in a union that joins two
    trees, so a chain of parents is no longer than the number of edges. *)
Definition kruskal_mst_edges (g : Graph) : option (list Edge) :=
  let parent : gmap string string := map_imap (λ k _, Some k) (cities g) in
  let rank : gmap string nat := (λ _, O) <$> cities g in
  let edges := (foldl dedupe_step (∅, []) (all_edges (adj g))).2 in
  let edges := py_sort (λ x y, Qle_bool (real_dist x) (real_dist y)) edges in
  '(_, _, mst) ← foldl (kruskal_step (S (length edges))) (Some (parent, rank, [])) edges;
  Some mst.

Definition kruskal_path (g : Graph) (start dest : string) : option (list string) :=
  mst ← kruskal_mst_edges g;
  tree_path_in_adj (mst_adj_of mst) start dest.

(** ** Bellman-Ford *)

(** The body of the loop over [all_edges] (lines 171-174); the state is
    [(dist, pred, updated)].  [None]: [KeyError]. *)
Definition relax
    (st : option (gmap string ext * gmap string (option string) * bool))
    (e : Edge)
  : option (gmap string ext * gmap string (option string) * bool) :=
  '(dist, pred, updated) ← st;
  du ← dist !! src e;
  dv ← dist !! dst e;
  if ext_add_lt du (real_dist e) dv then
    Some (<[dst e := (λ a, (a + real_dist e)%Q) <$> du]> dist,
          <[dst e := Some (src e)]> pred, true)
  else Some (dist, pred, updated).

(** The rounds of [for _ in range(len(self.cities)-1)], with the early
    [break]. *)
Fixpoint bf_rounds (n : nat) (es : list Edge) (dist : gmap string ext)
    (pred : gmap string (option string))
  : option (gmap string ext * gmap string (option string)) :=
  match n with
  | O => Some (dist, pred)
  | S k =>
      '(dist1, pred1, updated) ← foldl relax (Some (dist, pred, false)) es;
      if (updated : bool) then bf_rounds k es dist1 pred1 else Some (dist1, pred1)
  end.

Definition bellman_ford (g : Graph) (start : string)
  : option (gmap string ext * gmap string (option string)) :=
  let dist : gmap string ext := (λ _, None) <$> cities g in
  let pred : gmap string (option string) := (λ _, None) <$> cities g in
  match cities g !! start with
  | None => Some (dist, pred)
  | Some _ =>
      bf_rounds (size (cities g) - 1) (all_edges (adj g))
                (<[start := Some 0%Q]> dist) pred
  end.

Definition bellman_path (g : Graph) (start dest : string) : option (list string) :=
  '(dist, pred) ← bellman_ford g start;
  match default None (dist !! dest) with
  | None => Some []
  | Some _ => reconstruct pred start dest
  end.

(** ** The route evaluator ([RouteHandler.handle_route]) *)

Record segment := mkSegment {
  seg_src_id : string;
  seg_dst_id : string;
  seg_src_name : string;
  seg_dst_name : string;
  seg_real_dist : Q
}.

(** The dictionary [compute] returns for a route. *)
Record route_info := mkRouteInfo {
  algorithm_label : string;
  route_ids : list string;
  route_names : list string;
  route_segments : list segment;
  total_distance : Q;
  route_gas_used : Q;
  total_risk : Q;
  best_travel_date : option string;
  score : Q
}.

(** The result of [compute]: the dictionary with ["ok": False], or the one
    with ["ok": True]. *)
Inductive compute_result :=
  | NoRoute (label message : string)
  | RouteFound (info : route_info).

(** [ID_TO_NAME.get(x, x)] *)
Definition name_of (id_to_name : gmap string string) (x : string) : string :=
  default x (id_to_name !! x).

(** The algorithm [compute] dispatches to, with its label; an unknown token
    gives the empty route and the token as label. *)
Definition run_algorithm (g : Graph) (s d algorithm : string)
  : option (list string) * string :=
  if decide (algorithm = "BFS") then (bfs_path g s d, "BFS")
  else if decide (algorithm = "DFS") then (dfs_path g s d, "DFS")
  else if decide (algorithm = "PRIM") then (prim_path g s d, "Prim MST")
  else if decide (algorithm = "KRUSKAL") then (kruskal_path g s d, "Kruskal MST")
  else if decide (algorithm = "BELLMAN") then (bellman_path g s d, "Bellman-Ford")
  else (Some [], algorithm).

(** [compute(algorithm)] of [handle_route], a closure over the globals [G],
    [WR], [ID_TO_NAME] and the request's [src], [dst]. *)
Definition compute (g : Graph) (wr : WeatherRisk) (id_to_name : gmap string string)
    (s d algorithm : string) : option compute_result :=
  let '(r, label) := run_algorithm g s d algorithm in
  route ← r;
  match route with
  | [] => Some (NoRoute label "No route found")
  | _ =>
      let total := path_distance g route in
      let gas := gas_used total in
      let '(best_date, risk) := best_date_for_path route wr in
      let segs :=
        map (λ p, mkSegment p.1 p.2 (name_of id_to_name p.1)
                            (name_of id_to_name p.2) (edge_dist g p.1 p.2))
            (segments route) in
      Some (RouteFound
              (mkRouteInfo label route (map (name_of id_to_name) route) segs
                           total gas risk best_date (total + 20 * risk)%Q))
  end.

(** The loop of the ["BEST"] branch (lines 354-357): [results], a dictionary
    in insertion order. *)
Fixpoint best_results (g : Graph) (wr : WeatherRisk)
    (id_to_name : gmap string string) (s d : string) (algs : list string)
  : option (list (string * route_info)) :=
  match algs with
  | [] => Some []
  | a :: rest =>
      r ← compute g wr id_to_name s d a;
      results ← best_results g wr id_to_name s d rest;
      match r with
      | RouteFound info => Some ((a, info) :: results)
      | NoRoute _ _ => Some results
      end
  end.

(** One step of [min(results.keys(), key=lambda k: results[k]["score"])]:
    a later key replaces the candidate [best] only with a smaller score. *)
Definition min_step (best x : string * route_info) : string * route_info :=
  if Qlt_le_dec (score x.2) (score best.2) then x else best.

Definition min_by_score (first : string * route_info)
    (rest : list (string * route_info)) : string * route_info :=
  foldl min_step first rest.

(** The [data] dictionary of the ["BEST"] branch. *)
Inductive best_data :=
  | NoAlgorithm (message : string)
  | Best (algorithm : string) (info : route_info).

(** The ["BEST"] branch of [handle_route] (lines 352-363): [evaluateBest]. *)
Definition evaluate_best (g : Graph) (wr : WeatherRisk)
    (id_to_name : gmap string string) (s d : string) : option best_data :=
  results ← best_results g wr id_to_name s d
              ["BFS"; "DFS"; "PRIM"; "KRUSKAL"; "BELLMAN"];
  match results with
  | [] => Some (NoAlgorithm "No algorithm found a path")
  | x :: rest =>
      let '(best_alg, best) := min_by_score x rest in
      Some (Best best_alg best)
  end.

(** ** The request handler ([RouteHandler.handle_route]) *)

(** [ch.upper()] on the ASCII range. *)
Definition upper_ascii (c : ascii) : ascii :=
  let n := nat_of_ascii c in
  if ((97 <=? n) && (n <=? 122))%nat then ascii_of_nat (n - 32) else c.

(** [s.upper()] *)
Fixpoint py_upper (s : string) : string :=
  match s with
  | EmptyString => EmptyString
  | String c r => String (upper_ascii c) (py_upper r)
  end.

(** The [data] dictionary before the request's ids and names are added. *)
Inductive route_data :=
  | DataBest (b : best_data)
  | DataSingle (c : compute_result).

(** What [handle_route] sends: [send_error(400, msg)], or status 200 with
    [data] and the four fields added to it (lines 367-370). *)
Inductive http_response :=
  | Error400 (msg : string)
  | Ok200 (data : route_data) (src_id dst_id src_name dst_name : string).

(** [handle_route]; [src], [dst] and [alg] are the first values of the query
    parameters of these names ([None] when absent).  [None] as result: a
    path algorithm does not return. *)
Definition handle_route (g : Graph) (wr : WeatherRisk)
    (id_to_name : gmap string string) (src dst alg : option string)
  : option http_response :=
  let alg := py_upper (py_or alg "BEST") in
  match src, dst with
  | Some (String c1 r1 as s), Some (String c2 r2 as d) =>
      match cities g !! s, cities g !! d with
      | Some _, Some _ =>
          data ←
            (if decide (alg = "BEST")
             then DataBest <$> evaluate_best g wr id_to_name s d
             else DataSingle <$> compute g wr id_to_name s d alg);
          Some (Ok200 data s d (name_of id_to_name s) (name_of id_to_name d))
      | _, _ => Some (Error400 "Invalid src/dst")
      end
  | _, _ => Some (Error400 "Missing src or dst")
  end.

(** ** Ingestion ([main]) *)

(** The [City] built from a row of [cities.csv] (lines 409-416).  An
    elevation text that [float] rejects gives 0.0; as for [py_float], the
    literals [inf], [infinity] and [nan] are not covered. *)
Definition city_of_row (r : gmap string string) : City :=
  let c := py_strip (py_or (r !! "city_id") (py_or (r !! "id") (py_or (r !! "city") ""))) in
  let nm := py_strip (py_or (r !! "city") (py_or (r !! "name") c)) in
  let st := py_strip (py_or (r !! "state") "") in
  let sea_raw :=
    py_or (r !! "sea_level(in meters(m))")
          (py_or (r !! "sea") (py_or (r !! "elevation") "0")) in
  let sea := match py_float sea_raw with Some v => v | None => 0%Q end in
  mkCity c nm st (Some sea).

(** The body of the loop over [cities.csv] (lines 408-417). *)
Definition city_row (g : Graph) (r : gmap string string) : Graph :=
  let c := city_of_row r in
  match cid c with
  | EmptyString => g
  | _ => add_c g c
  end.

(** [''.join([c for c in dist_raw if c.isdigit() or c=='.'])] *)
Fixpoint keep_digits_dot (s : string) : string :=
  match s with
  | EmptyString => EmptyString
  | String c r =>
      if is_digit c || Ascii.eqb c "."
      then String c (keep_digits_dot r) else keep_digits_dot r
  end.

(** The map distance read from [dist_raw] (lines 431-435); [None] when the
    [float] call of the [except] branch raises [ValueError]. *)
Definition parse_dist (dist_raw : string) : option Q :=
  match py_float dist_raw with
  | Some v => Some v
  | None =>
      match keep_digits_dot dist_raw with
      | EmptyString => Some 0%Q
      | s => py_float s
      end
  end.

(** The three fields read from a row of [edges.csv] (lines 429-431). *)
Definition edge_src (r : gmap string string) : string :=
  py_strip (py_or (r !! "src_id") (py_or (r !! "src") (py_or (r !! "from") ""))).

Definition edge_dst (r : gmap string string) : string :=
  py_strip (py_or (r !! "dst_id") (py_or (r !! "dst") (py_or (r !! "to") ""))).

Definition edge_dist_raw (r : gmap string string) : string :=
  py_or (r !! "map_distance_miles")
        (py_or (r !! "distance") (py_or (r !! "dist") "0")).

(** The body of the loop over [edges.csv] (lines 428-437); [None] when it
    raises. *)
Definition edge_row (g : Graph) (r : gmap string string) : option Graph :=
  md ← parse_dist (edge_dist_raw r);
  match edge_src r, edge_dst r with
  | String _ _, String _ _ => Some (add_bidir_edge g (edge_src r) (edge_dst r) md)
  | _, _ => Some g
  end.

Fixpoint edge_rows (g : Graph) (rows : list (gmap string string)) : option Graph :=
  match rows with
  | [] => Some g
  | r :: rest => g' ← edge_row g r; edge_rows g' rest
  end.

(** [ID_TO_NAME = {cid: c.name for cid, c in G.cities.items()}] *)
Definition id_to_name_of (g : Graph) : gmap string string := name <$> cities g.

(** The globals [G], [WR] and [ID_TO_NAME] as [main] leaves them before the
    server starts, from the rows of the three files ([risk_rows] is [None]
    when [weather_risk.csv] does not exist).  An error of [WR.load] is caught
    and leaves [WR] as it is at that point; [None] as result: the edges loop
    raises and [main] ends. *)
Definition main_globals (city_rows edge_rows_ : list (gmap string string))
    (risk_rows : option (list (gmap string string)))
  : option (Graph * WeatherRisk * gmap string string) :=
  let g0 := foldl city_row Graph_init city_rows in
  let names := id_to_name_of g0 in
  g ← edge_rows g0 edge_rows_;
  let wr :=
    match risk_rows with
    | None => WeatherRisk_init
    | Some rows =>
        match load WeatherRisk_init rows with
        | Loaded wr' => wr'
        | LoadValueError wr' => wr'
        end
    end in
  Some (g, wr, names).

(** ** Specification vocabulary for the risk model *)



(** The dates list is in ascending order, as [load] leaves it. *)
Definition dates_sorted (wr : WeatherRisk) : Prop :=
  StronglySorted (λ a b, String.leb a b = true) (dates wr).

(** The states a [WeatherRisk] object passes through: row by row, and the
    final sort. *)
Inductive wr_built : WeatherRisk → Prop :=
  | wr_built_init : wr_built WeatherRisk_init
  | wr_built_row wr r wr' :
      wr_built wr → load_row wr r = Some wr' → wr_built wr'
  | wr_built_sort wr :
      wr_built wr → wr_built (mkWeatherRisk (risk wr) (py_sort String.leb (dates wr))).

(** ** Specification vocabulary for routes *)

(** [chain nbrs parent start v p]: following [parent] from [v] reaches
    [start] along [p = [v; ...; start]], and each step goes back along a
    neighbour entry. *)
Inductive chain (nbrs : string → list string)
    (parent : gmap string (option string)) (start : string)
  : string → list string → Prop :=
  | chain_start : chain nbrs parent start start [start]
  | chain_step v u p :
      v ≠ start → parent !! v = Some (Some u) → v ∈ nbrs u →
      chain nbrs parent start u p → chain nbrs parent start v (v :: p).

(** A route from [start] to [dest] over the neighbour lists [nbrs]. *)
Definition is_route (nbrs : string → list string) (start dest : string)
    (r : list string) : Prop :=
  head r = Some start ∧ last r = Some dest ∧
  ∀ a b, (a, b) ∈ segments r → b ∈ nbrs a.

(** The neighbour lists of a graph. *)
Definition graph_nbrs (g : Graph) (u : string) : list string :=
  map dst (adj_get (adj g) u).

(** [dest] can be reached from [start] along directed edges. *)
Definition reachable (g : Graph) (start dest : string) : Prop :=
  rtc (λ u v, v ∈ graph_nbrs g u) start dest.

(** A directed path: a list of edges of the graph, each starting where the
    one before ends. *)
Fixpoint is_epath (g : Graph) (u : string) (p : list Edge) (v : string) : Prop :=
  match p with
  | [] => u = v
  | e :: q => e ∈ all_edges (adj g) ∧ src e = u ∧ is_epath g (dst e) q v
  end.

(** The summed directional cost of a path. *)
Definition path_cost (p : list Edge) : Q :=
  foldl (λ a e, (a + real_dist e)%Q) 0%Q p.

(** The locations a path from [u] visits. *)
Definition path_nodes (u : string) (p : list Edge) : list string :=
  u :: map dst p.

(** No ordered pair of locations is joined by two directed edges. *)
Definition no_parallel (g : Graph) : Prop :=
  ∀ e1 e2, e1 ∈ all_edges (adj g) → e2 ∈ all_edges (adj g) →
    src e1 = src e2 → dst e1 = dst e2 → e1 = e2.

(** The invariant of the graphs the program builds: every edge is listed
    under its origin, joins two known cities, costs at least the floor 0.01
    and has a reverse edge. *)
Record graph_wf (g : Graph) : Prop := mkGraphWf {
  wf_src : ∀ u e, e ∈ adj_get (adj g) u → src e = u;
  wf_listed : ∀ e, e ∈ all_edges (adj g) → e ∈ adj_get (adj g) (src e);
  wf_cities : ∀ e, e ∈ all_edges (adj g) →
    is_Some (cities g !! src e) ∧ is_Some (cities g !! dst e);
  wf_cost : ∀ e, e ∈ all_edges (adj g) → (0.01 <= real_dist e)%Q;
  wf_sym : ∀ e, e ∈ all_edges (adj g) →
    ∃ e', e' ∈ adj_get (adj g) (dst e) ∧ dst e' = src e
}.

(** ** Specification vocabulary for the evaluator *)


(** ** Invariants used in the proofs *)

(** A three-way comparison that is a total preorder. *)
Record cmp_ok {A} (c : A → A → comparison) : Prop := mkCmpOk {
  cmp_refl : ∀ x, c x x = Eq;
  cmp_antisym : ∀ x y, c y x = CompOpp (c x y);
  cmp_lt_trans : ∀ x y z, c x y = Lt → c y z = Lt → c x z = Lt;
  cmp_eq_l : ∀ x y z, c x y = Eq → c x z = c y z
}.

(** Lexicographic combination. *)
Definition lex (c1 c2 : comparison) : comparison :=
  match c1 with Eq => c2 | _ => c1 end.

(** The three-way comparison behind [item_lt]. *)
Definition item_cmp (x y : heap_item) : comparison :=
  lex (Qcompare x.1.1 y.1.1)
      (lex (String.compare x.1.2 y.1.2) (String.compare x.2 y.2)).

(** The number of adjacency entries reachable by [adj_get] from nodes
    outside [vis]: the items that can still be pushed. *)
Fixpoint pending {A} (a : list (string * list A)) (vis : gset string) : nat :=
  match a with
  | [] => 0
  | (k, es) :: r =>
      (if decide (k ∈ vis) then 0 else length es) + pending r ({[k]} ∪ vis)
  end.

(** The invariant of [(parent, rank)] in [kruskal_mst_edges]: [parent] is closed, ranks grow
    strictly along it and are at most [n], the number of unions so far. *)
Definition uf_inv (parent : gmap string string) (rank : gmap string nat)
    (n : nat) : Prop :=
  (∀ x p, parent !! x = Some p → is_Some (parent !! p)) ∧
  (∀ x p, parent !! x = Some p → p ≠ x →
     ∃ rx rp, rank !! x = Some rx ∧ rank !! p = Some rp ∧ rx < rp) ∧
  (∀ x, is_Some (parent !! x) → ∃ r, rank !! x = Some r ∧ r ≤ n).

(** A segment of the route runs along an edge of the tree, in either
    direction. *)
Definition tree_segment (mst : list Edge) (a b : string) : Prop :=
  ∃ e, e ∈ mst ∧ ((src e = a ∧ dst e = b) ∨ (src e = b ∧ dst e = a)).

(** Distances only decrease from [dist] to [dist']. *)
Definition bf_mono (dist dist' : gmap string ext) : Prop :=
  ∀ x a, dist !! x = Some (Some a) →
    ∃ a', dist' !! x = Some (Some a') ∧ (a' <= a)%Q.

(** Edge [e] is relaxed from [dist] to [dist']. *)
Definition bf_relaxed (dist dist' : gmap string ext) (e : Edge) : Prop :=
  ∀ a, dist !! src e = Some (Some a) →
    ∃ b, dist' !! dst e = Some (Some b) ∧ (b <= a + real_dist e)%Q.

(** No relaxation applies to [e]. *)
Definition bf_stable (dist : gmap string ext) (e : Edge) : Prop :=
  ∀ a, dist !! src e = Some (Some a) →
    ∃ b, dist !! dst e = Some (Some b) ∧ (b <= a + real_dist e)%Q.

(** The invariant of the [while q] loop of the breadth-first searches. *)
Definition bfs_inv (nbrs : string → list string) (start : string)
    (q : list string) (visited : gset string)
    (parent : gmap string (option string)) : Prop :=
  start ∈ visited ∧ dom parent = visited ∧ (∀ x, x ∈ q → x ∈ visited) ∧
  ∀ v, v ∈ visited →
    ∃ p, chain nbrs parent start v p ∧ NoDup p ∧ ∀ x, x ∈ p → x ∈ visited.

(** The invariant of the state between two calls of [_dfs]. *)
Definition dfs_inv (g : Graph) (start dest : string) (st : dfs_state) : Prop :=
  (∀ v, v ∈ dfs_visited st →
     ∃ p, chain (graph_nbrs g) (dfs_parent st) start v p ∧ NoDup p ∧
          ∀ x, x ∈ p → x ∈ dfs_visited st) ∧
  (dfs_found st = true ↔ dest ∈ dfs_visited st) ∧
  (∀ v, v ∈ dfs_visited st → is_Some (dfs_parent st !! v)) ∧
  (∀ w, is_Some (dfs_parent st !! w) →
     w = start ∨ w ∈ dfs_visited st ∨ dfs_found st = true).

(** What holds when [_dfs(v)] is entered, the entry [parent[v]] aside. *)
Definition dfs_pre (g : Graph) (start dest : string) (v : string)
    (st : dfs_state) : Prop :=
  (v ∉ dfs_visited st) ∧
  (v = start ∨
   (start ∈ dfs_visited st ∧
    ∃ u, u ∈ dfs_visited st ∧ dfs_parent st !! v = Some (Some u) ∧
         v ∈ graph_nbrs g u)) ∧
  is_Some (dfs_parent st !! v) ∧
  ∃ par0, dfs_inv g start dest (mkDfs (dfs_visited st) par0 (dfs_found st)) ∧
    ∀ w, w ≠ v → dfs_parent st !! w = par0 !! w.

(** The invariant of [(dist, pred)] in [bellman_ford]: the keys are the cities, a finite
    distance is the cost of a path from [start], and the predecessor of a
    node is the origin of an edge that accounts for its distance. *)
Definition bf_inv (g : Graph) (start : string) (dist : gmap string ext)
    (pred : gmap string (option string)) : Prop :=
  (∀ x, is_Some (dist !! x) ↔ is_Some (cities g !! x)) ∧
  (∀ x, is_Some (pred !! x) ↔ is_Some (cities g !! x)) ∧
  dist !! start = Some (Some 0%Q) ∧
  (∀ v d, dist !! v = Some (Some d) →
     ∃ p, is_epath g start p v ∧ path_cost p = d) ∧
  (∀ v d, v ≠ start → dist !! v = Some (Some d) →
     ∃ e du, e ∈ all_edges (adj g) ∧ dst e = v ∧
       pred !! v = Some (Some (src e)) ∧
       dist !! src e = Some (Some du) ∧ (du + real_dist e <= d)%Q).

(** Every path of at most [k] edges is matched by the distance of its end. *)
Definition bf_bound (g : Graph) (start : string) (k : nat)
    (dist : gmap string ext) : Prop :=
  ∀ v p, is_epath g start p v → length p ≤ k →
    ∃ d, dist !! v = Some (Some d) ∧ (d <= path_cost p)%Q.

(** Two locations are joined by edges of the tree. *)
Definition tree_conn (mst : list Edge) : relation string :=
  rtc (tree_segment mst).

(** The invariant of the [while] loop of [prim_mst_edges]: the visited
    nodes are cities joined to [start] by the tree, the heap holds every edge
    that leaves the visited nodes, and every heap item is an edge out of a
    visited node. *)
Definition prim_inv (g : Graph) (start : string) (pq : list heap_item)
    (visited : gset string) (mst : list Edge) : Prop :=
  start ∈ visited ∧
  (∀ v, v ∈ visited → tree_conn mst start v) ∧
  (∀ u e, u ∈ visited → e ∈ adj_get (adj g) u → dst e ∉ visited →
     item_of e ∈ pq) ∧
  (∀ x, x ∈ pq →
     ∃ e, x = item_of e ∧ e ∈ adj_get (adj g) (src e) ∧ src e ∈ visited) ∧
  (∀ v, v ∈ visited → is_Some (cities g !! v)).

(** Every city can be reached from every city. *)
Definition connected (g : Graph) : Prop :=
  ∀ a b, is_Some (cities g !! a) → is_Some (cities g !! b) → reachable g a b.


(** The shape of the tree [prim_mst_edges] grows: the visited locations are
    [start] and the destinations of the tree's edges, each reached once and
    each reachable in the graph; every edge is an edge of the graph and
    leaves [start] or the destination of an earlier edge. *)
Definition prim_tree (g : Graph) (start : string) (visited : gset string)
    (mst : list Edge) : Prop :=
  (∀ x, x ∈ visited ↔ x = start ∨ x ∈ map dst mst) ∧
  NoDup (map dst mst) ∧ (start ∉ map dst mst) ∧
  (∀ l1 e l2, mst = l1 ++ e :: l2 → src e = start ∨ src e ∈ map dst l1) ∧
  (∀ e, e ∈ mst → e ∈ adj_get (adj g) (src e)) ∧
  (∀ x, x ∈ visited → reachable g start x).

(** The root [find] reaches from [x]: the end of the chain of [parent]
    entries, an identifier that is its own parent. *)
Definition uf_root (parent : gmap string string) (x r : string) : Prop :=
  rtc (λ a b, parent !! a = Some b) x r ∧ parent !! r = Some r.

(** Two identifiers are in the same set of the union-find forest. *)
Definition same_class (parent : gmap string string) (a b : string) : Prop :=
  ∃ r, uf_root parent a r ∧ uf_root parent b r.

(** The sets of the union-find forest contain the components of the edges
    accepted so far. *)
Definition uf_covers (parent : gmap string string) (mst : list Edge) : Prop :=
  ∀ a b, tree_conn mst a b → a = b ∨ same_class parent a b.

(** The depth recorded for a visited location in a breadth-first search (0
    when none is recorded). *)
Definition bfs_dp (dep : gmap string nat) (x : string) : nat := default 0 (dep !! x).

(** The level invariant of the breadth-first searches.  [dep] records for
    every visited location the number of steps of its chain of parents; the
    queue is in ascending order of depth, between [h] and [h + 1]; and every
    visited location that is neither queued nor the one being expanded
    ([cur]) has all its neighbours visited, at most one level deeper. *)
Definition bfs_levels (nbrs : string → list string) (start : string) (h : nat)
    (cur : option string) (q : list string) (visited : gset string)
    (parent : gmap string (option string)) (dep : gmap string nat) : Prop :=
  dom dep = visited ∧ dom parent = visited ∧ start ∈ visited ∧
  bfs_dp dep start = 0 ∧
  (∀ v, v ∈ visited →
     ∃ p, chain nbrs parent start v p ∧ length p = S (bfs_dp dep v) ∧ NoDup p ∧
          ∀ x, x ∈ p → x ∈ visited) ∧
  (∀ x, x ∈ q → x ∈ visited) ∧
  StronglySorted (λ x y, bfs_dp dep x ≤ bfs_dp dep y) q ∧
  (∀ y, y ∈ q → h ≤ bfs_dp dep y) ∧
  (∀ w, w ∈ visited → bfs_dp dep w ≤ h + 1) ∧
  (∀ v, v ∈ visited → v ∉ q → Some v ≠ cur →
     ∀ w, w ∈ nbrs v → w ∈ visited ∧ bfs_dp dep w ≤ bfs_dp dep v + 1).


(* ===================================================================== *)
(** * Part II: properties *)
(* ===================================================================== *)

(** ** Numbers *)

Lemma py_max_ge_r a b : (b <= py_max a b)%Q.
Proof. unfold py_max. destruct (Qlt_le_dec a b); lra. Qed.

Lemma py_max_ge_l a b : (a <= py_max a b)%Q.
Proof. unfold py_max. destruct (Qlt_le_dec a b); lra. Qed.



(** ** Adjacency lists *)

Lemma adj_get_append_eq {A} (a : list (string * list A)) u e :
  adj_get (adj_append a u e) u = adj_get a u ++ [e].
Proof.
  induction a as [|[k es] r IH]; simpl.
  - by rewrite decide_True.
  - destruct (decide (k = u)) as [->|Hne]; simpl.
    + by rewrite decide_True.
    + by rewrite decide_False.
Qed.

Lemma adj_get_append_ne {A} (a : list (string * list A)) u v e :
  u ≠ v → adj_get (adj_append a u e) v = adj_get a v.
Proof.
  intros Huv. induction a as [|[k es] r IH]; simpl.
  - by rewrite decide_False.
  - destruct (decide (k = u)) as [->|Hne]; simpl.
    + by rewrite !decide_False.
    + destruct (decide (k = v)); done.
Qed.

Lemma elem_of_all_edges_append {A} (a : list (string * list A)) u e x :
  x ∈ all_edges (adj_append a u e) ↔ x = e ∨ x ∈ all_edges a.
Proof.
  unfold all_edges. induction a as [|[k es] r IH]; simpl.
  - set_solver.
  - destruct (decide (k = u)); simpl; set_solver.
Qed.

Lemma elem_of_adj_get {A} (a : list (string * list A)) u x :
  x ∈ adj_get a u → x ∈ all_edges a.
Proof.
  unfold all_edges. induction a as [|[k es] r IH]; simpl; [done|].
  destruct (decide (k = u)); set_solver.
Qed.

(** ** [add_bidir_edge]: directional costs *)

Section edge_costs.
Variables (g : Graph) (a b : string) (A B : City) (ea eb d : Q).
Hypothesis HA : cities g !! a = Some A.
Hypothesis HB : cities g !! b = Some B.
Hypothesis Hea : sea_level_m A = Some ea.
Hypothesis Heb : sea_level_m B = Some eb.
Hypothesis Hlt : (ea < eb)%Q.
Hypothesis Hd : (0 < d)%Q.


End edge_costs.



(** The spec's worked example: elevations 0 and 1609.34, map distance 10. *)
Example add_bidir_edge_example :
  let g := add_c (add_c Graph_init (mkCity "A" "a" "s" (Some 0%Q)))
                 (mkCity "B" "b" "s" (Some 1609.34%Q)) in
  (edge_dist (add_bidir_edge g "A" "B" 10) "A" "B" == 11)%Q ∧
  (edge_dist (add_bidir_edge g "A" "B" 10) "B" "A" == 9)%Q.
Proof. split; reflexivity. Qed.


(** ** [add_bidir_edge]: self-loops *)

Lemma all_edges_add_bidir_edge g s d md x :
  x ∈ all_edges (adj (add_bidir_edge g s d md)) →
  x ∈ all_edges (adj g) ∨
  (is_Some (cities g !! s) ∧ is_Some (cities g !! d) ∧
   ((src x = s ∧ dst x = d) ∨ (src x = d ∧ dst x = s))).
Proof.
  unfold add_bidir_edge.
  destruct (cities g !! s) as [A|]; [|by left].
  destruct (cities g !! d) as [B|]; [|by left].
  simpl. rewrite !elem_of_all_edges_append.
  intros [->|[->|Hx]]; simpl; eauto 10.
Qed.

(** C6 (as amended).  [add_bidir_edge g s d md] leaves a self-loop in the
    adjacency lists exactly when one was there before, or when [s = d] names
    a known city: a call whose origin differs from its destination never
    introduces a self-loop. *)
Theorem add_bidir_edge_self_loop (g : Graph) (s d : string) (md : Q) :
  has_self_loop (add_bidir_edge g s d md) ↔
  has_self_loop g ∨ (s = d ∧ is_Some (cities g !! s)).
Proof.
  split.
  - intros (e & He & Hloop).
    apply all_edges_add_bidir_edge in He as [He|(Hs & Hd & Hsd)].
    + left. by exists e.
    + right. split; [|done]. destruct Hsd as [[? ?]|[? ?]]; congruence.
  - intros [(e & He & Hloop)|[-> [A HA]]].
    + exists e. split; [|done]. unfold add_bidir_edge.
      destruct (cities g !! s); [|done]. destruct (cities g !! d); [|done].
      simpl. rewrite !elem_of_all_edges_append. auto.
    + unfold has_self_loop, add_bidir_edge. rewrite HA. simpl.
      eexists. rewrite !elem_of_all_edges_append. split; [left; reflexivity|done].
Qed.

(** C6, counterexample.  One call with equal origin and destination puts two
    self-loops into [adj["A"]]. *)
Lemma add_bidir_edge_makes_self_loop :
  let g := add_c Graph_init (mkCity "A" "a" "s" (Some 0%Q)) in
  built (add_bidir_edge g "A" "A" 5) ∧
  adj_get (adj (add_bidir_edge g "A" "A" 5)) "A"
    = [mkEdge "A" "A" 5 (py_max (5 * (1 + (0 - 0) / 1609.34 / 5)) 0.01);
       mkEdge "A" "A" 5 (py_max (5 * (1 + - ((0 - 0) / 1609.34 / 5))) 0.01)] ∧
  has_self_loop (add_bidir_edge g "A" "A" 5).
Proof.
  simpl. split; [repeat constructor|]. split; [reflexivity|].
  eexists. split; [|shelve]. unfold all_edges. simpl. left.
  Unshelve. reflexivity.
Qed.
(** ** String order *)

Lemma ascii_compare_refl c : Ascii.compare c c = Eq.
Proof. unfold Ascii.compare. apply N.compare_refl. Qed.

Lemma ascii_compare_lt_trans a b c :
  Ascii.compare a b = Lt → Ascii.compare b c = Lt → Ascii.compare a c = Lt.
Proof.
  unfold Ascii.compare. rewrite !N.compare_lt_iff. lia.
Qed.

Lemma string_compare_refl s : String.compare s s = Eq.
Proof. induction s as [|c s IH]; simpl; [done|]. by rewrite ascii_compare_refl. Qed.

Lemma string_compare_lt_trans s1 s2 s3 :
  String.compare s1 s2 = Lt → String.compare s2 s3 = Lt → String.compare s1 s3 = Lt.
Proof.
  revert s2 s3. induction s1 as [|c1 s1 IH]; intros [|c2 s2] [|c3 s3]; simpl; try done.
  destruct (Ascii.compare c1 c2) eqn:H12; try done.
  - apply Ascii.compare_eq_iff in H12 as ->.
    destruct (Ascii.compare c2 c3) eqn:H23; try done. apply IH.
  - destruct (Ascii.compare c2 c3) eqn:H23; try done.
    + apply Ascii.compare_eq_iff in H23 as <-. by rewrite H12.
    + by rewrite (ascii_compare_lt_trans _ _ _ H12 H23).
Qed.


Lemma string_leb_trans s1 s2 s3 :
  String.leb s1 s2 = true → String.leb s2 s3 = true → String.leb s1 s3 = true.
Proof.
  unfold String.leb.
  destruct (String.compare s1 s2) eqn:H12; try done;
  destruct (String.compare s2 s3) eqn:H23; try done; intros _ _.
  - apply String.compare_eq_iff in H12 as ->. by rewrite H23.
  - apply String.compare_eq_iff in H12 as ->. by rewrite H23.
  - apply String.compare_eq_iff in H23 as <-. by rewrite H12.
  - by rewrite (string_compare_lt_trans _ _ _ H12 H23).
Qed.

(** ** Sorting *)

Section py_sort.
Context {A : Type} (le : A → A → bool).
Hypothesis le_total : ∀ x y, le x y = true ∨ le y x = true.
Hypothesis le_trans : ∀ x y z, le x y = true → le y z = true → le x z = true.

Lemma elem_of_sort_insert x y l : y ∈ sort_insert le x l ↔ y = x ∨ y ∈ l.
Proof using Type.
  clear le_total le_trans.
  induction l as [|z l IH]; simpl; [|destruct (le x z)]; set_solver.
Qed.

Lemma elem_of_py_sort y l : y ∈ py_sort le l ↔ y ∈ l.
Proof using Type.
  clear le_total le_trans.
  induction l as [|x l IH]; simpl; [done|].
  rewrite elem_of_sort_insert. set_solver.
Qed.

Lemma sort_insert_sorted x l :
  StronglySorted (λ a b, le a b = true) l →
  StronglySorted (λ a b, le a b = true) (sort_insert le x l).
Proof using le_total le_trans.
  induction 1 as [|y l Hl IH Hy]; simpl.
  - repeat constructor.
  - destruct (le x y) eqn:Hxy.
    + constructor; [by constructor|].
      constructor; [done|]. eapply Forall_impl; [exact Hy|].
      intros z Hz. by eapply le_trans.
    + constructor; [done|].
      apply Forall_forall. intros z Hz%elem_of_sort_insert.
      destruct Hz as [->|Hz].
      * destruct (le_total x y); congruence.
      * by eapply Forall_forall in Hy.
Qed.

Lemma py_sort_sorted l : StronglySorted (λ a b, le a b = true) (py_sort le l).
Proof using le_total le_trans.
  induction l; simpl; [constructor|]. by apply sort_insert_sorted.
Qed.
End py_sort.

(** ** [best_date_for_path] *)


Lemma segments_cons c1 c2 rest :
  segments (c1 :: c2 :: rest) = (c1, c2) :: segments (c2 :: rest).
Proof. reflexivity. Qed.




(** The state of the loop over the dates [ds] scanned so far. *)
Lemma best_date_fold wr route ds :
  match foldl (best_date_step wr route) None ds with
  | None => ∀ d, d ∈ ds → date_total wr d route 0 = None
  | Some (d, r) =>
      ∃ pre post, ds = pre ++ d :: post ∧
        date_total wr d route 0 = Some r ∧
        (∀ d' t, d' ∈ pre → date_total wr d' route 0 = Some t → (r < t)%Q) ∧
        (∀ d' t, d' ∈ post → date_total wr d' route 0 = Some t → (r <= t)%Q)
  end.
Proof.
  induction ds as [|x ds IH] using rev_ind; [by simpl; set_solver|].
  rewrite foldl_app. simpl.
  destruct (foldl (best_date_step wr route) None ds) as [[d r]|]; unfold best_date_step.
  - destruct IH as (pre & post & -> & Hd & Hpre & Hpost).
    destruct (date_total wr x route 0) as [t|] eqn:Hx.
    + destruct (Qlt_le_dec t r) as [Hlt|Hle].
      * exists (pre ++ d :: post), []. split; [done|]. split; [done|].
        split; [|set_solver].
        intros d' t' [Hin|[->|Hin]%elem_of_cons]%elem_of_app Ht'.
        -- specialize (Hpre _ _ Hin Ht'). lra.
        -- rewrite Hd in Ht'. injection Ht' as ->. done.
        -- specialize (Hpost _ _ Hin Ht'). lra.
      * exists pre, (post ++ [x]). split; [by rewrite <-app_assoc|].
        split; [done|]. split; [done|].
        intros d' t' [Hin|Hin]%elem_of_app Ht'; [eauto|].
        apply list_elem_of_singleton in Hin as ->.
        rewrite Hx in Ht'. by injection Ht' as ->.
    + exists pre, (post ++ [x]). split; [by rewrite <-app_assoc|].
      split; [done|]. split; [done|].
      intros d' t' [Hin|Hin]%elem_of_app Ht'; [eauto|].
      apply list_elem_of_singleton in Hin as ->. congruence.
  - destruct (date_total wr x route 0) as [t|] eqn:Hx.
    + exists ds, []. split; [done|]. split; [done|]. split; [|set_solver].
      intros d' t' Hin Ht'. rewrite IH in Ht'; done.
    + intros d [Hin|Hin]%elem_of_app; [auto|].
      by apply list_elem_of_singleton in Hin as ->.
Qed.




(** The spec's worked example for [edge_risk]. *)
Example edge_risk_example :
  let wr := mkWeatherRisk
              (<["A" := <["2024-01-01" := 4%Q]> ∅]> (<["B" := <["2024-01-01" := 2%Q]> ∅]> ∅))
              ["2024-01-01"] in
  (edge_risk wr "A" "B" "2024-01-01" == 3)%Q.
Proof. vm_compute. reflexivity. Qed.

Lemma best_date_in_dates route wr d r :
  best_date_for_path route wr = (Some d, r) → d ∈ dates wr.
Proof.
  unfold best_date_for_path. destruct (length route <? 2)%nat; [done|].
  pose proof (best_date_fold wr route (dates wr)) as Hfold.
  destruct (foldl (best_date_step wr route) None (dates wr)) as [[d0 r0]|]; [|done].
  intros [= <- <-]. destruct Hfold as (pre & post & -> & _). set_solver.
Qed.

(** ** [WeatherRisk.load] *)

Lemma load_rows_built wr rows wr' :
  wr_built wr →
  load_rows wr rows = Loaded wr' ∨ load_rows wr rows = LoadValueError wr' →
  wr_built wr'.
Proof.
  revert wr. induction rows as [|r rows IH]; intros wr Hb; simpl.
  - intros [[= <-]|[=]]. done.
  - destruct (load_row wr r) as [wr1|] eqn:Hrow.
    + apply IH. by eapply wr_built_row.
    + intros [[=]|[= <-]]. done.
Qed.

Lemma load_built wr rows wr' :
  wr_built wr →
  load wr rows = Loaded wr' ∨ load wr rows = LoadValueError wr' →
  wr_built wr'.
Proof.
  intros Hb. unfold load. destruct (load_rows wr rows) as [wr1|wr1] eqn:Hl.
  - intros [[= <-]|[=]]. apply wr_built_sort. eapply load_rows_built; eauto.
  - intros [[=]|[= <-]]. eapply load_rows_built; eauto.
Qed.

(** A call of [load] that returns leaves the dates in ascending order. *)
Lemma load_sorted wr rows wr' : load wr rows = Loaded wr' → dates_sorted wr'.
Proof.
  unfold load. destruct (load_rows wr rows); [|done]. intros [= <-].
  apply py_sort_sorted; [apply String.leb_total|apply string_leb_trans].
Qed.

Lemma load_row_dates wr r wr' :
  load_row wr r = Some wr' →
  dates wr' = dates wr ∨
  (row_date r ≠ "" ∧ dates wr' = dates wr ++ [row_date r]).
Proof.
  unfold load_row. destruct (row_city r); [by intros [= <-]; left|].
  destruct (parse_risk (row_raw r)); [|done]. intros [= <-]. simpl.
  destruct (row_date r) eqn:Hd; [by left|].
  case_bool_decide; [by left|]. by right.
Qed.

Lemma wr_built_no_empty_date wr : wr_built wr → "" ∉ dates wr.
Proof.
  induction 1 as [|wr r wr' _ IH Hrow|wr _ IH].
  - set_solver.
  - apply load_row_dates in Hrow as [->|[Hne ->]]; [done|].
    rewrite elem_of_app, list_elem_of_singleton. naive_solver.
  - cbn [dates]. intros Hin. by apply elem_of_py_sort in Hin.
Qed.

(** C10.  A row with a city, an empty date and a risk text that yields a
    value stores that value under the empty date and leaves the dates list
    unchanged; the dates list of a [WeatherRisk] never holds the empty
    string, so [best_date_for_path] never returns it, for any route. *)
Theorem empty_date_stored_never_listed (wr : WeatherRisk)
    (r : gmap string string) (val : Q) :
  wr_built wr → row_city r ≠ "" → row_date r = "" →
  parse_risk (row_raw r) = Some val →
  ∃ wr', load_row wr r = Some wr' ∧
    risk_of wr' (row_city r) !! "" = Some val ∧
    dates wr' = dates wr ∧ ("" ∉ dates wr') ∧
    ∀ wr2 route, wr_built wr2 → fst (best_date_for_path route wr2) ≠ Some "".
Proof.
  intros Hb Hc Hd Hv. unfold load_row. rewrite Hv, Hd.
  destruct (row_city r) as [|a s] eqn:Hcity; [done|].
  eexists. split; [reflexivity|]. simpl.
  split.
  { unfold risk_of. cbn [risk].
    rewrite (lookup_insert_eq (risk wr) (String a s)). cbn [default].
    apply lookup_insert_eq. }
  split; [done|]. split; [by apply wr_built_no_empty_date|].
  intros wr2 route Hb2 Heq.
  destruct (best_date_for_path route wr2) as [od q] eqn:Hbest. simpl in Heq.
  subst od. apply best_date_in_dates in Hbest.
  by apply wr_built_no_empty_date in Hb2.
Qed.

Lemma empty_date_stored_never_listed_witness :
  let r : gmap string string :=
    <["city_id" := "A"]> (<["date" := ""]> (<["risk" := "4"]> ∅)) in
  ∃ wr', load_row WeatherRisk_init r = Some wr' ∧
    risk_of wr' (row_city r) !! "" = Some 4%Q ∧
    dates wr' = dates WeatherRisk_init ∧ ("" ∉ dates wr') ∧
    ∀ wr2 route, wr_built wr2 → fst (best_date_for_path route wr2) ≠ Some "".
Proof.
  intros r.
  apply (empty_date_stored_never_listed WeatherRisk_init r 4 wr_built_init).
  - vm_compute. discriminate.
  - vm_compute. reflexivity.
  - vm_compute. reflexivity.
Defined.

(** C5, the failing input.  The raw text "1.2.3" is no number; stripped to
    digits, '.' and '-' it is unchanged, and the second [float] call raises
    out of [load]: nothing is stored for the row, the rows after it are not
    read and the dates are left unsorted. *)
Theorem load_raises_on_unparseable_digits :
  let row c d v : gmap string string :=
    <["city_id" := c]> (<["date" := d]> (<["risk" := v]> ∅)) in
  py_float "1.2.3" = None ∧ keep_numeric "1.2.3" = "1.2.3" ∧
  load WeatherRisk_init [row "A" "2024-01-01" "1.2.3"]
    = LoadValueError WeatherRisk_init ∧
  load WeatherRisk_init
       [row "A" "2024-01-02" "4"; row "A" "2024-01-01" "1.2.3"; row "B" "2024-01-02" "2"]
    = LoadValueError (mkWeatherRisk {["A" := {["2024-01-02" := 4%Q]}]} ["2024-01-02"]).
Proof.
  intros row. split; [reflexivity|]. split; [reflexivity|].
  split; [reflexivity|]. vm_compute. reflexivity.
Qed.

(** ** [reconstruct] *)

Lemma chain_last nbrs parent start v p :
  chain nbrs parent start v p → ∃ p', p = p' ++ [start] ∧ head p = Some v.
Proof.
  induction 1 as [|v u p Hne Hpar Hnb _ (p' & -> & _)].
  - by exists [].
  - by exists (v :: p').
Qed.

Lemma chain_walk nbrs parent start v p fuel :
  chain nbrs parent start v p → length p ≤ fuel →
  reconstruct_walk fuel parent start (Some v) = Some p.
Proof.
  intros Hc. revert fuel. induction Hc as [|v u p Hne Hpar Hnb _ IH]; intros fuel Hlen.
  - destruct fuel; simpl in *; [lia|]. by rewrite decide_True.
  - destruct fuel; simpl in *; [lia|]. rewrite decide_False by done.
    rewrite Hpar. simpl. rewrite IH by lia. done.
Qed.

Lemma segments_snoc l x y :
  segments ((l ++ [x]) ++ [y]) = segments (l ++ [x]) ++ [(x, y)].
Proof.
  induction l as [|z l IH]; [done|].
  destruct l as [|z' l']; [done|].
  change (segments (((z :: z' :: l') ++ [x]) ++ [y]))
    with ((z, z') :: segments (((z' :: l') ++ [x]) ++ [y])).
  rewrite IH. done.
Qed.

Lemma chain_segments nbrs parent start v p :
  chain nbrs parent start v p →
  ∀ a b, (a, b) ∈ segments (rev p) → b ∈ nbrs a.
Proof.
  induction 1 as [|v u p Hne Hpar Hnb Hc IH]; [by simpl; set_solver|].
  destruct (chain_last _ _ _ _ _ Hc) as (p' & _ & Hhd).
  destruct p as [|x p0]; [done|]. simpl in Hhd. injection Hhd as ->.
  intros a b. simpl in *. rewrite segments_snoc.
  intros [Hin|Hin]%elem_of_app; [by apply IH|].
  apply list_elem_of_singleton in Hin. by injection Hin as -> ->.
Qed.

(** What [reconstruct] returns on a [parent] map in which [dest], when it is
    a key, has a chain to [start] without repetition among the keys. *)
Lemma reconstruct_chain nbrs parent start dest :
  (dest ≠ start → is_Some (parent !! dest) →
   ∃ p, chain nbrs parent start dest p ∧ NoDup p ∧ ∀ x, x ∈ p → x ∈ dom parent) →
  ∃ r, reconstruct parent start dest = Some r ∧ NoDup r ∧
    (r = [] ∨ is_route nbrs start dest r) ∧
    (r = [] → dest ≠ start ∧ parent !! dest = None).
Proof.
  intros Hch. unfold reconstruct.
  destruct (decide (dest = start)) as [->|Hne].
  { exists [start]. split; [done|]. split; [apply NoDup_singleton|].
    split; [|done]. right. split; [done|]. split; [done|]. simpl. set_solver. }
  destruct (parent !! dest) as [o|] eqn:Hpar.
  2:{ exists []. split; [done|]. split; [constructor|]. split; [by left|done]. }
  destruct (Hch Hne) as (p & Hc & Hnd & Hdom); [by eexists|].
  assert (Hlen : length p ≤ S (size parent)).
  { rewrite <-size_dom. rewrite <-(size_list_to_set (C:=gset string) p) by done.
    etrans; [|apply Nat.le_succ_diag_r]. apply subseteq_size.
    intros x Hx%elem_of_list_to_set. by apply Hdom. }
  rewrite (chain_walk _ _ _ _ _ _ Hc Hlen). simpl.
  destruct (chain_last _ _ _ _ _ Hc) as (p' & Hp & Hhd).
  rewrite Hp, rev_app_distr. simpl. rewrite decide_True by done.
  exists (start :: rev p'). split; [done|].
  assert (Hrev : start :: rev p' = rev p) by (by rewrite Hp, rev_app_distr).
  split; [rewrite Hrev; by rewrite <-Permutation_rev|].
  split; [|done]. right. split; [done|]. split.
  - rewrite Hrev. destruct p as [|x p0]; [done|]. simpl in Hhd. injection Hhd as ->.
    simpl. by rewrite last_snoc.
  - rewrite Hrev. by eapply chain_segments.
Qed.

(** ** Breadth-first search *)

Lemma chain_insert_fresh nbrs parent start x p v o :
  chain nbrs parent start x p → v ∉ p →
  chain nbrs (<[v := o]> parent) start x p.
Proof.
  induction 1 as [|x u p Hne Hpar Hnb Hc IH]; intros Hv; [constructor|].
  apply not_elem_of_cons in Hv as [Hvx Hvp].
  eapply chain_step; [done| |done|by apply IH].
  by rewrite lookup_insert_ne.
Qed.

Section bfs.
Variables (nbrs : string → list string) (start dest : string) (cand : gset string).
Hypothesis Hcand : ∀ u v, v ∈ nbrs u → v ∈ cand.

Lemma bfs_fold_inv u vs q vis par :
  bfs_inv nbrs start q vis par → u ∈ vis → (∀ v, v ∈ vs → v ∈ nbrs u) →
  ∃ q2 vis2 par2,
    foldl (bfs_visit u) (q, vis, par) vs = (q2, vis2, par2) ∧
    bfs_inv nbrs start q2 vis2 par2 ∧ u ∈ vis2 ∧
    length q2 + size (cand ∖ vis2) = length q + size (cand ∖ vis).
Proof using Hcand.
  revert q vis par. induction vs as [|v vs IH]; intros q vis par Hinv Hu Hvs.
  { simpl. eauto 10. }
  simpl. destruct (decide (v ∈ vis)) as [Hv|Hv].
  { apply IH; [done|done|]. intros w Hw. apply Hvs. by right. }
  destruct Hinv as (Hstart & Hdom & Hq & Hchains).
  assert (Hvn : v ∈ nbrs u) by (apply Hvs; by left).
  destruct (IH (q ++ [v]) ({[v]} ∪ vis) (<[v := Some u]> par))
    as (q2 & vis2 & par2 & Hfold & Hinv2 & Hu2 & Hmeas).
  - split; [set_solver|]. split; [by rewrite dom_insert_L, Hdom|].
    split; [intros x [Hx|Hx]%elem_of_app; set_solver|].
    intros w [Hw|Hw]%elem_of_union.
    + apply elem_of_singleton in Hw as ->.
      destruct (Hchains u Hu) as (p & Hc & Hnd & Hp).
      assert (Hvp : v ∉ p) by (intros Hin; apply Hv; by apply Hp).
      exists (v :: p). split; [|split].
      * eapply chain_step; [set_solver|by rewrite lookup_insert_eq|done|].
        by apply chain_insert_fresh.
      * by constructor.
      * intros x [->|Hx]%elem_of_cons; set_solver.
    + destruct (Hchains w Hw) as (p & Hc & Hnd & Hp).
      assert (Hvp : v ∉ p) by (intros Hin; apply Hv; by apply Hp).
      exists p. split; [by apply chain_insert_fresh|]. split; [done|]. set_solver.
  - set_solver.
  - intros w Hw. apply Hvs. by right.
  - exists q2, vis2, par2. split; [done|]. split; [done|]. split; [done|].
    rewrite Hmeas, length_app. simpl.
    assert (Hsz : size (cand ∖ vis) = S (size (cand ∖ ({[v]} ∪ vis)))).
    { assert (Heq : cand ∖ vis = {[v]} ∪ cand ∖ ({[v]} ∪ vis)).
      { apply set_eq. intros x. specialize (Hcand u v Hvn).
        destruct (decide (x = v)); set_solver. }
      rewrite Heq at 1. rewrite size_union by set_solver.
      by rewrite size_singleton. }
    lia.
Qed.

Lemma bfs_loop_spec fuel q vis par :
  bfs_inv nbrs start q vis par → length q + size (cand ∖ vis) < fuel →
  ∃ par', bfs_loop fuel nbrs dest q vis par = Some par' ∧
    ∀ v, is_Some (par' !! v) →
      ∃ p, chain nbrs par' start v p ∧ NoDup p ∧ ∀ x, x ∈ p → x ∈ dom par'.
Proof using Hcand.
  revert q vis par. induction fuel as [|fuel IH]; intros q vis par Hinv Hfuel; [lia|].
  assert (Hfinal : ∀ v, is_Some (par !! v) →
    ∃ p, chain nbrs par start v p ∧ NoDup p ∧ ∀ x, x ∈ p → x ∈ dom par).
  { destruct Hinv as (_ & Hdom & _ & Hch). intros v Hv.
    apply elem_of_dom in Hv. rewrite Hdom in *. eauto. }
  simpl. destruct q as [|u q]; [eauto|].
  destruct (decide (u = dest)); [eauto|].
  destruct (bfs_fold_inv u (nbrs u) q vis par) as (q2 & vis2 & par2 & -> & Hinv2 & _ & Hmeas).
  - destruct Hinv as (? & ? & Hq & ?). repeat split; try done.
    intros x Hx. apply Hq. by right.
  - destruct Hinv as (_ & _ & Hq & _). apply Hq. by left.
  - done.
  - apply IH; [done|]. simpl in Hfuel. lia.
Qed.

(** The search from [start], followed by [reconstruct]: a value is returned,
    and it is the empty route or a route without repetition. *)
Lemma bfs_reconstruct_spec fuel :
  1 + size cand < fuel →
  ∃ r, (bfs_loop fuel nbrs dest [start] {[start]} {[start := None]}
          ≫= λ parent, reconstruct parent start dest) = Some r ∧
    NoDup r ∧ (r = [] ∨ is_route nbrs start dest r).
Proof using Hcand.
  intros Hfuel.
  destruct (bfs_loop_spec fuel [start] {[start]} {[start := None]})
    as (par' & Hloop & Hch).
  - split; [set_solver|]. split; [by rewrite dom_singleton_L|].
    split; [set_solver|]. intros v ->%elem_of_singleton.
    exists [start]. split; [constructor|]. split; [apply NoDup_singleton|set_solver].
  - simpl. pose proof (subseteq_size (cand ∖ {[start]}) cand). 
    assert (size (cand ∖ {[start]}) ≤ size cand) by (apply subseteq_size; set_solver).
    lia.
  - rewrite Hloop. simpl.
    destruct (reconstruct_chain nbrs par' start dest) as (r & Hr & Hnd & Hroute & _).
    { intros _ Hsome. by apply Hch. }
    eauto.
Qed.
End bfs.

Lemma size_list_to_set_le (l : list string) :
  size (list_to_set (C := gset string) l) ≤ length l.
Proof.
  induction l as [|x l IH]; [by rewrite list_to_set_nil, size_empty|].
  rewrite list_to_set_cons. simpl. rewrite size_union_alt.
  rewrite size_singleton.
  assert (size (list_to_set (C := gset string) l ∖ {[x]}) ≤ size (list_to_set (C := gset string) l))
    by (apply subseteq_size; set_solver).
  lia.
Qed.

Lemma tree_path_in_adj_spec tadj start dest :
  ∃ r, tree_path_in_adj tadj start dest = Some r ∧ NoDup r ∧
    (r = [] ∨ is_route (adj_get tadj) start dest r).
Proof.
  unfold tree_path_in_adj.
  apply (bfs_reconstruct_spec _ _ _ (list_to_set (all_edges tadj))).
  - intros u v Hv. apply elem_of_list_to_set. by eapply elem_of_adj_get.
  - pose proof (size_list_to_set_le (all_edges tadj)). lia.
Qed.

Lemma bfs_path_spec g start dest :
  ∃ r, bfs_path g start dest = Some r ∧ NoDup r ∧
    (r = [] ∨ is_route (graph_nbrs g) start dest r).
Proof.
  unfold bfs_path.
  apply (bfs_reconstruct_spec _ _ _ (list_to_set (map dst (all_edges (adj g))))).
  - intros u v Hv. apply elem_of_list_to_set.
    unfold graph_nbrs in Hv. apply list_elem_of_fmap in Hv as (e & -> & He).
    apply list_elem_of_fmap. exists e. split; [done|]. by eapply elem_of_adj_get.
  - pose proof (size_list_to_set_le (map dst (all_edges (adj g)))) as H.
    rewrite length_map in H. lia.
Qed.

(** ** The graph invariant *)

Lemma elem_of_adj_get_append {A} (a : list (string * list A)) u x w e :
  e ∈ adj_get (adj_append a u x) w ↔ e ∈ adj_get a w ∨ (w = u ∧ e = x).
Proof.
  destruct (decide (u = w)) as [->|Hne].
  - rewrite adj_get_append_eq, elem_of_app, list_elem_of_singleton. naive_solver.
  - rewrite adj_get_append_ne by done. naive_solver.
Qed.

Lemma graph_wf_init : graph_wf Graph_init.
Proof. split; simpl; unfold all_edges; simpl; set_solver. Qed.

Lemma graph_wf_add_c g c : graph_wf g → graph_wf (add_c g c).
Proof.
  intros [H1 H2 H3 H4 H5]. split; simpl; try done.
  intros e He. destruct (H3 e He) as [Hs Hd].
  split; rewrite lookup_insert; case_decide; eauto.
Qed.

Lemma py_max_floor a : (0.01 <= py_max a 0.01)%Q.
Proof. apply py_max_ge_r. Qed.

Lemma graph_wf_add_bidir_edge g s d md :
  graph_wf g → graph_wf (add_bidir_edge g s d md).
Proof.
  intros [H1 H2 H3 H4 H5]. unfold add_bidir_edge.
  destruct (cities g !! s) as [A|] eqn:HA; [|done].
  destruct (cities g !! d) as [B|] eqn:HB; [|done].
  cbv zeta.
  set (eab := mkEdge s d md _). set (eba := mkEdge d s md _).
  split; cbn [adj cities].
  - intros u e. rewrite !elem_of_adj_get_append.
    intros [[He|[-> ->]]|[-> ->]]; eauto.
  - intros e. rewrite !elem_of_all_edges_append, !elem_of_adj_get_append.
    intros [->|[->|He]]; simpl; eauto.
  - intros e. rewrite !elem_of_all_edges_append.
    intros [->|[->|He]]; simpl; eauto.
  - intros e. rewrite !elem_of_all_edges_append.
    intros [->|[->|He]]; [apply py_max_floor..|eauto].
  - intros e. rewrite !elem_of_all_edges_append.
    intros [->|[->|He]].
    + exists eab. rewrite !elem_of_adj_get_append. simpl. eauto.
    + exists eba. rewrite !elem_of_adj_get_append. simpl. eauto.
    + destruct (H5 e He) as (e' & He' & Hd). exists e'.
      rewrite !elem_of_adj_get_append. eauto.
Qed.

Lemma built_wf g : built g → graph_wf g.
Proof.
  induction 1; auto using graph_wf_init, graph_wf_add_c, graph_wf_add_bidir_edge.
Qed.

Lemma graph_nbrs_edge g u v :
  v ∈ graph_nbrs g u ↔ ∃ e, e ∈ adj_get (adj g) u ∧ dst e = v.
Proof. unfold graph_nbrs. rewrite list_elem_of_fmap. naive_solver. Qed.

Lemma is_route_reachable g start dest r :
  is_route (graph_nbrs g) start dest r → reachable g start dest.
Proof.
  intros (Hhd & Hlast & Hseg). unfold reachable.
  revert start Hhd. induction r as [|a [|b r] IH]; intros start Hhd; [done| |].
  - simpl in *. injection Hhd as <-. injection Hlast as <-. done.
  - simpl in Hhd. injection Hhd as <-.
    eapply rtc_l; [apply (Hseg a b); by left|].
    apply IH; [done| |done].
    intros x y Hxy. apply Hseg. by right.
Qed.

(** ** Depth-first search *)

Lemma chain_agree nbrs par par' start v p :
  chain nbrs par start v p → (∀ x, x ∈ p → par' !! x = par !! x) →
  chain nbrs par' start v p.
Proof.
  induction 1 as [|x u p Hne Hpar Hnb Hc IH]; intros Hp; [constructor|].
  eapply chain_step; [done| |done|].
  - rewrite Hp; [done|]. by left.
  - apply IH. intros y Hy. apply Hp. by right.
Qed.

Section dfs.
Variables (g : Graph) (start dest : string).

Let cand : gset string := {[start]} ∪ list_to_set (map dst (all_edges (adj g))).

Lemma dfs_inv_parent vis par par' fnd :
  dfs_inv g start dest (mkDfs vis par fnd) →
  (∀ w, w ∈ vis → par' !! w = par !! w) →
  (∀ w, is_Some (par' !! w) → w = start ∨ w ∈ vis ∨ fnd = true) →
  dfs_inv g start dest (mkDfs vis par' fnd).
Proof.
  intros (Hch & Hf & Hdom & Hkeys) Hsame Hkeys'. split; [|split; [done|split; [|done]]]; simpl in *.
  - intros v Hv. destruct (Hch v Hv) as (p & Hc & Hnd & Hp).
    exists p. split; [|done]. eapply chain_agree; [done|]. auto.
  - intros v Hv. rewrite Hsame by done. by apply Hdom.
Qed.

Lemma dfs_cand_size (vis vis' : gset string) :
  vis ⊆ vis' → size (cand ∖ vis') ≤ size (cand ∖ vis).
Proof. intros H. apply subseteq_size. set_solver. Qed.

Lemma dfs_cand_size_lt (vis : gset string) v :
  v ∈ cand → v ∉ vis → size (cand ∖ ({[v]} ∪ vis)) < size (cand ∖ vis).
Proof.
  intros Hc Hv. apply subset_size. apply strict_spec_alt. split; [set_solver|].
  intros Heq. assert (v ∈ cand ∖ vis) as Hin by set_solver.
  rewrite <-Heq in Hin. set_solver.
Qed.

Lemma dfs_for_spec (rec : string → dfs_state → option dfs_state) f u es st :
  (∀ v st0, dfs_pre g start dest v st0 → v ∈ cand → size (cand ∖ dfs_visited st0) < f →
     ∃ st', rec v st0 = Some st' ∧ dfs_inv g start dest st' ∧
            dfs_visited st0 ⊆ dfs_visited st') →
  dfs_inv g start dest st → start ∈ dfs_visited st → u ∈ dfs_visited st →
  (∀ e, e ∈ es → e ∈ adj_get (adj g) u) →
  size (cand ∖ dfs_visited st) < f →
  ∃ st', dfs_for rec u es st = Some st' ∧ dfs_inv g start dest st' ∧
    dfs_visited st ⊆ dfs_visited st'.
Proof.
  intros Hrec. revert st.
  induction es as [|e es IH]; intros st Hinv Hstart Hu Hes Hf.
  { simpl. eauto. }
  simpl. destruct (decide (dst e ∈ dfs_visited st)) as [Hv|Hv].
  { apply IH; try done. intros e' He'. apply Hes. by right. }
  set (st0 := mkDfs (dfs_visited st) (<[dst e := Some u]> (dfs_parent st)) (dfs_found st)).
  assert (Hnb : dst e ∈ graph_nbrs g u).
  { apply graph_nbrs_edge. exists e. split; [apply Hes; by left|done]. }
  destruct (Hrec (dst e) st0) as (st1 & Hcall & Hinv1 & Hsub1).
  - split; [done|]. split; [|split].
    + right. split; [done|]. exists u. split; [done|].
      split; [by simpl; rewrite lookup_insert_eq|done].
    + simpl. rewrite lookup_insert_eq. by eexists.
    + exists (dfs_parent st). split; [by destruct st|].
      intros w Hw. simpl. by rewrite lookup_insert_ne.
  - unfold cand. apply elem_of_union_r, elem_of_list_to_set, list_elem_of_fmap.
    exists e. split; [done|]. eapply elem_of_adj_get. apply Hes. by left.
  - done.
  - rewrite Hcall. simpl.
    destruct (IH st1) as (st' & Hloop & Hinv' & Hsub'); try done.
    + by apply Hsub1.
    + by apply Hsub1.
    + intros e' He'. apply Hes. by right.
    + eapply Nat.le_lt_trans; [|exact Hf]. by apply dfs_cand_size.
    + exists st'. split; [done|]. split; [done|].
      etrans; [exact Hsub1|exact Hsub'].
Qed.

Lemma dfs_spec fuel v st :
  dfs_pre g start dest v st → v ∈ cand → size (cand ∖ dfs_visited st) < fuel →
  ∃ st', dfs fuel g dest v st = Some st' ∧ dfs_inv g start dest st' ∧
         dfs_visited st ⊆ dfs_visited st' ∧
         (dfs_found st = false → v ∈ dfs_visited st').
Proof.
  revert v st. induction fuel as [|f IH]; intros v st Hpre Hv Hf; [lia|].
  destruct Hpre as (Hnv & Hpar & Hkey & par0 & Hinv0 & Hsame).
  destruct st as [vis par fnd]. cbn [dfs dfs_visited dfs_parent dfs_found] in *.
  destruct fnd.
  { exists (mkDfs vis par true). split; [done|]. split; [|done].
    apply (dfs_inv_parent vis par0); [done| |by auto].
    intros w Hw. apply Hsame. set_solver. }
  destruct Hinv0 as (Hch & Hfound & Hdom & Hkeys).
  cbn [dfs_visited dfs_parent dfs_found] in *.
  assert (Hdest : dest ∉ vis) by (intros Hd; apply Hfound in Hd; done).
  assert (Hch1 : ∀ w, w ∈ {[v]} ∪ vis →
     ∃ p, chain (graph_nbrs g) par start w p ∧ NoDup p ∧
          ∀ x, x ∈ p → x ∈ {[v]} ∪ vis).
  { assert (Hold : ∀ w p, chain (graph_nbrs g) par0 start w p →
               (∀ x, x ∈ p → x ∈ vis) → chain (graph_nbrs g) par start w p).
    { intros w p Hc Hin. eapply chain_agree; [done|].
      intros x Hx. apply Hsame. intros ->. by apply Hnv, Hin. }
    intros w [Hw|Hw]%elem_of_union.
    - apply elem_of_singleton in Hw as ->.
      destruct Hpar as [->|(Hs & u & Hu & Hpu & Hnb)].
      + exists [start]. split; [constructor|]. split; [apply NoDup_singleton|set_solver].
      + destruct (Hch u Hu) as (p & Hc & Hnd & Hp).
        exists (v :: p). split; [|split].
        * apply (chain_step _ _ _ v u p); [by intros ->|done|done|by apply Hold].
        * constructor; [|done]. intros Hin. apply Hnv. by apply Hp.
        * intros x [->|Hx]%elem_of_cons; set_solver.
    - destruct (Hch w Hw) as (p & Hc & Hnd & Hp).
      exists p. split; [by apply Hold|]. split; [done|]. set_solver. }
  assert (Hdom1 : ∀ w, w ∈ {[v]} ∪ vis → is_Some (par !! w)).
  { intros w [Hw|Hw]%elem_of_union; [by apply elem_of_singleton in Hw as ->|].
    rewrite Hsame; [by apply Hdom|]. set_solver. }
  assert (Hkeys1 : ∀ b w, is_Some (par !! w) →
     w = start ∨ w ∈ {[v]} ∪ vis ∨ b = true).
  { intros b w Hw. destruct (decide (w = v)) as [->|Hne]; [set_solver|].
    rewrite Hsame in Hw by done. destruct (Hkeys w Hw) as [?|[?|?]]; [by left| |done].
    right. left. set_solver. }
  destruct (decide (v = dest)) as [->|Hne].
  { eexists. split; [done|]. split; [|split]; cbn [dfs_visited dfs_parent dfs_found]; [|set_solver|set_solver].
    split; [done|]. split; [split; set_solver|]. split; [done|]. apply Hkeys1. }
  destruct (dfs_for_spec (dfs f g dest) f v (adj_get (adj g) v)
              (mkDfs ({[v]} ∪ vis) par false))
    as (st' & Hloop & Hinv' & Hsub'); cbn [dfs_visited dfs_parent dfs_found].
  - intros v0 st0 Hpre0 Hv0 Hf0.
    destruct (IH v0 st0 Hpre0 Hv0 Hf0) as (st' & ? & ? & ? & _). eauto.
  - split; [done|]. split; [|split; [done|apply Hkeys1]].
    cbn [dfs_visited dfs_parent dfs_found]. split; [done|]. intros [Hin|Hin]%elem_of_union; [set_solver|done].
  - destruct Hpar as [->|[? _]]; set_solver.
  - set_solver.
  - done.
  - pose proof (dfs_cand_size_lt vis v Hv Hnv). lia.
  - exists st'. split; [done|]. split; [done|]. cbn [dfs_visited] in Hsub'.
    split; set_solver.
Qed.

Lemma dfs_path_spec :
  ∃ r, dfs_path g start dest = Some r ∧ NoDup r ∧
    (r = [] ∨ is_route (graph_nbrs g) start dest r).
Proof.
  unfold dfs_path.
  destruct (dfs_spec (2 + length (all_edges (adj g))) start
              (mkDfs ∅ {[start := None]} false))
    as (st' & Hdfs & (Hch & Hfound & Hdom & Hkeys) & Hsub & Hvis).
  - split; [set_solver|]. split; [by left|]. simpl.
    split; [by rewrite lookup_singleton_eq|].
    exists {[start := None]}. split; [|done].
    split; [set_solver|]. simpl. split; [split; [done|set_solver]|].
    split; [set_solver|]. intros w Hw. rewrite lookup_singleton in Hw.
    case_decide; [by left|]. by destruct Hw.
  - unfold cand. set_solver.
  - simpl. eapply Nat.le_lt_trans; [apply subseteq_size|].
    { apply subseteq_difference_l. reflexivity. }
    unfold cand. rewrite size_union_alt, size_singleton.
    pose proof (size_list_to_set_le (map dst (all_edges (adj g)))) as Hle.
    rewrite length_map in Hle.
    assert (size (list_to_set (C := gset string) (map dst (all_edges (adj g))) ∖ {[start]})
            ≤ size (list_to_set (C := gset string) (map dst (all_edges (adj g)))))
      by (apply subseteq_size; set_solver).
    lia.
  - rewrite Hdfs. simpl.
    destruct (reconstruct_chain (graph_nbrs g) (dfs_parent st') start dest)
      as (r & Hr & Hnd & Hroute & _); [|by eauto].
    intros Hne Hsome.
    assert (Hin : dest ∈ dfs_visited st').
    { destruct (Hkeys dest Hsome) as [?|[?|Hf]]; [done|done|by apply Hfound]. }
    destruct (Hch dest Hin) as (p & Hc & Hndp & Hp). exists p.
    split; [done|]. split; [done|]. intros x Hx.
    apply elem_of_dom, Hdom, Hp, Hx.
Qed.
End dfs.

(** ** The order on heap items *)

Lemma cmp_eq_r {A} (c : A → A → comparison) x y z :
  cmp_ok c → c y z = Eq → c x z = c x y.
Proof.
  intros Hc Hyz.
  assert (Hzy : c z y = Eq) by (by rewrite (cmp_antisym c Hc y z), Hyz).
  pose proof (cmp_eq_l c Hc z y x Hzy) as H.
  rewrite (cmp_antisym c Hc x z), (cmp_antisym c Hc x y) in H.
  by destruct (c x z), (c x y).
Qed.

(** [x <= y]: the comparison is not [Gt]. *)
Lemma cmp_le_trans {A} (c : A → A → comparison) x y z :
  cmp_ok c → c x y ≠ Gt → c y z ≠ Gt → c x z ≠ Gt.
Proof.
  intros Hc Hxy Hyz.
  destruct (c x y) eqn:H1; [| |done].
  - by rewrite (cmp_eq_l c Hc x y z H1).
  - destruct (c y z) eqn:H2; [| |done].
    + by rewrite (cmp_eq_r c x y z Hc H2), H1.
    + by rewrite (cmp_lt_trans c Hc x y z H1 H2).
Qed.

Lemma cmp_ok_lex {A B} (c1 : A → A → comparison) (c2 : B → B → comparison) :
  cmp_ok c1 → cmp_ok c2 →
  cmp_ok (λ x y : A * B, lex (c1 x.1 y.1) (c2 x.2 y.2)).
Proof.
  intros H1 H2. split.
  - intros [a b]. simpl. by rewrite (cmp_refl c1 H1), (cmp_refl c2 H2).
  - intros [a b] [a' b']. simpl.
    rewrite (cmp_antisym c1 H1 a a'), (cmp_antisym c2 H2 b b').
    by destruct (c1 a a').
  - intros [a b] [a' b'] [a'' b'']. simpl. unfold lex.
    destruct (c1 a a') eqn:E1; [| |done]; destruct (c1 a' a'') eqn:E2; try done.
    + rewrite (cmp_eq_l c1 H1 _ _ _ E1), E2. apply (cmp_lt_trans c2 H2).
    + by rewrite (cmp_eq_l c1 H1 _ _ _ E1), E2.
    + by rewrite (cmp_eq_r c1 _ _ _ H1 E2), E1.
    + by rewrite (cmp_lt_trans c1 H1 _ _ _ E1 E2).
  - intros [a b] [a' b'] [a'' b'']. simpl. unfold lex.
    destruct (c1 a a') eqn:E1; [|done|done]. intros E2.
    rewrite (cmp_eq_l c1 H1 _ _ _ E1). destruct (c1 a' a''); [|done|done].
    by apply (cmp_eq_l c2 H2).
Qed.

Lemma cmp_ok_Q : cmp_ok Qcompare.
Proof.
  split.
  - intros x. apply Qeq_alt. reflexivity.
  - intros x y. symmetry. apply Qcompare_antisym.
  - intros x y z. rewrite <-!Qlt_alt. apply Qlt_trans.
  - intros x y z Hxy%Qeq_alt. by rewrite Hxy.
Qed.

Lemma cmp_ok_string : cmp_ok String.compare.
Proof.
  split.
  - apply string_compare_refl.
  - intros x y. apply String.compare_antisym.
  - apply string_compare_lt_trans.
  - intros x y z Hxy%String.compare_eq_iff. by subst.
Qed.

Lemma cmp_ok_item : cmp_ok item_cmp.
Proof.
  pose proof (cmp_ok_lex _ _ cmp_ok_Q (cmp_ok_lex _ _ cmp_ok_string cmp_ok_string)) as H.
  split.
  - intros [[d u] v]. apply (cmp_refl _ H (d, (u, v))).
  - intros [[d u] v] [[d' u'] v']. apply (cmp_antisym _ H (d, (u, v)) (d', (u', v'))).
  - intros [[d u] v] [[d' u'] v'] [[d'' u''] v''].
    apply (cmp_lt_trans _ H (d, (u, v)) (d', (u', v')) (d'', (u'', v''))).
  - intros [[d u] v] [[d' u'] v'] [[d'' u''] v''].
    apply (cmp_eq_l _ H (d, (u, v)) (d', (u', v')) (d'', (u'', v''))).
Qed.

Lemma item_lt_cmp x y :
  item_lt x y = match item_cmp x y with Lt => true | _ => false end.
Proof.
  destruct x as [[dx ux] vx], y as [[dy uy] vy]. unfold item_lt, item_cmp, lex. simpl.
  destruct (Qcompare dx dy); [|done|done].
  unfold String.ltb. by destruct (String.compare ux uy).
Qed.

(** [heappop] removes one item, and no item of the heap is below it. *)
Lemma heappop_spec pq :
  match heappop pq with
  | None => pq = []
  | Some (m, rest) => pq ≡ₚ m :: rest ∧ ∀ x, x ∈ pq → item_cmp m x ≠ Gt
  end.
Proof.
  pose proof cmp_ok_item as Hc.
  induction pq as [|x pq IH]; [done|]. simpl.
  destruct (heappop pq) as [[m rest]|].
  - destruct IH as [Hperm Hmin].
    rewrite item_lt_cmp. destruct (item_cmp m x) eqn:Hmx.
    + split; [done|]. intros y [->|Hy]%elem_of_cons.
      * by rewrite (cmp_refl _ Hc).
      * apply (cmp_le_trans _ x m y Hc); [|by apply Hmin].
        by rewrite (cmp_antisym _ Hc m x), Hmx.
    + split; [rewrite Hperm; apply Permutation_swap|].
      intros y [->|Hy]%elem_of_cons; [by rewrite Hmx|by apply Hmin].
    + split; [done|]. intros y [->|Hy]%elem_of_cons.
      * by rewrite (cmp_refl _ Hc).
      * apply (cmp_le_trans _ x m y Hc); [|by apply Hmin].
        by rewrite (cmp_antisym _ Hc m x), Hmx.
  - subst pq. split; [done|]. intros y Hy. apply list_elem_of_singleton in Hy as ->.
    by rewrite (cmp_refl _ Hc).
Qed.

Lemma heappop_length pq m rest :
  heappop pq = Some (m, rest) → length pq = S (length rest).
Proof.
  intros H. pose proof (heappop_spec pq) as Hs. rewrite H in Hs.
  destruct Hs as [Hperm _]. by rewrite Hperm.
Qed.

Lemma heappop_elem pq m rest :
  heappop pq = Some (m, rest) → m ∈ pq ∧ ∀ x, x ∈ rest → x ∈ pq.
Proof.
  intros H. pose proof (heappop_spec pq) as Hs. rewrite H in Hs.
  destruct Hs as [Hperm _]. split; [rewrite Hperm; by left|].
  intros x Hx. rewrite Hperm. by right.
Qed.

(** ** Prim: termination and the edges chosen *)

Lemma pending_visit {A} (a : list (string * list A)) vis v :
  v ∉ vis → pending a ({[v]} ∪ vis) + length (adj_get a v) ≤ pending a vis.
Proof.
  revert vis. induction a as [|[k es] r IH]; intros vis Hv; simpl; [lia|].
  destruct (decide (k = v)) as [->|Hne].
  - rewrite decide_True by set_solver. rewrite decide_False by done.
    replace ({[v]} ∪ ({[v]} ∪ vis)) with ({[v]} ∪ vis) by set_solver. lia.
  - replace ({[k]} ∪ ({[v]} ∪ vis)) with ({[v]} ∪ ({[k]} ∪ vis)) by set_solver.
    assert (Hv' : v ∉ {[k]} ∪ vis) by set_solver.
    specialize (IH _ Hv').
    destruct (decide (k ∈ vis)).
    + rewrite decide_True by set_solver. lia.
    + rewrite decide_False by set_solver. lia.
Qed.

Lemma pending_le {A} (a : list (string * list A)) vis :
  pending a vis ≤ length (all_edges a).
Proof.
  revert vis. unfold all_edges. induction a as [|[k es] r IH]; intros vis; simpl; [lia|].
  rewrite length_app. specialize (IH ({[k]} ∪ vis)).
  destruct (decide (k ∈ vis)); lia.
Qed.

Lemma find_dst_Some es v e : find_dst es v = Some e → e ∈ es ∧ dst e = v.
Proof.
  induction es as [|x es IH]; simpl; [done|].
  destruct (decide (dst x = v)).
  - intros [= <-]. split; [by left|done].
  - intros H. destruct (IH H). split; [by right|done].
Qed.

Lemma prim_push_length vis pq es :
  length (foldl (prim_push vis) pq es) ≤ length pq + length es.
Proof.
  revert pq. induction es as [|e es IH]; intros pq; simpl; [lia|].
  etrans; [apply IH|]. unfold prim_push, heappush.
  destruct (decide (dst e ∈ vis)); [lia|]. rewrite length_app. simpl. lia.
Qed.

Lemma prim_loop_spec g fuel pq vis mst :
  length pq + pending (adj g) vis < fuel →
  (∀ e, e ∈ mst → e ∈ all_edges (adj g)) →
  ∃ mst', prim_loop fuel g pq vis mst = Some mst' ∧
    ∀ e, e ∈ mst' → e ∈ all_edges (adj g).
Proof.
  revert pq vis mst. induction fuel as [|fuel IH]; intros pq vis mst Hfuel Hmst; [lia|].
  simpl. destruct pq as [|x pq]; [eauto|].
  destruct (size vis <? size (cities g)); [|eauto].
  destruct (heappop (x :: pq)) as [[[[dm u] v] pq1]|] eqn:Hpop; [|eauto].
  apply heappop_length in Hpop. simpl in Hpop, Hfuel.
  destruct (decide (v ∈ vis)) as [Hv|Hv].
  { apply IH; [lia|done]. }
  apply IH.
  - pose proof (prim_push_length ({[v]} ∪ vis) pq1 (adj_get (adj g) v)).
    pose proof (pending_visit (adj g) vis v Hv). lia.
  - destruct (find_dst (adj_get (adj g) u) v) as [e|] eqn:Hfind; [|done].
    apply find_dst_Some in Hfind as [He _].
    intros e' [?|Hin]%elem_of_app; [auto|].
    apply list_elem_of_singleton in Hin as ->. by eapply elem_of_adj_get.
Qed.

Lemma prim_mst_edges_spec g start :
  ∃ mst, prim_mst_edges g start = Some mst ∧
    ∀ e, e ∈ mst → e ∈ all_edges (adj g).
Proof.
  unfold prim_mst_edges. destruct (cities g !! start); [|exists []; set_solver].
  apply prim_loop_spec; [|set_solver].
  assert (Hlen : ∀ (es : list Edge) pq,
    length (foldl (λ pq e, heappush pq (item_of e)) pq es) = length pq + length es).
  { induction es as [|e es IH]; intros pq; simpl; [lia|].
    rewrite IH. unfold heappush. rewrite length_app. simpl. lia. }
  rewrite Hlen. simpl.
  pose proof (pending_visit (adj g) ∅ start) as Hp.
  replace ({[start]} ∪ ∅ : gset string) with ({[start]} : gset string) in Hp by set_solver.
  pose proof (pending_le (adj g) ∅). specialize (Hp ltac:(set_solver)). lia.
Qed.

(** ** [mst_adj] *)

Lemma elem_of_mst_adj_of mst a b :
  b ∈ adj_get (mst_adj_of mst) a ↔
  ∃ e, e ∈ mst ∧ ((src e = a ∧ dst e = b) ∨ (src e = b ∧ dst e = a)).
Proof.
  unfold mst_adj_of. induction mst as [|x mst IH] using rev_ind.
  - simpl. set_solver.
  - rewrite foldl_app. simpl. rewrite !elem_of_adj_get_append, IH.
    split.
    + intros [[(e & He & Hab)|[-> ->]]|[-> ->]].
      * exists e. split; [set_solver|done].
      * exists x. split; [set_solver|by left].
      * exists x. split; [set_solver|by right].
    + intros (e & [He|He]%elem_of_app & Hab).
      * left. left. by exists e.
      * apply list_elem_of_singleton in He as ->. naive_solver.
Qed.

(** A route over the tree's adjacency is a route of the graph. *)
Lemma tree_route_graph_route g mst start dest r :
  graph_wf g → (∀ e, e ∈ mst → e ∈ all_edges (adj g)) →
  is_route (adj_get (mst_adj_of mst)) start dest r →
  is_route (graph_nbrs g) start dest r.
Proof.
  intros Hwf Hmst (Hhd & Hlast & Hseg). split; [done|]. split; [done|].
  intros a b Hab. apply Hseg, elem_of_mst_adj_of in Hab as (e & He & Hdir).
  apply Hmst in He. apply graph_nbrs_edge.
  destruct Hdir as [[<- <-]|[<- <-]].
  - exists e. split; [by apply (wf_listed g Hwf)|done].
  - destruct (wf_sym g Hwf e He) as (e' & He' & Hd). by exists e'.
Qed.

(** ** Kruskal: union-find *)

Lemma uf_inv_mono parent rank n m : uf_inv parent rank n → n ≤ m → uf_inv parent rank m.
Proof.
  intros (Ha & Hb & Hc) Hnm. split; [done|]. split; [done|].
  intros x Hx. destruct (Hc x Hx) as (r & Hr & Hle). exists r. split; [done|lia].
Qed.

Lemma uf_find_spec fuel parent rank n x rx :
  uf_inv parent rank n → is_Some (parent !! x) → rank !! x = Some rx →
  n - rx < fuel →
  ∃ parent' r, uf_find fuel parent x = Some (parent', r) ∧
    uf_inv parent' rank n ∧ parent' !! r = Some r ∧
    (∀ y, is_Some (parent' !! y) ↔ is_Some (parent !! y)) ∧
    (∀ y, parent !! y = Some y → parent' !! y = Some y) ∧
    ∃ rr, rank !! r = Some rr ∧ rx ≤ rr ∧ (r ≠ x → rx < rr).
Proof.
  revert parent x rx. induction fuel as [|f IH]; intros parent x rx Hinv Hx Hrx Hf; [lia|].
  simpl. destruct Hx as [p Hp]. rewrite Hp. simpl.
  destruct (decide (p ≠ x)) as [Hne|Heq].
  2:{ apply dec_stable in Heq as ->. exists parent, x. split; [done|].
      split; [done|]. split; [done|]. split; [done|]. split; [done|].
      exists rx. split; [done|]. split; [lia|done]. }
  pose proof Hinv as (Ha & Hb & Hc).
  destruct (Hb x p Hp Hne) as (rx' & rp & Hrx' & Hrp & Hlt).
  rewrite Hrx in Hrx'. injection Hrx' as <-.
  destruct (Hc p (Ha x p Hp)) as (rp' & Hrp' & Hle).
  rewrite Hrp in Hrp'. injection Hrp' as <-.
  destruct (IH parent p rp Hinv (Ha x p Hp) Hrp ltac:(lia))
    as (parent1 & r & Hfind & Hinv1 & Hroot & Hdom & Hroots & rr & Hrr & Hge & _).
  rewrite Hfind. simpl. exists (<[x := r]> parent1), r. split; [done|].
  assert (Hrx_ne : r ≠ x).
  { intros ->. rewrite Hrx in Hrr. injection Hrr as <-. lia. }
  destruct Hinv1 as (Ha1 & Hb1 & Hc1).
  assert (Hxdom : is_Some (parent1 !! x)) by (apply Hdom; by eexists).
  split; [split; [|split]|].
  - intros y q. rewrite lookup_insert. case_decide as Hy.
    + intros [= <-]. rewrite lookup_insert_ne by done. by eexists.
    + intros Hq. rewrite lookup_insert. case_decide; [by eexists|]. by eapply Ha1.
  - intros y q. rewrite lookup_insert. case_decide as Hy.
    + intros [= <-] _. subst y. exists rx, rr. split; [done|]. split; [done|lia].
    + apply Hb1.
  - intros y. rewrite lookup_insert. case_decide as Hy.
    + intros _. subst y. by apply Hc1.
    + apply Hc1.
  - split; [by rewrite lookup_insert_ne|]. split; [|split].
    + intros y. rewrite lookup_insert. case_decide as Hy.
      * subst y. split; intros _; by eexists.
      * apply Hdom.
    + intros y Hy. rewrite lookup_insert_ne; [by apply Hroots|].
      intros <-. rewrite Hp in Hy. by injection Hy.
    + exists rr. split; [done|]. split; [lia|]. intros _. lia.
Qed.

Lemma uf_union_spec fuel parent rank n a b :
  uf_inv parent rank n → is_Some (parent !! a) → is_Some (parent !! b) →
  n < fuel →
  ∃ parent' rank', uf_union fuel parent rank a b = Some (parent', rank') ∧
    uf_inv parent' rank' (S n) ∧
    (∀ y, is_Some (parent' !! y) ↔ is_Some (parent !! y)).
Proof.
  intros Hinv Ha Hb Hf. unfold uf_union.
  pose proof Hinv as (_ & _ & Hc).
  destruct (Hc a Ha) as (rka0 & Hrka0 & _).
  destruct (uf_find_spec fuel parent rank n a rka0 Hinv Ha Hrka0 ltac:(lia))
    as (parent1 & ra & -> & Hinv1 & Hroot1 & Hdom1 & Hroots1 & _).
  simpl. pose proof Hinv1 as (_ & _ & Hc1).
  assert (Hb1 : is_Some (parent1 !! b)) by (by apply Hdom1).
  destruct (Hc1 b Hb1) as (rkb0 & Hrkb0 & _).
  destruct (uf_find_spec fuel parent1 rank n b rkb0 Hinv1 Hb1 Hrkb0 ltac:(lia))
    as (parent2 & rb & -> & Hinv2 & Hroot2 & Hdom2 & Hroots2 & _).
  simpl.
  assert (Hdom : ∀ y, is_Some (parent2 !! y) ↔ is_Some (parent !! y)).
  { intros y. by rewrite Hdom2, Hdom1. }
  destruct (decide (ra ≠ rb)) as [Hne|_].
  2:{ eexists _, _. split; [done|]. split; [|done]. eapply uf_inv_mono; [done|lia]. }
  assert (Hra2 : parent2 !! ra = Some ra) by (by apply Hroots2).
  destruct Hinv2 as (Ha2 & Hb2 & Hc2).
  destruct (Hc2 ra ltac:(by eexists)) as (rka & Hrka & Hlea).
  destruct (Hc2 rb ltac:(by eexists)) as (rkb & Hrkb & Hleb).
  rewrite Hrka, Hrkb. simpl.
  assert (Hins : ∀ c p, is_Some (parent2 !! c) → is_Some (parent2 !! p) →
     ∀ y, is_Some (<[c := p]> parent2 !! y) ↔ is_Some (parent !! y)).
  { intros c p Hcs Hps y. rewrite <-Hdom, lookup_insert.
    case_decide; [subst; split; intros _; [done|by eexists]|done]. }
  assert (Hlink : ∀ c p rc rp, parent2 !! c = Some c → parent2 !! p = Some p →
     c ≠ p → rank !! c = Some rc → rank !! p = Some rp → rc < rp →
     uf_inv (<[c := p]> parent2) rank (S n)).
  { intros c p rc rp Hcr Hpr Hcp Hrc Hrp Hlt. split; [|split].
    - intros y q. rewrite lookup_insert. case_decide.
      + intros [= <-]. rewrite lookup_insert_ne by done. by eexists.
      + intros Hq. rewrite lookup_insert. case_decide; [by eexists|]. by eapply Ha2.
    - intros y q. rewrite lookup_insert. case_decide.
      + intros [= <-] _. subst y. eauto.
      + apply Hb2.
    - intros y. rewrite lookup_insert. case_decide.
      + intros _. subst y. exists rc. split; [done|].
        destruct (Hc2 c ltac:(by eexists)) as (rc' & Hrc' & ?).
        rewrite Hrc in Hrc'. injection Hrc' as <-. lia.
      + intros Hy. destruct (Hc2 y Hy) as (r & ? & ?). exists r. split; [done|lia]. }
  destruct (Nat.ltb_spec rka rkb) as [Hlt|Hge].
  { eexists _, _. split; [done|]. split; [by eapply Hlink|].
    apply Hins; by eexists. }
  destruct (Nat.ltb_spec rkb rka) as [Hlt|Hge'].
  { eexists _, _. split; [done|]. split; [by eapply (Hlink rb ra)|].
    apply Hins; by eexists. }
  assert (rka = rkb) as <- by lia.
  eexists _, _. split; [done|]. split; [|apply Hins; by eexists].
  split; [|split].
  - intros y q. rewrite lookup_insert. case_decide.
    + intros [= <-]. rewrite lookup_insert_ne by done. by eexists.
    + intros Hq. rewrite lookup_insert. case_decide; [by eexists|]. by eapply Ha2.
  - intros y q. rewrite lookup_insert. case_decide as Hy.
    + intros [= <-] _. subst y. exists rka, (S rka).
      rewrite lookup_insert_ne by done. rewrite lookup_insert_eq. split; [done|]. split; [done|lia].
    + intros Hq Hqy. destruct (Hb2 y q Hq Hqy) as (ry & rq & Hry & Hrq & Hlt).
      assert (y ≠ ra). { intros ->. rewrite Hra2 in Hq. by injection Hq as <-. }
      rewrite lookup_insert_ne by done. exists ry.
      rewrite lookup_insert. case_decide.
      * subst q. rewrite Hrka in Hrq. injection Hrq as <-.
        exists (S rka). split; [done|]. split; [done|lia].
      * exists rq. done.
  - intros y Hy.
    assert (Hy2 : is_Some (parent2 !! y)).
    { rewrite lookup_insert in Hy. case_decide; [subst; by eexists|done]. }
    rewrite lookup_insert. case_decide.
    + exists (S rka). split; [done|lia].
    + destruct (Hc2 y Hy2) as (r & ? & ?). exists r. split; [done|lia].
Qed.

(** ** Kruskal: the main loop *)

Lemma dedupe_subset es st e :
  e ∈ (foldl dedupe_step st es).2 → e ∈ st.2 ∨ e ∈ es.
Proof.
  revert st. induction es as [|x es IH]; intros [seen edges]; simpl; [by left|].
  intros He. apply IH in He as [He|He]; [|right; by right].
  unfold dedupe_step in He. destruct (decide (edge_key x ∈ seen)); simpl in He.
  - by left.
  - apply elem_of_app in He as [He|He]; [by left|].
    apply list_elem_of_singleton in He as ->. right. by left.
Qed.

Lemma kruskal_fold_spec fuel es parent rank mst n :
  uf_inv parent rank n → n + length es < fuel →
  (∀ e, e ∈ es → is_Some (parent !! src e) ∧ is_Some (parent !! dst e)) →
  ∃ parent' rank' mst',
    foldl (kruskal_step fuel) (Some (parent, rank, mst)) es
      = Some (parent', rank', mst') ∧
    ∀ e, e ∈ mst' → e ∈ mst ∨ e ∈ es.
Proof.
  revert parent rank mst n.
  induction es as [|e es IH]; intros parent rank mst n Hinv Hf Hes.
  { simpl. eexists _, _, _. split; [done|]. by left. }
  simpl in *. destruct (Hes e ltac:(by left)) as [Hs Hd].
  pose proof Hinv as (_ & _ & Hc).
  destruct (Hc _ Hs) as (rks & Hrks & _).
  destruct (uf_find_spec fuel parent rank n (src e) rks Hinv Hs Hrks ltac:(lia))
    as (parent1 & r1 & -> & Hinv1 & _ & Hdom1 & _).
  simpl. pose proof Hinv1 as (_ & _ & Hc1).
  assert (Hd1 : is_Some (parent1 !! dst e)) by (by apply Hdom1).
  destruct (Hc1 _ Hd1) as (rkd & Hrkd & _).
  destruct (uf_find_spec fuel parent1 rank n (dst e) rkd Hinv1 Hd1 Hrkd ltac:(lia))
    as (parent2 & r2 & -> & Hinv2 & _ & Hdom2 & _).
  simpl.
  assert (Hdom : ∀ y, is_Some (parent2 !! y) ↔ is_Some (parent !! y)).
  { intros y. by rewrite Hdom2, Hdom1. }
  destruct (decide (r1 ≠ r2)) as [Hne|_].
  - destruct (uf_union_spec fuel parent2 rank n (src e) (dst e) Hinv2)
      as (parent3 & rank3 & -> & Hinv3 & Hdom3); [by apply Hdom|by apply Hdom|lia|].
    simpl.
    destruct (IH parent3 rank3 (mst ++ [e]) (S n) Hinv3 ltac:(lia))
      as (parent' & rank' & mst' & Hfold & Hsub).
    { intros e' He'. rewrite !Hdom3, !Hdom. apply Hes. by right. }
    eexists _, _, _. split; [done|]. intros e' He'.
    destruct (Hsub e' He') as [[?|Hin]%elem_of_app|?]; [by left| |right; by right].
    apply list_elem_of_singleton in Hin as ->. right. by left.
  - destruct (IH parent2 rank mst n Hinv2 ltac:(lia))
      as (parent' & rank' & mst' & Hfold & Hsub).
    { intros e' He'. rewrite !Hdom. apply Hes. by right. }
    eexists _, _, _. split; [done|]. intros e' He'.
    destruct (Hsub e' He') as [?|?]; [by left|right; by right].
Qed.

Lemma py_sort_length {A} (le : A → A → bool) l : length (py_sort le l) = length l.
Proof.
  assert (Hins : ∀ x l, length (sort_insert le x l) = S (length l)).
  { intros x l0. induction l0 as [|y l0 IH]; simpl; [done|].
    destruct (le x y); simpl; [done|]. by rewrite IH. }
  induction l as [|x l IH]; simpl; [done|]. by rewrite Hins, IH.
Qed.

Lemma kruskal_mst_edges_spec g :
  graph_wf g →
  ∃ mst, kruskal_mst_edges g = Some mst ∧
    ∀ e, e ∈ mst → e ∈ all_edges (adj g).
Proof.
  intros Hwf. unfold kruskal_mst_edges.
  set (edges := py_sort _ _).
  assert (Hedges : ∀ e, e ∈ edges → e ∈ all_edges (adj g)).
  { intros e He. apply elem_of_py_sort in He.
    apply dedupe_subset in He as [He|He]; [by apply elem_of_nil in He|done]. }
  destruct (kruskal_fold_spec (S (length edges)) edges
              (map_imap (λ k _, Some k) (cities g)) ((λ _, 0) <$> cities g) [] 0)
    as (parent' & rank' & mst' & -> & Hsub).
  - split; [|split].
    + intros x p. rewrite map_lookup_imap. destruct (cities g !! x) eqn:Hx; [|done].
      simpl. intros [= <-]. rewrite map_lookup_imap, Hx. by eexists.
    + intros x p. rewrite map_lookup_imap. destruct (cities g !! x); [|done].
      simpl. by intros [= <-].
    + intros x. rewrite map_lookup_imap, lookup_fmap.
      destruct (cities g !! x); [|by intros []]. intros _. exists 0. done.
  - lia.
  - intros e He. apply Hedges, (wf_cities g Hwf) in He as [[cs Hs] [cd Hd]].
    rewrite !map_lookup_imap, Hs, Hd. split; by eexists.
  - simpl. eexists. split; [done|]. intros e He.
    destruct (Hsub e He) as [?|?]; [by apply elem_of_nil in H|auto].
Qed.

(** ** The two tree routes *)

Lemma tree_route_spec g mst start dest :
  graph_wf g → (∀ e, e ∈ mst → e ∈ all_edges (adj g)) →
  ∃ r, tree_path_in_adj (mst_adj_of mst) start dest = Some r ∧ NoDup r ∧
    (∀ a b, (a, b) ∈ segments r → tree_segment mst a b) ∧
    (r = [] ∨ is_route (graph_nbrs g) start dest r).
Proof.
  intros Hwf Hmst.
  destruct (tree_path_in_adj_spec (mst_adj_of mst) start dest)
    as (r & Hr & Hnd & Hroute).
  exists r. split; [done|]. split; [done|]. split.
  - destruct Hroute as [->|(_ & _ & Hseg)]; [by simpl; set_solver|].
    intros a b Hab. by apply elem_of_mst_adj_of, Hseg.
  - destruct Hroute as [->|Hroute]; [by left|]. right.
    by eapply tree_route_graph_route.
Qed.

Lemma segments_length r : length (segments r) = length r - 1.
Proof.
  induction r as [|a [|b r] IH]; [done|done|].
  change (segments (a :: b :: r)) with ((a, b) :: segments (b :: r)).
  simpl in *. rewrite IH. lia.
Qed.

(** ** Directed paths *)

Lemma foldl_cost_shift (a : Q) (f : Edge → Q) p :
  (foldl (λ t e, t + f e) a p == a + foldl (λ t e, t + f e) 0 p)%Q.
Proof.
  revert a. induction p as [|e p IH]; intros a; simpl; [lra|].
  rewrite (IH (a + f e)%Q), (IH (0 + f e)%Q). lra.
Qed.

Lemma path_cost_cons e p : (path_cost (e :: p) == real_dist e + path_cost p)%Q.
Proof. unfold path_cost. simpl. rewrite foldl_cost_shift. lra. Qed.

Lemma path_cost_snoc p e : path_cost (p ++ [e]) = (path_cost p + real_dist e)%Q.
Proof. unfold path_cost. by rewrite foldl_app. Qed.

Lemma path_cost_app p q : (path_cost (p ++ q) == path_cost p + path_cost q)%Q.
Proof.
  unfold path_cost. rewrite foldl_app. apply foldl_cost_shift.
Qed.

Lemma is_epath_app g u p w q v :
  is_epath g u p w → is_epath g w q v → is_epath g u (p ++ q) v.
Proof.
  revert u. induction p as [|e p IH]; intros u; simpl.
  - by intros ->.
  - intros (He & Hs & Hp) Hq. split; [done|]. split; [done|]. by apply IH.
Qed.

Lemma is_epath_snoc_inv g u p e v :
  is_epath g u (p ++ [e]) v →
  is_epath g u p (src e) ∧ e ∈ all_edges (adj g) ∧ dst e = v.
Proof.
  revert u. induction p as [|x p IH]; intros u; simpl.
  - intros (He & Hs & Hv). done.
  - intros (Hx & Hs & Hp). apply IH in Hp as (Hp & He & Hv). done.
Qed.

Section paths.
Variable g : Graph.
Hypothesis Hwf : graph_wf g.

Lemma edge_cost_pos e : e ∈ all_edges (adj g) → (0 < real_dist e)%Q.
Proof using Hwf. intros He. pose proof (wf_cost g Hwf e He). lra. Qed.

Lemma path_cost_nonneg u p v : is_epath g u p v → (0 <= path_cost p)%Q.
Proof using Hwf.
  revert u. induction p as [|e p IH]; intros u; [by unfold path_cost; simpl|].
  intros (He & _ & Hp). rewrite path_cost_cons.
  pose proof (edge_cost_pos e He). specialize (IH _ Hp). lra.
Qed.

Lemma path_nodes_cities u p v :
  is_Some (cities g !! u) → is_epath g u p v →
  ∀ x, x ∈ path_nodes u p → is_Some (cities g !! x).
Proof using Hwf.
  revert u. unfold path_nodes.
  induction p as [|e p IH]; intros u Hu Hp x; simpl.
  - by intros ->%list_elem_of_singleton.
  - destruct Hp as (He & Hs & Hp). intros [->|Hx]%elem_of_cons; [done|].
    apply (IH (dst e)); [|done|done]. by apply (wf_cities g Hwf).
Qed.

(** The part of a path from an intermediate location on. *)
Lemma path_suffix_at u p v x :
  is_epath g u p v → x ∈ path_nodes u p →
  ∃ p1 p2, p = p1 ++ p2 ∧ is_epath g u p1 x ∧ is_epath g x p2 v ∧
    ∃ pre, path_nodes u p = pre ++ path_nodes x p2.
Proof using Type.
  revert u. unfold path_nodes. induction p as [|e p IH]; intros u Hp Hx.
  - apply list_elem_of_singleton in Hx as ->. simpl in Hp. subst v.
    exists [], []. split; [done|]. split; [done|]. split; [done|]. by exists [].
  - apply elem_of_cons in Hx as [->|Hx].
    + exists [], (e :: p). split; [done|]. split; [done|]. split; [done|]. by exists [].
    + destruct Hp as (He & Hs & Hp).
      destruct (IH (dst e) Hp Hx) as (p1 & p2 & -> & Hp1 & Hp2 & pre & Hpre).
      exists (e :: p1), p2. split; [done|]. split; [done|]. split; [done|].
      exists (u :: pre). simpl in *. by rewrite Hpre.
Qed.

(** Cutting the cycles out of a path does not raise its cost. *)
Lemma path_shorten u p v :
  is_epath g u p v →
  ∃ p', is_epath g u p' v ∧ (path_cost p' <= path_cost p)%Q ∧
    NoDup (path_nodes u p').
Proof using Hwf.
  revert u. induction p as [|e p IH]; intros u Hp.
  { exists []. split; [done|]. split; [lra|]. apply NoDup_singleton. }
  destruct Hp as (He & Hs & Hp).
  destruct (IH _ Hp) as (p' & Hp' & Hcost & Hnd).
  destruct (decide (u ∈ path_nodes (dst e) p')) as [Hin|Hnin].
  - destruct (path_suffix_at _ _ _ _ Hp' Hin) as (p1 & p2 & -> & Hp1 & Hp2 & pre & Hpre).
    exists p2. split; [done|]. split.
    + rewrite path_cost_cons. rewrite path_cost_app in Hcost.
      pose proof (path_cost_nonneg _ _ _ Hp1). pose proof (edge_cost_pos e He). lra.
    + rewrite Hpre in Hnd. by apply NoDup_app in Hnd as (_ & _ & ?).
  - exists (e :: p'). split; [done|]. split.
    + rewrite !path_cost_cons. lra.
    + unfold path_nodes in *. simpl. by constructor.
Qed.

Lemma simple_path_length u p v :
  is_Some (cities g !! u) → is_epath g u p v → NoDup (path_nodes u p) →
  length p ≤ size (cities g) - 1.
Proof using Hwf.
  intros Hu Hp Hnd.
  assert (length (path_nodes u p) ≤ size (cities g)).
  { rewrite <-size_dom. rewrite <-(size_list_to_set (C:=gset string) _ Hnd).
    apply subseteq_size. intros x Hx%elem_of_list_to_set.
    apply elem_of_dom. by eapply path_nodes_cities. }
  unfold path_nodes in H. simpl in H. rewrite length_map in H. lia.
Qed.

Lemma reachable_epath u v :
  reachable g u v ↔ ∃ p, is_epath g u p v.
Proof using Hwf.
  split.
  - induction 1 as [x|x y z Hxy _ (p & Hp)]; [by exists []|].
    apply graph_nbrs_edge in Hxy as (e & He & Hd).
    exists (e :: p). simpl. split; [by eapply elem_of_adj_get|].
    split; [by apply (wf_src g Hwf x)|by rewrite Hd].
  - intros (p & Hp). revert u Hp. induction p as [|e p IH]; intros u Hp.
    + simpl in Hp. subst. apply rtc_refl.
    + destruct Hp as (He & Hs & Hp). eapply rtc_l; [|by apply IH].
      apply graph_nbrs_edge. exists e. split; [|done].
      rewrite <-Hs. by apply (wf_listed g Hwf).
Qed.
End paths.

(** ** Bellman-Ford: the relaxation rounds *)

Section bellman.
Variables (g : Graph) (start : string).
Hypothesis Hwf : graph_wf g.
Hypothesis Hstart : is_Some (cities g !! start).

Lemma bf_mono_refl dist : bf_mono dist dist.
Proof using Type. intros x a Ha. exists a. split; [done|lra]. Qed.

Lemma bf_mono_trans d1 d2 d3 : bf_mono d1 d2 → bf_mono d2 d3 → bf_mono d1 d3.
Proof using Type.
  intros H12 H23 x a Ha. destruct (H12 x a Ha) as (a' & Ha' & ?).
  destruct (H23 x a' Ha') as (a'' & Ha'' & ?). exists a''. split; [done|lra].
Qed.

Lemma relax_spec dist pred upd e :
  bf_inv g start dist pred → e ∈ all_edges (adj g) →
  ∃ dist' pred' upd',
    relax (Some (dist, pred, upd)) e = Some (dist', pred', upd') ∧
    bf_inv g start dist' pred' ∧ bf_mono dist dist' ∧ bf_relaxed dist dist' e ∧
    (upd' = false → dist' = dist ∧ pred' = pred ∧ upd = false ∧ bf_stable dist e).
Proof using Hwf Hstart.
  intros (D0 & P0 & D1 & D2 & D3) He.
  destruct (wf_cities g Hwf e He) as [Hs Hd].
  apply D0 in Hs as [du Hdu]. apply D0 in Hd as [dv Hdv].
  pose proof (edge_cost_pos g Hwf e He) as Hpos.
  unfold relax. simpl. rewrite Hdu, Hdv. simpl.
  assert (Hkeep : ext_add_lt du (real_dist e) dv = false →
    bf_stable dist e).
  { intros Hlt a Ha. rewrite Hdu in Ha. injection Ha as ->.
    rewrite Hdv. destruct dv as [b|]; simpl in Hlt; [|done].
    exists b. split; [done|]. by destruct (Qlt_le_dec (a + real_dist e) b). }
  destruct (ext_add_lt du (real_dist e) dv) eqn:Hlt.
  2:{ eexists _, _, _. split; [done|]. split; [done|]. split; [apply bf_mono_refl|].
      split; [by apply Hkeep|]. intros ->. auto. }
  destruct du as [a|]; [|done]. simpl.
  assert (Hb : ∀ b, dv = Some b → (a + real_dist e < b)%Q).
  { intros b ->. simpl in Hlt. by destruct (Qlt_le_dec (a + real_dist e) b). }
  destruct (D2 _ _ Hdu) as (pa & Hpa & Hca).
  pose proof (path_cost_nonneg g Hwf _ _ _ Hpa) as Hnn. rewrite Hca in Hnn.
  assert (Hne : dst e ≠ start).
  { intros Heq. rewrite Heq, D1 in Hdv. injection Hdv as <-.
    specialize (Hb 0%Q eq_refl). lra. }
  assert (Hloop : src e ≠ dst e).
  { intros Heq. rewrite Heq, Hdv in Hdu. injection Hdu as ->.
    specialize (Hb a eq_refl). lra. }
  eexists _, _, _. split; [done|].
  assert (Hmono : bf_mono dist (<[dst e := Some (a + real_dist e)%Q]> dist)).
  { intros x c Hc. rewrite lookup_insert. case_decide as Hx.
    - subst x. rewrite Hdv in Hc. injection Hc as ->.
      eexists. split; [done|]. specialize (Hb c eq_refl). lra.
    - exists c. split; [done|lra]. }
  split; [|split; [done|split; [|done]]].
  - split; [|split; [|split; [|split]]].
    + intros x. rewrite lookup_insert. case_decide; [|apply D0].
      subst x. split; [intros _|by eexists]. apply D0. by eexists.
    + intros x. rewrite lookup_insert. case_decide; [|apply P0].
      subst x. split; [intros _|by eexists]. apply D0. by eexists.
    + by rewrite lookup_insert_ne.
    + intros v d. rewrite lookup_insert. case_decide as Hv; [|apply D2].
      intros [= <-]. subst v. exists (pa ++ [e]). split.
      * eapply is_epath_app; [done|]. simpl. done.
      * by rewrite path_cost_snoc, Hca.
    + intros v d Hvs. rewrite lookup_insert. case_decide as Hv.
      * intros [= <-]. subst v. exists e, a. split; [done|]. split; [done|].
        split; [by rewrite lookup_insert_eq|].
        split; [by rewrite lookup_insert_ne|lra].
      * intros Hdist. destruct (D3 v d Hvs Hdist) as (e0 & du0 & He0 & Hd0 & Hp0 & Hs0 & Hle0).
        destruct (Hmono _ _ Hs0) as (du0' & Hs0' & Hle').
        exists e0, du0'. split; [done|]. split; [done|].
        split; [by rewrite lookup_insert_ne|]. split; [done|lra].
  - intros a0 Ha0. rewrite Hdu in Ha0. injection Ha0 as <-.
    exists (a + real_dist e)%Q. split; [by rewrite lookup_insert_eq|lra].
Qed.

Lemma relax_fold_None es : foldl relax None es = None.
Proof using Type. by induction es. Qed.

Lemma relax_fold_updated es d p u d' p' :
  foldl relax (Some (d, p, u)) es = Some (d', p', false) → u = false.
Proof using Type.
  revert d p u. induction es as [|x es IH]; intros d p u; simpl.
  { by intros [= _ _ ->]. }
  destruct (d !! src x) as [dx|]; simpl; [|by rewrite relax_fold_None].
  destruct (d !! dst x) as [dy|]; simpl; [|by rewrite relax_fold_None].
  destruct (ext_add_lt dx (real_dist x) dy).
  - intros H. by apply IH in H.
  - apply IH.
Qed.

Lemma pass_spec es dist pred upd :
  bf_inv g start dist pred → (∀ e, e ∈ es → e ∈ all_edges (adj g)) →
  ∃ dist' pred' upd',
    foldl relax (Some (dist, pred, upd)) es = Some (dist', pred', upd') ∧
    bf_inv g start dist' pred' ∧ bf_mono dist dist' ∧
    (∀ e, e ∈ es → bf_relaxed dist dist' e) ∧
    (upd' = false →
       dist' = dist ∧ pred' = pred ∧ ∀ e, e ∈ es → bf_stable dist e).
Proof using Hwf Hstart.
  revert dist pred upd. induction es as [|e es IH]; intros dist pred upd Hinv Hes.
  { simpl. eexists _, _, _. split; [done|]. split; [done|].
    split; [apply bf_mono_refl|]. split; [by intros ? ?%elem_of_nil|].
    intros _. split; [done|]. split; [done|]. by intros ? ?%elem_of_nil. }
  simpl.
  destruct (relax_spec dist pred upd e Hinv ltac:(apply Hes; by left))
    as (dist1 & pred1 & upd1 & Hrel & Hinv1 & Hmono1 & Hrelaxed1 & Hupd1).
  simpl in Hrel. simpl. rewrite Hrel.
  destruct (IH dist1 pred1 upd1 Hinv1 ltac:(intros ? ?; apply Hes; by right))
    as (dist' & pred' & upd' & Hfold & Hinv' & Hmono' & Hrelaxed' & Hupd').
  exists dist', pred', upd'. split; [done|]. split; [done|].
  split; [by eapply bf_mono_trans|]. split.
  - intros e' [->|He']%elem_of_cons.
    + intros a Ha. destruct (Hrelaxed1 a Ha) as (b & Hb & Hle).
      destruct (Hmono' _ _ Hb) as (b' & Hb' & Hle'). exists b'. split; [done|lra].
    + intros a Ha. destruct (Hmono1 _ _ Ha) as (a1 & Ha1 & Hle1).
      destruct (Hrelaxed' e' He' a1 Ha1) as (b & Hb & Hle). exists b. split; [done|lra].
  - intros Hf. destruct (Hupd' Hf) as (-> & -> & Hstable).
    assert (upd1 = false) as Hu1 by (subst upd'; by eapply relax_fold_updated).
    destruct (Hupd1 Hu1) as (-> & -> & _ & Hst). split; [done|]. split; [done|].
    intros e' [->|He']%elem_of_cons; auto.
Qed.
End bellman.

(** ** Bellman-Ford: the distances computed *)

Section bellman_dist.
Variables (g : Graph) (start : string).
Hypothesis Hwf : graph_wf g.
Hypothesis Hstart : is_Some (cities g !! start).

Lemma bf_bound_mono k dist dist' :
  bf_bound g start k dist → bf_mono dist dist' → bf_bound g start k dist'.
Proof using Type.
  intros Hb Hm v p Hp Hlen. destruct (Hb v p Hp Hlen) as (d & Hd & Hle).
  destruct (Hm _ _ Hd) as (d' & Hd' & Hle'). exists d'. split; [done|lra].
Qed.

Lemma bf_bound_step k dist dist' :
  bf_bound g start k dist → bf_mono dist dist' →
  (∀ e, e ∈ all_edges (adj g) → bf_relaxed dist dist' e) →
  bf_bound g start (S k) dist'.
Proof using Type.
  intros Hb Hm Hrel v p Hp Hlen.
  destruct p as [|x p'] using rev_ind.
  { apply (bf_bound_mono k dist); [done|done|done|simpl; lia]. }
  clear IHp'. apply is_epath_snoc_inv in Hp as (Hp & Hx & <-).
  rewrite length_app in Hlen. simpl in Hlen.
  destruct (Hb _ _ Hp ltac:(lia)) as (a & Ha & Hle).
  destruct (Hrel x Hx a Ha) as (b & Hb' & Hle').
  exists b. split; [done|]. rewrite path_cost_snoc. lra.
Qed.

Lemma bf_bound_stable dist :
  dist !! start = Some (Some 0%Q) →
  (∀ e, e ∈ all_edges (adj g) → bf_stable dist e) →
  ∀ k, bf_bound g start k dist.
Proof using Type.
  intros D1 Hst k v p Hp _. clear k. revert v Hp.
  induction p as [|x p IH] using rev_ind; intros v Hp.
  { simpl in Hp. subst v. exists 0%Q. split; [done|]. unfold path_cost. simpl. lra. }
  apply is_epath_snoc_inv in Hp as (Hp & Hx & <-).
  destruct (IH _ Hp) as (a & Ha & Hle).
  destruct (Hst x Hx a Ha) as (b & Hb & Hle').
  exists b. split; [done|]. rewrite path_cost_snoc. lra.
Qed.

Lemma bf_rounds_spec n dist pred k :
  bf_inv g start dist pred → bf_bound g start k dist →
  ∃ dist' pred',
    bf_rounds n (all_edges (adj g)) dist pred = Some (dist', pred') ∧
    bf_inv g start dist' pred' ∧ bf_bound g start (k + n) dist'.
Proof using Hwf Hstart.
  revert dist pred k. induction n as [|n IH]; intros dist pred k Hinv Hb.
  { simpl. exists dist, pred. split; [done|]. split; [done|].
    by replace (k + 0) with k by lia. }
  simpl.
  destruct (pass_spec g start Hwf Hstart (all_edges (adj g)) dist pred false Hinv)
    as (dist1 & pred1 & upd & -> & Hinv1 & Hmono & Hrel & Hupd); [done|].
  simpl. destruct upd.
  - destruct (IH dist1 pred1 (S k) Hinv1) as (dist' & pred' & Hr & Hinv' & Hb').
    { by eapply bf_bound_step. }
    exists dist', pred'. split; [done|]. split; [done|].
    by replace (k + S n) with (S k + n) by lia.
  - destruct (Hupd eq_refl) as (-> & -> & Hst).
    exists dist, pred. split; [done|]. split; [done|].
    apply bf_bound_stable; [|done]. by destruct Hinv as (_ & _ & ? & _).
Qed.

(** The result of [bellman_ford]: the invariant holds, and the distance of
    every node is at most the cost of any path to it. *)
Lemma bellman_ford_spec :
  ∃ dist pred, bellman_ford g start = Some (dist, pred) ∧
    bf_inv g start dist pred ∧
    ∀ v p, is_epath g start p v →
      ∃ d, dist !! v = Some (Some d) ∧ (d <= path_cost p)%Q.
Proof using Hwf Hstart.
  unfold bellman_ford. destruct Hstart as [c Hc]. rewrite Hc.
  destruct (bf_rounds_spec (size (cities g) - 1)
              (<[start := Some 0%Q]> ((λ _, None) <$> cities g))
              ((λ _, None) <$> cities g) 0)
    as (dist & pred & Hr & Hinv & Hb).
  - split; [|split; [|split; [|split]]].
    + intros x. rewrite lookup_insert, lookup_fmap. case_decide.
      * subst x. rewrite Hc. split; by eexists.
      * destruct (cities g !! x); simpl; split; intros []; try done; by eexists.
    + intros x. rewrite lookup_fmap.
      destruct (cities g !! x); simpl; split; intros []; try done; by eexists.
    + by rewrite lookup_insert_eq.
    + intros v d. rewrite lookup_insert, lookup_fmap. case_decide.
      * intros [= <-]. subst v. by exists [].
      * by destruct (cities g !! v).
    + intros v d Hv. rewrite lookup_insert_ne, lookup_fmap by done.
      by destruct (cities g !! v).
  - intros v p Hp Hlen. destruct p; [|simpl in Hlen; lia].
    simpl in Hp. subst v. exists 0%Q. rewrite lookup_insert_eq.
    split; [done|]. unfold path_cost. simpl. lra.
  - exists dist, pred. split; [done|]. split; [done|].
    intros v p Hp.
    destruct (path_shorten g Hwf _ _ _ Hp) as (p' & Hp' & Hcost & Hnd).
    destruct (Hb v p' Hp') as (d & Hd & Hle).
    { simpl. eapply simple_path_length; eauto. }
    exists d. split; [done|lra].
Qed.
End bellman_dist.

(** ** Bellman-Ford: the route *)

Lemma chain_start_inv nbrs parent start p :
  chain nbrs parent start start p → p = [start].
Proof. by inversion 1. Qed.

Lemma reconstruct_chain_eq nbrs parent start dest p :
  is_Some (parent !! dest) →
  chain nbrs parent start dest p → NoDup p → (∀ x, x ∈ p → x ∈ dom parent) →
  reconstruct parent start dest = Some (rev p).
Proof.
  intros Hdest Hc Hnd Hdom. unfold reconstruct.
  destruct (decide (dest = start)) as [->|Hne].
  { by apply chain_start_inv in Hc as ->. }
  destruct Hdest as [o ->].
  assert (Hlen : length p ≤ S (size parent)).
  { rewrite <-size_dom. rewrite <-(size_list_to_set (C:=gset string) p) by done.
    etrans; [|apply Nat.le_succ_diag_r]. apply subseteq_size.
    intros x Hx%elem_of_list_to_set. by apply Hdom. }
  rewrite (chain_walk _ _ _ _ _ _ Hc Hlen). simpl.
  destruct (chain_last _ _ _ _ _ Hc) as (p' & Hp & Hhd).
  rewrite Hp, rev_app_distr. simpl. by rewrite decide_True.
Qed.

Lemma find_dst_elem es e :
  e ∈ es → ∃ e', find_dst es (dst e) = Some e' ∧ e' ∈ es ∧ dst e' = dst e.
Proof.
  induction es as [|x es IH]; [by intros ?%elem_of_nil|].
  intros He. simpl. destruct (decide (dst x = dst e)) as [Hx|Hx].
  - exists x. split; [done|]. split; [by left|done].
  - apply elem_of_cons in He as [->|He]; [done|].
    destruct (IH He) as (e' & ? & ? & ?). exists e'. split; [done|]. split; [by right|done].
Qed.

Section bellman_route.
Variables (g : Graph) (start : string).
Hypothesis Hwf : graph_wf g.
Hypothesis Hstart : is_Some (cities g !! start).

Lemma segments_path_nodes u q v :
  is_epath g u q v → segments (path_nodes u q) = map (λ e, (src e, dst e)) q.
Proof using Type.
  revert u. unfold path_nodes. induction q as [|e q IH]; intros u; [done|].
  intros (He & <- & Hq). simpl map.
  change (segments (src e :: dst e :: map dst q))
    with ((src e, dst e) :: segments (dst e :: map dst q)).
  by rewrite (IH _ Hq).
Qed.

Lemma edge_dist_no_parallel e :
  no_parallel g → e ∈ all_edges (adj g) → edge_dist g (src e) (dst e) = real_dist e.
Proof using Hwf.
  intros Hnp He. unfold edge_dist.
  destruct (find_dst_elem (adj_get (adj g) (src e)) e) as (e' & -> & He' & Hd).
  { by apply (wf_listed g Hwf). }
  f_equal. apply Hnp; [by eapply elem_of_adj_get|done| |done].
  by apply (wf_src g Hwf (src e)).
Qed.

Lemma path_distance_no_parallel u q v :
  no_parallel g → is_epath g u q v →
  path_distance g (path_nodes u q) = path_cost q.
Proof using Hwf.
  intros Hnp Hq. unfold path_distance, path_cost.
  rewrite (segments_path_nodes _ _ _ Hq).
  assert (Hall : ∀ e, e ∈ q → e ∈ all_edges (adj g)).
  { clear -Hq. revert u Hq. induction q as [|x q IH]; intros u Hq e He; [by apply elem_of_nil in He|].
    destruct Hq as (Hx & _ & Hq). apply elem_of_cons in He as [->|He]; eauto. }
  clear Hq. generalize 0%Q. induction q as [|e q IH]; intros a; [done|].
  simpl. rewrite edge_dist_no_parallel; [|done|apply Hall; by left].
  apply IH. intros e' He'. apply Hall. by right.
Qed.

Variables (dist : gmap string ext) (pred : gmap string (option string)).
Hypothesis Hinv : bf_inv g start dist pred.

Lemma bf_dist_nonneg v d : dist !! v = Some (Some d) → (0 <= d)%Q.
Proof using Hwf Hinv.
  intros Hd. destruct Hinv as (_ & _ & _ & D2 & _).
  destruct (D2 v d Hd) as (p & Hp & <-). by eapply path_cost_nonneg.
Qed.

(** Following [pred] from a node with a finite distance leads to [start]:
    the distances decrease strictly, so no node comes twice, and the nodes
    [seen] so far bound the number of steps left. *)
Lemma pred_chain k (seen : list string) v d :
  dist !! v = Some (Some d) →
  NoDup seen →
  (∀ x, x ∈ seen → ∃ dx, dist !! x = Some (Some dx) ∧ (d < dx)%Q) →
  size (cities g) ≤ length seen + k →
  ∃ p q, chain (graph_nbrs g) pred start v p ∧ NoDup p ∧
    (∀ x, x ∈ p → ∃ dx, dist !! x = Some (Some dx) ∧ (dx <= d)%Q) ∧
    is_epath g start q v ∧ path_nodes start q = rev p ∧
    (path_cost q <= d)%Q.
Proof using Hwf Hinv.
  revert seen v d. induction k as [|k IH]; intros seen v d Hd Hnd Hseen Hsize.
  all: destruct (decide (v = start)) as [->|Hne];
    [ exists [start], []; split; [constructor|]; split; [apply NoDup_singleton|];
      split; [intros x ->%list_elem_of_singleton; exists d; split; [done|lra]|];
      split; [done|]; split; [done|];
      unfold path_cost; simpl; by eapply bf_dist_nonneg | ].
  - exfalso.
    assert (Hv : v ∉ seen).
    { intros Hin. destruct (Hseen v Hin) as (dx & Hdx & Hlt).
      rewrite Hd in Hdx. injection Hdx as <-. lra. }
    assert (length (v :: seen) ≤ size (cities g)).
    { rewrite <-size_dom.
      rewrite <-(size_list_to_set (C:=gset string) (v :: seen)) by (by constructor).
      apply subseteq_size. intros x Hx%elem_of_list_to_set.
      destruct Hinv as (D0 & _). apply elem_of_dom, D0.
      apply elem_of_cons in Hx as [->|Hx]; [by eexists|].
      destruct (Hseen x Hx) as (dx & Hdx & _). by eexists. }
    simpl in *. lia.
  - pose proof Hinv as (D0 & P0 & D1 & D2 & D3).
    destruct (D3 v d Hne Hd) as (e & du & He & Hdst & Hpred & Hdu & Hle).
    pose proof (edge_cost_pos g Hwf e He) as Hpos.
    assert (Hv : v ∉ seen).
    { intros Hin. destruct (Hseen v Hin) as (dx & Hdx & Hlt).
      rewrite Hd in Hdx. injection Hdx as <-. lra. }
    destruct (IH (v :: seen) (src e) du Hdu) as (p & q & Hc & Hndp & Hp & Hq & Hnodes & Hcost).
    + by constructor.
    + intros x [->|Hx]%elem_of_cons.
      * exists d. split; [done|lra].
      * destruct (Hseen x Hx) as (dx & Hdx & Hlt). exists dx. split; [done|lra].
    + simpl. lia.
    + exists (v :: p), (q ++ [e]). split; [|split; [|split; [|split; [|split]]]].
      * eapply chain_step; [done|done| |done].
        apply graph_nbrs_edge. exists e. split; [by apply (wf_listed g Hwf)|done].
      * constructor; [|done]. intros Hin. destruct (Hp v Hin) as (dx & Hdx & Hlt).
        rewrite Hd in Hdx. injection Hdx as <-. lra.
      * intros x [->|Hx]%elem_of_cons.
        -- exists d. split; [done|lra].
        -- destruct (Hp x Hx) as (dx & Hdx & Hlt). exists dx. split; [done|lra].
      * eapply is_epath_app; [done|]. simpl. done.
      * unfold path_nodes in *. rewrite map_app. simpl.
        rewrite <-Hnodes, Hdst. done.
      * rewrite path_cost_snoc. lra.
Qed.
End bellman_route.

Lemma chain_is_route nbrs parent start v p :
  chain nbrs parent start v p → is_route nbrs start v (rev p).
Proof.
  intros Hc. destruct (chain_last _ _ _ _ _ Hc) as (p' & Hp & Hhd).
  split; [by rewrite Hp, rev_app_distr|]. split.
  - destruct p as [|x p0]; [done|]. simpl in Hhd. injection Hhd as ->.
    simpl. by rewrite last_snoc.
  - by eapply chain_segments.
Qed.

(** What [bellman_path] returns between two cities of a well-formed graph. *)
Lemma bellman_path_spec g start dest :
  graph_wf g → is_Some (cities g !! start) → is_Some (cities g !! dest) →
  ∃ r, bellman_path g start dest = Some r ∧ NoDup r ∧
    (r = [] ↔ ¬ reachable g start dest) ∧
    (r ≠ [] →
       is_route (graph_nbrs g) start dest r ∧
       ∃ q, is_epath g start q dest ∧ path_nodes start q = r ∧
         (∀ q', is_epath g start q' dest → (path_cost q <= path_cost q')%Q) ∧
         (no_parallel g → path_distance g r = path_cost q)).
Proof.
  intros Hwf Hstart Hdest.
  destruct (bellman_ford_spec g start Hwf Hstart) as (dist & pred & Hbf & Hinv & Hopt).
  unfold bellman_path. rewrite Hbf. simpl.
  pose proof Hinv as (D0 & P0 & _).
  destruct (proj2 (D0 dest) Hdest) as [od Hod]. rewrite Hod. simpl.
  destruct od as [d|].
  - destruct (pred_chain g start Hwf dist pred Hinv (size (cities g)) [] dest d Hod)
      as (p & q & Hc & Hnd & Hp & Hq & Hnodes & Hcost).
    { constructor. } { by intros x ?%elem_of_nil. } { simpl. lia. }
    rewrite (reconstruct_chain_eq (graph_nbrs g) pred start dest p).
    + exists (rev p). split; [done|]. split; [by rewrite <-Permutation_rev|].
      assert (Hne : rev p ≠ []) by (by rewrite <-Hnodes).
      split.
      * split; [done|]. intros Hnr. exfalso. apply Hnr.
        apply (reachable_epath g Hwf). by exists q.
      * intros _. split; [by eapply chain_is_route|].
        exists q. split; [done|]. split; [done|]. split.
        -- intros q' Hq'. destruct (Hopt _ _ Hq') as (d' & Hd' & Hle).
           rewrite Hod in Hd'. injection Hd' as <-. lra.
        -- intros Hnp. rewrite <-Hnodes.
           by apply (path_distance_no_parallel g Hwf start q dest).
    + by apply P0.
    + done.
    + done.
    + intros x Hx. destruct (Hp x Hx) as (dx & Hdx & _).
      apply elem_of_dom, P0, D0. by eexists.
  - exists []. split; [done|]. split; [constructor|]. split; [|done].
    split; [|done]. intros _ (p & Hp)%(reachable_epath g Hwf).
    destruct (Hopt _ _ Hp) as (d & Hd & _). congruence.
Qed.

(** C2 (as amended).  Between two cities of a graph the program has built,
    [bellman_path] returns the empty route exactly when no directed path
    leads from the start to the destination; otherwise it returns the
    locations of a directed path from the start to the destination whose
    summed edge costs are minimal among all directed paths; and when no
    ordered pair of locations is joined by more than one edge, that sum is
    the [path_distance] of the route. *)
Theorem bellman_path_shortest (g : Graph) (start dest : string) :
  built g → is_Some (cities g !! start) → is_Some (cities g !! dest) →
  ∃ r, bellman_path g start dest = Some r ∧
    (r = [] ↔ ¬ reachable g start dest) ∧
    (r ≠ [] →
       is_route (graph_nbrs g) start dest r ∧
       ∃ q, is_epath g start q dest ∧ path_nodes start q = r ∧
         (∀ q', is_epath g start q' dest → (path_cost q <= path_cost q')%Q) ∧
         (no_parallel g → path_distance g r = path_cost q)).
Proof.
  intros Hb Hs Hd.
  destruct (bellman_path_spec g start dest (built_wf g Hb) Hs Hd)
    as (r & Hr & _ & Hempty & Hroute).
  by exists r.
Qed.

Lemma bellman_path_shortest_witness :
  let g := add_bidir_edge
             (add_c (add_c Graph_init (mkCity "A" "a" "s" (Some 0%Q)))
                    (mkCity "B" "b" "s" (Some 0%Q))) "A" "B" 10 in
  ∃ r, bellman_path g "A" "B" = Some r ∧
    (r = [] ↔ ¬ reachable g "A" "B") ∧
    (r ≠ [] →
       is_route (graph_nbrs g) "A" "B" r ∧
       ∃ q, is_epath g "A" q "B" ∧ path_nodes "A" q = r ∧
         (∀ q', is_epath g "A" q' "B" → (path_cost q <= path_cost q')%Q) ∧
         (no_parallel g → path_distance g r = path_cost q)).
Proof.
  intros g. apply (bellman_path_shortest g "A" "B").
  - unfold g. repeat constructor.
  - eexists. vm_compute. reflexivity.
  - eexists. vm_compute. reflexivity.
Defined.

(** C2, counterexample.  Two connections A-B, of map distance 10 and then 5:
    [bellman_path] returns [A; B], whose [path_distance] is read from the
    first connection, 10, while the second connection is a directed path of
    cost 5. *)
Lemma bellman_path_parallel_edges :
  let g := add_bidir_edge
             (add_bidir_edge
                (add_c (add_c Graph_init (mkCity "A" "a" "s" (Some 0%Q)))
                       (mkCity "B" "b" "s" (Some 0%Q))) "A" "B" 10)
             "A" "B" 5 in
  built g ∧ bellman_path g "A" "B" = Some ["A"; "B"] ∧
  ∃ q, is_epath g "A" q "B" ∧ (path_cost q < path_distance g ["A"; "B"])%Q.
Proof.
  intros g. split; [unfold g; repeat constructor|].
  split; [vm_compute; reflexivity|].
  exists [mkEdge "A" "B" 5 (4023350 # 804670)]. split.
  - simpl. split; [|done]. vm_compute. right. left.
  - vm_compute. reflexivity.
Qed.

(** ** The routes of the five algorithms *)

Lemma prim_path_spec g start dest :
  graph_wf g →
  ∃ mst r, prim_mst_edges g start = Some mst ∧
    prim_path g start dest = Some r ∧ NoDup r ∧
    (∀ a b, (a, b) ∈ segments r → tree_segment mst a b) ∧
    (∀ e, e ∈ mst → e ∈ all_edges (adj g)) ∧
    (r = [] ∨ is_route (graph_nbrs g) start dest r).
Proof.
  intros Hwf. destruct (prim_mst_edges_spec g start) as (mst & Hmst & Hsub).
  destruct (tree_route_spec g mst start dest Hwf Hsub) as (r & Hr & Hnd & Hseg & Hroute).
  exists mst, r. unfold prim_path. rewrite Hmst. simpl. done.
Qed.

Lemma kruskal_path_spec g start dest :
  graph_wf g →
  ∃ mst r, kruskal_mst_edges g = Some mst ∧
    kruskal_path g start dest = Some r ∧ NoDup r ∧
    (∀ a b, (a, b) ∈ segments r → tree_segment mst a b) ∧
    (∀ e, e ∈ mst → e ∈ all_edges (adj g)) ∧
    (r = [] ∨ is_route (graph_nbrs g) start dest r).
Proof.
  intros Hwf. destruct (kruskal_mst_edges_spec g Hwf) as (mst & Hmst & Hsub).
  destruct (tree_route_spec g mst start dest Hwf Hsub) as (r & Hr & Hnd & Hseg & Hroute).
  exists mst, r. unfold kruskal_path. rewrite Hmst. simpl. done.
Qed.

Lemma bellman_path_total g start dest :
  graph_wf g →
  ∃ r, bellman_path g start dest = Some r ∧ NoDup r ∧
    (r = [] ∨ is_route (graph_nbrs g) start dest r).
Proof.
  intros Hwf.
  destruct (cities g !! start) as [cs|] eqn:Hs.
  2:{ exists []. unfold bellman_path, bellman_ford. rewrite Hs. simpl.
      rewrite lookup_fmap. split; [|split; [constructor|by left]].
      by destruct (cities g !! dest). }
  destruct (cities g !! dest) as [cd|] eqn:Hd.
  2:{ destruct (bellman_ford_spec g start Hwf) as (dist & pred & Hbf & Hinv & _);
        [by eexists|].
      exists []. unfold bellman_path. rewrite Hbf. simpl.
      destruct Hinv as (D0 & _).
      destruct (dist !! dest) as [od|] eqn:Hod.
      { assert (is_Some (cities g !! dest)) as [? ?] by (apply D0; by eexists). congruence. }
      simpl. split; [done|]. split; [constructor|by left]. }
  destruct (bellman_path_spec g start dest Hwf) as (r & Hr & Hnd & _ & Hroute);
    [by eexists|by eexists|].
  exists r. split; [done|]. split; [done|].
  destruct r as [|x r]; [by left|]. right. by apply Hroute.
Qed.

(** On every graph the program has built, whether connected or not, the
    routes of [prim_path] and [kruskal_path] hold no location twice, have one
    segment fewer than stops, and every segment runs along an edge of the
    tree the strategy has built. *)
Lemma tree_routes_general (g : Graph) (start dest : string) :
  built g →
  (∃ mst r, prim_mst_edges g start = Some mst ∧
     prim_path g start dest = Some r ∧ NoDup r ∧
     length (segments r) = length r - 1 ∧
     ∀ a b, (a, b) ∈ segments r → tree_segment mst a b) ∧
  (∃ mst r, kruskal_mst_edges g = Some mst ∧
     kruskal_path g start dest = Some r ∧ NoDup r ∧
     length (segments r) = length r - 1 ∧
     ∀ a b, (a, b) ∈ segments r → tree_segment mst a b).
Proof.
  intros Hwf%built_wf. split.
  - destruct (prim_path_spec g start dest Hwf) as (mst & r & ? & ? & ? & ? & _).
    exists mst, r. auto using segments_length.
  - destruct (kruskal_path_spec g start dest Hwf) as (mst & r & ? & ? & ? & ? & _).
    exists mst, r. auto using segments_length.
Qed.

Example tree_routes_example :
  let g := add_bidir_edge
             (add_bidir_edge
                (add_c (add_c (add_c Graph_init (mkCity "A" "a" "s" (Some 0%Q)))
                              (mkCity "B" "b" "s" (Some 100%Q)))
                       (mkCity "C" "c" "s" (Some 50%Q)))
                "A" "B" 10)
             "B" "C" 5 in
  prim_path g "A" "C" = Some ["A"; "B"; "C"] ∧
  kruskal_path g "A" "C" = Some ["A"; "B"; "C"].
Proof. split; vm_compute; reflexivity. Qed.

(** ** Prim: which frontier edge is taken *)

(** C8 (as amended).  A pass of Prim's loop pops from the frontier an item
    [(d, u, v)] that is least in the order of the tuples
    [(real_dist, src, dst)]: no item of the frontier costs less, and among
    the items of equal cost none has a smaller [(src, dst)] pair in the order
    of strings; when [v] is unvisited, it is this edge's endpoint that is
    added to the tree. *)
Theorem prim_pops_least_tuple (g : Graph) (f : nat) (pq : list heap_item)
    (visited : gset string) (mst : list Edge) :
  pq ≠ [] → size visited < size (cities g) →
  ∃ d u v pq1, heappop pq = Some ((d, u, v), pq1) ∧ pq ≡ₚ (d, u, v) :: pq1 ∧
    (∀ d' u' v', (d', u', v') ∈ pq →
       (d <= d')%Q ∧
       ((d' == d)%Q →
          String.compare u u' = Lt ∨ (u = u' ∧ String.compare v v' ≠ Gt))) ∧
    prim_loop (S f) g pq visited mst =
      if decide (v ∈ visited) then prim_loop f g pq1 visited mst
      else prim_loop f g
             (foldl (prim_push ({[v]} ∪ visited)) pq1 (adj_get (adj g) v))
             ({[v]} ∪ visited)
             (match find_dst (adj_get (adj g) u) v with
              | Some e => mst ++ [e]
              | None => mst
              end).
Proof.
  intros Hpq Hsize.
  pose proof (heappop_spec pq) as Hpop.
  destruct (heappop pq) as [[[[d u] v] pq1]|] eqn:Hh; [|done].
  destruct Hpop as [Hperm Hmin].
  exists d, u, v, pq1. split; [done|]. split; [done|]. split.
  - intros d' u' v' Hin. specialize (Hmin _ Hin).
    unfold item_cmp, lex in Hmin. simpl in Hmin.
    destruct (Qcompare d d') eqn:Hq.
    + apply Qeq_alt in Hq. split; [lra|]. intros _.
      destruct (String.compare u u') eqn:Hs; [|by left|done].
      apply String.compare_eq_iff in Hs as ->. by right.
    + apply Qlt_alt in Hq. split; [lra|]. intros Heq. lra.
    + done.
  - simpl. destruct pq as [|x pq']; [done|].
    apply Nat.ltb_lt in Hsize. rewrite Hsize. by rewrite Hh.
Qed.

Lemma prim_pops_least_tuple_witness :
  let g := add_c (add_c Graph_init (mkCity "S" "s" "x" (Some 0%Q)))
                 (mkCity "A" "a" "x" (Some 0%Q)) in
  let pq : list heap_item := [(1%Q, "S", "B"); (1%Q, "S", "A")] in
  ∃ d u v pq1, heappop pq = Some ((d, u, v), pq1) ∧ pq ≡ₚ (d, u, v) :: pq1 ∧
    (∀ d' u' v', (d', u', v') ∈ pq →
       (d <= d')%Q ∧
       ((d' == d)%Q →
          String.compare u u' = Lt ∨ (u = u' ∧ String.compare v v' ≠ Gt))) ∧
    prim_loop 1 g pq {["S"]} [] =
      if decide (v ∈ ({["S"]} : gset string)) then prim_loop 0 g pq1 {["S"]} []
      else prim_loop 0 g
             (foldl (prim_push ({[v]} ∪ {["S"]})) pq1 (adj_get (adj g) v))
             ({[v]} ∪ {["S"]})
             (match find_dst (adj_get (adj g) u) v with
              | Some e => [] ++ [e]
              | None => []
              end).
Proof.
  intros g pq. apply (prim_pops_least_tuple g 0 pq {["S"]} []).
  - discriminate.
  - vm_compute. lia.
Defined.

(** C8, counterexample.  From S the edge to B is inserted before the edge to
    A, at equal cost: the frontier holds the item for B first, yet the item
    for A is popped and A's edge enters the tree first. *)
Lemma prim_tie_not_insertion_order :
  let g := add_bidir_edge
             (add_bidir_edge
                (add_c (add_c (add_c Graph_init (mkCity "S" "s" "x" (Some 0%Q)))
                              (mkCity "B" "b" "x" (Some 0%Q)))
                       (mkCity "A" "a" "x" (Some 0%Q)))
                "S" "B" 1)
             "S" "A" 1 in
  let frontier := foldl (λ pq e, heappush pq (item_of e)) [] (adj_get (adj g) "S") in
  built g ∧
  (∃ c, map (λ x, (x.1.2, x.2)) frontier = [("S", "B"); ("S", "A")] ∧
        map (λ x, x.1.1) frontier = [c; c]) ∧
  (∃ c rest, heappop frontier = Some ((c, "S", "A"), rest)) ∧
  (∃ mst, prim_mst_edges g "S" = Some mst ∧
          map (λ e, (src e, dst e)) mst = [("S", "A"); ("S", "B")]).
Proof.
  intros g frontier. split; [unfold g; repeat constructor|].
  split; [eexists; split; vm_compute; reflexivity|].
  split; [eexists _, _; vm_compute; reflexivity|].
  eexists. split; vm_compute; reflexivity.
Qed.

(** ** The route evaluator *)











(** All five algorithms succeed with the same score here: the first in the
    enumeration order, BFS, is selected. *)
Example evaluate_best_tie :
  let g := add_bidir_edge
             (add_c (add_c Graph_init (mkCity "A" "a" "s" (Some 0%Q)))
                    (mkCity "B" "b" "s" (Some 0%Q))) "A" "B" 10 in
  ∃ info, evaluate_best g WeatherRisk_init ∅ "A" "B" = Some (Best "BFS" info) ∧
    route_ids info = ["A"; "B"] ∧ (score info == 10)%Q.
Proof. eexists. split; [vm_compute; reflexivity|]. split; reflexivity. Qed.

(** ** Breadth-first search finds what can be reached *)

Lemma bfs_fold_closed u vs q vis par q2 vis2 par2 :
  foldl (bfs_visit u) (q, vis, par) vs = (q2, vis2, par2) →
  dom par = vis →
  dom par2 = vis2 ∧ vis ⊆ vis2 ∧ (∀ x, x ∈ q → x ∈ q2) ∧
  (∀ y, y ∈ vs → y ∈ vis2) ∧ (∀ x, x ∈ vis2 → x ∈ vis ∨ x ∈ q2) ∧
  (∀ x, x ∈ q2 → x ∈ q ∨ x ∈ vis2).
Proof.
  revert q vis par. induction vs as [|v vs IH]; intros q vis par; simpl.
  { intros [= <- <- <-] Hdom. repeat split; try done; set_solver. }
  destruct (decide (v ∈ vis)) as [Hv|Hv].
  - intros Hfold Hdom. destruct (IH _ _ _ Hfold Hdom) as (? & ? & ? & ? & ? & ?).
    repeat split; try done. intros y [->|Hy]%elem_of_cons; [set_solver|auto].
  - intros Hfold Hdom.
    destruct (IH _ _ _ Hfold) as (H1 & H2 & H3 & H4 & H5 & H6).
    { by rewrite dom_insert_L, Hdom. }
    split; [done|]. split; [set_solver|]. split.
    { intros x Hx. apply H3. set_solver. }
    split.
    { intros y [->|Hy]%elem_of_cons; [set_solver|auto]. }
    split.
    + intros x Hx. destruct (H5 x Hx) as [[Hxv|Hxv]%elem_of_union|?]; [|by left|by right].
      apply elem_of_singleton in Hxv as ->. right. apply H3. set_solver.
    + intros x Hx. destruct (H6 x Hx) as [[?|Hxv]%elem_of_app|?]; [by left| |by right].
      apply list_elem_of_singleton in Hxv as ->. right. set_solver.
Qed.

Section bfs_complete.
Variables (nbrs : string → list string) (start dest : string).

Lemma closed_reachable (vis : gset string) x y :
  (∀ a b, a ∈ vis → b ∈ nbrs a → b ∈ vis) →
  rtc (λ a b, b ∈ nbrs a) x y → x ∈ vis → y ∈ vis.
Proof using Type. intros Hcl. induction 1; eauto. Qed.

Lemma bfs_loop_complete fuel q vis par par' :
  bfs_loop fuel nbrs dest q vis par = Some par' →
  dom par = vis → start ∈ vis → (∀ x, x ∈ q → x ∈ vis) →
  (∀ x, x ∈ vis → x ∈ q ∨ ∀ y, y ∈ nbrs x → y ∈ vis) →
  rtc (λ a b, b ∈ nbrs a) start dest → is_Some (par' !! dest).
Proof using Type.
  revert q vis par. induction fuel as [|fuel IH]; intros q vis par; [done|].
  simpl. destruct q as [|u q].
  { intros [= <-] Hdom Hs _ Hcl Hreach. apply elem_of_dom. rewrite Hdom.
    eapply closed_reachable; [|done|done].
    intros a b Ha Hb. destruct (Hcl a Ha) as [?%elem_of_nil|Hc]; [done|auto]. }
  destruct (decide (u = dest)) as [->|Hne].
  { intros [= <-] Hdom _ Hq _ _. apply elem_of_dom. rewrite Hdom. apply Hq. by left. }
  destruct (foldl (bfs_visit u) (q, vis, par) (nbrs u)) as [[q2 vis2] par2] eqn:Hfold.
  intros Hloop Hdom Hs Hq Hcl Hreach.
  destruct (bfs_fold_closed _ _ _ _ _ _ _ _ Hfold Hdom) as (H1 & H2 & H3 & H4 & H5 & H6).
  apply (IH _ _ _ Hloop); try done.
  - set_solver.
  - intros x Hx. destruct (H6 x Hx) as [?|?]; [|done]. apply H2, Hq. by right.
  - intros x Hx. destruct (H5 x Hx) as [Hxv|?]; [|by left].
    destruct (Hcl x Hxv) as [[->|Hxq]%elem_of_cons|Hc].
    + right. done.
    + left. by apply H3.
    + right. intros y Hy. apply H2. by apply Hc.
Qed.
End bfs_complete.

Lemma tree_path_in_adj_complete tadj start dest r :
  tree_path_in_adj tadj start dest = Some r →
  rtc (λ a b, b ∈ adj_get tadj a) start dest →
  is_route (adj_get tadj) start dest r.
Proof.
  intros Hr Hreach.
  destruct (tree_path_in_adj_spec tadj start dest) as (r' & Hr' & _ & Hroute).
  rewrite Hr in Hr'. injection Hr' as <-.
  destruct Hroute as [->|?]; [|done]. exfalso.
  unfold tree_path_in_adj in Hr.
  destruct (bfs_loop _ _ _ _ _ _) as [par'|] eqn:Hloop; [|done]. simpl in Hr.
  assert (Hdest : is_Some (par' !! dest)).
  { apply (bfs_loop_complete (adj_get tadj) start dest _ [start] {[start]}
             {[start := None]} par' Hloop).
    - by rewrite dom_singleton_L.
    - set_solver.
    - set_solver.
    - intros x ->%elem_of_singleton. left. by left.
    - done. }
  unfold reconstruct in Hr. destruct (decide (dest = start)); [done|].
  destruct Hdest as [o Ho]. rewrite Ho in Hr.
  destruct (reconstruct_walk _ _ _ _) as [path|] eqn:Hw; [|done]. simpl in Hr.
  (* the walk from [dest] starts with [dest], so the reversed path is a route *)
  destruct (bfs_loop_spec (adj_get tadj) start dest (list_to_set (all_edges tadj))
              ltac:(intros u v Hv; apply elem_of_list_to_set; by eapply elem_of_adj_get)
              (2 + length (all_edges tadj)) [start] {[start]} {[start := None]})
    as (par'' & Hloop' & Hch).
  { split; [set_solver|]. split; [by rewrite dom_singleton_L|].
    split; [set_solver|]. intros v ->%elem_of_singleton.
    exists [start]. split; [constructor|]. split; [apply NoDup_singleton|set_solver]. }
  { pose proof (size_list_to_set_le (all_edges tadj)).
    assert (size (list_to_set (C := gset string) (all_edges tadj) ∖ {[start]})
            ≤ size (list_to_set (C := gset string) (all_edges tadj)))
      by (apply subseteq_size; set_solver).
    simpl. lia. }
  pose proof (eq_trans (eq_sym Hloop') Hloop) as Heq. injection Heq as ->.
  destruct (Hch dest ltac:(by eexists)) as (p & Hc & Hnd & Hdom).
  assert (Hrec := reconstruct_chain_eq (adj_get tadj) par' start dest p
                    ltac:(by eexists) Hc Hnd Hdom).
  unfold reconstruct in Hrec. rewrite decide_False in Hrec by done.
  rewrite Ho, Hw in Hrec. simpl in Hrec. rewrite Hr in Hrec.
  destruct (chain_last _ _ _ _ _ Hc) as (p' & -> & _).
  rewrite rev_app_distr in Hrec. done.
Qed.

(** ** Prim's tree spans what can be reached *)

Lemma tree_segment_snoc mst e a b :
  tree_segment mst a b → tree_segment (mst ++ [e]) a b.
Proof. intros (x & Hx & Hab). exists x. split; [set_solver|done]. Qed.

Lemma tree_conn_snoc mst e a b : tree_conn mst a b → tree_conn (mst ++ [e]) a b.
Proof.
  unfold tree_conn. induction 1 as [|x y z Hxy _ IH]; [apply rtc_refl|].
  eapply rtc_l; [|done]. by apply tree_segment_snoc.
Qed.

Lemma tree_conn_adj mst a b :
  tree_conn mst a b → rtc (λ x y, y ∈ adj_get (mst_adj_of mst) x) a b.
Proof.
  unfold tree_conn. induction 1 as [|x y z Hxy _ IH]; [apply rtc_refl|].
  eapply rtc_l; [|done]. by apply elem_of_mst_adj_of.
Qed.

Lemma prim_push_fold vis es pq x :
  x ∈ foldl (prim_push vis) pq es ↔
  x ∈ pq ∨ ∃ e, e ∈ es ∧ (dst e ∉ vis) ∧ x = item_of e.
Proof.
  revert pq. induction es as [|e es IH]; intros pq; simpl.
  { split; [by left|]. intros [?|(e & ?%elem_of_nil & _)]; done. }
  rewrite IH. unfold prim_push, heappush.
  destruct (decide (dst e ∈ vis)) as [Hv|Hv].
  - split.
    + intros [?|(e' & He' & ? & ?)]; [by left|]. right. exists e'. split; [by right|done].
    + intros [?|(e' & [->|He']%elem_of_cons & Hd & ?)]; [by left|done|].
      right. by exists e'.
  - rewrite elem_of_app, list_elem_of_singleton. split.
    + intros [[?| ->]|(e' & He' & ? & ?)]; [by left| |].
      * right. exists e. split; [by left|done].
      * right. exists e'. split; [by right|done].
    + intros [?|(e' & [->|He']%elem_of_cons & Hd & ->)]; [by left; left|by left; right|].
      right. by exists e'.
Qed.

Section prim_complete.
Variables (g : Graph) (start : string).
Hypothesis Hwf : graph_wf g.

Lemma reachable_cities u v :
  reachable g u v → is_Some (cities g !! u) → is_Some (cities g !! v).
Proof using Hwf.
  induction 1 as [|x y z Hxy _ IH]; [done|]. intros _. apply IH.
  apply graph_nbrs_edge in Hxy as (e & He & <-).
  eapply (wf_cities g Hwf), elem_of_adj_get, He.
Qed.

Lemma prim_loop_complete fuel pq vis mst mst' :
  prim_loop fuel g pq vis mst = Some mst' →
  prim_inv g start pq vis mst →
  ∀ d, reachable g start d → tree_conn mst' start d.
Proof using Hwf.
  revert pq vis mst. induction fuel as [|fuel IH]; intros pq vis mst; [done|].
  intros Hloop (P1 & P2 & P3 & P4 & P5). simpl in Hloop.
  destruct pq as [|x0 pq0] eqn:Hpq.
  { injection Hloop as <-. intros d Hd. apply P2.
    eapply (closed_reachable (graph_nbrs g)); [|exact Hd|done].
    intros a b Ha Hb. apply graph_nbrs_edge in Hb as (e & He & <-).
    destruct (decide (dst e ∈ vis)) as [|Hn]; [done|].
    by apply (P3 a e Ha He), elem_of_nil in Hn. }
  rewrite <-Hpq in *. clear Hpq x0 pq0.
  destruct (Nat.ltb_spec (size vis) (size (cities g))) as [Hlt|Hge].
  2:{ injection Hloop as <-. intros d Hd. apply P2.
      assert (Heq : vis = dom (cities g)).
      { apply set_subseteq_size_eq.
        - intros x Hx. by apply elem_of_dom, P5.
        - by rewrite size_dom. }
      rewrite Heq. apply elem_of_dom. eapply reachable_cities; [done|].
      by apply P5. }
  pose proof (heappop_spec pq) as Hpop.
  destruct (heappop pq) as [[[[dm u] v] pq1]|]; [|injection Hloop as <-].
  2:{ subst pq. intros d Hd. apply P2.
      eapply (closed_reachable (graph_nbrs g)); [|exact Hd|done].
      intros a b Ha Hb. apply graph_nbrs_edge in Hb as (e & He & <-).
      destruct (decide (dst e ∈ vis)) as [|Hn]; [done|].
      by apply (P3 a e Ha He), elem_of_nil in Hn. }
  destruct Hpop as [Hperm _].
  assert (Hin1 : ∀ x, x ∈ pq1 → x ∈ pq).
  { intros x Hx. rewrite Hperm. by right. }
  assert (Hm : (dm, u, v) ∈ pq) by (rewrite Hperm; by left).
  destruct (decide (v ∈ vis)) as [Hv|Hv].
  { apply (IH _ _ _ Hloop). split; [done|]. split; [done|]. split; [|split; [|done]].
    - intros a e Ha He Hd. specialize (P3 a e Ha He Hd).
      rewrite Hperm in P3. apply elem_of_cons in P3 as [Heq|?]; [|done].
      unfold item_of in Heq. injection Heq as _ _ Hdst. by rewrite Hdst in Hd.
    - intros x Hx. apply P4. by apply Hin1. }
  destruct (P4 _ Hm) as (e & Heq & He & Hsrc).
  unfold item_of in Heq. injection Heq as _ -> ->.
  destruct (find_dst_elem _ e He) as (e0 & Hfind & He0 & Hd0).
  rewrite Hfind in Hloop.
  assert (Hs0 : src e0 = src e) by (by apply (wf_src g Hwf)).
  apply (IH _ _ _ Hloop). split; [set_solver|]. split; [|split; [|split]].
  - intros x [Hx|Hx]%elem_of_union.
    + apply elem_of_singleton in Hx as ->.
      eapply rtc_r; [apply tree_conn_snoc, P2, Hsrc|].
      exists e0. split; [set_solver|]. left. done.
    + by apply tree_conn_snoc, P2.
  - intros a e' Ha He' Hd'. apply prim_push_fold.
    apply elem_of_union in Ha as [Ha|Ha].
    + apply elem_of_singleton in Ha as ->. right. by exists e'.
    + left. assert (Hd'' : dst e' ∉ vis) by set_solver.
      specialize (P3 a e' Ha He' Hd''). rewrite Hperm in P3.
      apply elem_of_cons in P3 as [Heq|?]; [|done].
      unfold item_of in Heq. injection Heq as _ _ Hdst. set_solver.
  - intros x [Hx|(e' & He' & Hd' & ->)]%prim_push_fold.
    + destruct (P4 x (Hin1 x Hx)) as (e' & ? & ? & ?). exists e'. set_solver.
    + exists e'. split; [done|].
      assert (src e' = dst e) as Hs' by (by apply (wf_src g Hwf)).
      rewrite Hs'. split; [done|set_solver].
  - intros x [Hx|Hx]%elem_of_union; [|by apply P5].
    apply elem_of_singleton in Hx as ->.
    eapply (wf_cities g Hwf), elem_of_adj_get, He.
Qed.

Lemma prim_mst_complete mst d :
  prim_mst_edges g start = Some mst → reachable g start d →
  tree_conn mst start d.
Proof using Hwf.
  unfold prim_mst_edges. destruct (cities g !! start) as [c|] eqn:Hc.
  2:{ intros [= <-] Hd. inversion Hd as [|x y z Hxy Hyz]; subst; [apply rtc_refl|].
      apply graph_nbrs_edge in Hxy as (e & He & _).
      pose proof (wf_src g Hwf _ _ He) as Hs.
      apply elem_of_adj_get, (wf_cities g Hwf) in He as [[? He] _].
      congruence. }
  intros Hloop. eapply prim_loop_complete; [exact Hloop|].
  assert (Hpq : ∀ (es : list Edge) pq x,
    x ∈ foldl (λ pq e, heappush pq (item_of e)) pq es ↔
    x ∈ pq ∨ ∃ e, e ∈ es ∧ x = item_of e).
  { induction es as [|e es IHes]; intros pq x; simpl.
    - split; [by left|]. intros [?|(e & ?%elem_of_nil & _)]; done.
    - rewrite IHes. unfold heappush. rewrite elem_of_app, list_elem_of_singleton.
      split.
      + intros [[?| ->]|(e' & ? & ?)]; [by left| |].
        * right. exists e. split; [by left|done].
        * right. exists e'. split; [by right|done].
      + intros [?|(e' & [->|?]%elem_of_cons & ->)]; [by left; left|by left; right|].
        right. by exists e'. }
  split; [set_solver|]. split; [|split; [|split]].
  - intros v ->%elem_of_singleton. apply rtc_refl.
  - intros u e ->%elem_of_singleton He _. apply Hpq. right. by exists e.
  - intros x [?%elem_of_nil|(e & He & ->)]%Hpq; [done|].
    exists e. split; [done|].
    assert (src e = start) as -> by (by apply (wf_src g Hwf)).
    split; [done|set_solver].
  - intros v ->%elem_of_singleton. by eexists.
Qed.
End prim_complete.

(** ** Kruskal's forest spans what can be reached *)

Lemma tree_segment_sym mst a b : tree_segment mst a b → tree_segment mst b a.
Proof. intros (e & He & [?|?]); exists e; auto. Qed.

Lemma tree_conn_sym mst a b : tree_conn mst a b → tree_conn mst b a.
Proof.
  unfold tree_conn. induction 1 as [|x y z Hxy _ IH]; [apply rtc_refl|].
  eapply rtc_r; [done|]. by apply tree_segment_sym.
Qed.

Lemma tree_conn_trans mst a b c :
  tree_conn mst a b → tree_conn mst b c → tree_conn mst a c.
Proof. unfold tree_conn. intros H1 H2. by etrans. Qed.

(** [find] keeps every node joined to its parent, and the root it returns is
    joined to its argument. *)
Lemma uf_find_conn (C : relation string) fuel parent x parent' r :
  (∀ a, C a a) → (∀ a b c, C a b → C b c → C a c) →
  uf_find fuel parent x = Some (parent', r) →
  (∀ y p, parent !! y = Some p → C y p) →
  (∀ y p, parent' !! y = Some p → C y p) ∧ C x r.
Proof.
  intros Hrefl Htrans. revert parent x parent' r.
  induction fuel as [|f IH]; intros parent x parent' r; [done|].
  simpl. destruct (parent !! x) as [p|] eqn:Hp; [|done]. simpl.
  destruct (decide (p ≠ x)) as [Hne|Heq].
  2:{ apply dec_stable in Heq as ->. intros [= <- <-] HJ. split; [done|]. apply Hrefl. }
  destruct (uf_find f parent p) as [[parent1 r1]|] eqn:Hfind; [|done].
  simpl. intros [= <- <-] HJ.
  destruct (IH _ _ _ _ Hfind HJ) as [HJ1 Hpr].
  assert (Hxr : C x r1) by (eapply Htrans; [by apply HJ|done]).
  split; [|done]. intros y q. rewrite lookup_insert. case_decide.
  - intros [= <-]. by subst.
  - apply HJ1.
Qed.

Lemma uf_union_conn (C C' : relation string) fuel parent rank a b parent' rank' :
  (∀ x, C x x) → (∀ x y z, C x y → C y z → C x z) →
  (∀ x y, C x y → C' x y) →
  (∀ x y, C' x y → C' y x) → (∀ x y z, C' x y → C' y z → C' x z) →
  C' a b →
  uf_union fuel parent rank a b = Some (parent', rank') →
  (∀ y p, parent !! y = Some p → C y p) →
  (∀ y p, parent' !! y = Some p → C' y p).
Proof.
  intros Hrefl Htrans Hsub Hsym' Htrans' Hab. unfold uf_union.
  destruct (uf_find fuel parent a) as [[parent1 ra]|] eqn:Hfa; [|done]. simpl.
  destruct (uf_find fuel parent1 b) as [[parent2 rb]|] eqn:Hfb; [|done]. simpl.
  intros Hunion HJ.
  destruct (uf_find_conn C _ _ _ _ _ Hrefl Htrans Hfa HJ) as [HJ1 Hara].
  destruct (uf_find_conn C _ _ _ _ _ Hrefl Htrans Hfb HJ1) as [HJ2 Hbrb].
  assert (Hrr : C' ra rb).
  { eapply Htrans'; [apply Hsym', Hsub, Hara|].
    eapply Htrans'; [exact Hab|]. by apply Hsub. }
  assert (Hlink : ∀ c p, C' c p → ∀ y q, <[c := p]> parent2 !! y = Some q → C' y q).
  { intros c p Hcp y q. rewrite lookup_insert.
    destruct (decide (c = y)) as [->|Hne].
    - by intros [= <-].
    - intros Hq. by apply Hsub, HJ2. }
  destruct (decide (ra ≠ rb)).
  2:{ injection Hunion as <- <-. intros y q Hq. by apply Hsub, HJ2. }
  destruct (rank !! ra) as [rka|]; [|done].
  destruct (rank !! rb) as [rkb|]; [|done]. simpl in Hunion.
  destruct (rka <? rkb); [injection Hunion as <- <-; by apply Hlink|].
  destruct (rkb <? rka); injection Hunion as <- <-; by apply Hlink, Hsym'.
Qed.

Lemma kruskal_fold_None fuel es : foldl (kruskal_step fuel) None es = None.
Proof. by induction es. Qed.

Lemma kruskal_fold_conn fuel es parent rank mst parent' rank' mst' :
  foldl (kruskal_step fuel) (Some (parent, rank, mst)) es
    = Some (parent', rank', mst') →
  (∀ y p, parent !! y = Some p → tree_conn mst y p) →
  (∀ e, e ∈ es → tree_conn mst' (src e) (dst e)) ∧
  (∀ a b, tree_conn mst a b → tree_conn mst' a b).
Proof.
  revert parent rank mst. induction es as [|e es IH]; intros parent rank mst.
  { simpl. intros [= <- <- <-] _. split; [by intros ? ?%elem_of_nil|done]. }
  simpl.
  destruct (uf_find fuel parent (src e)) as [[parent1 r1]|] eqn:Hf1;
    [|by rewrite kruskal_fold_None].
  simpl.
  destruct (uf_find fuel parent1 (dst e)) as [[parent2 r2]|] eqn:Hf2;
    [|by rewrite kruskal_fold_None].
  simpl. intros Hfold HJ.
  assert (Hrefl : ∀ a, tree_conn mst a a) by (intros a; apply rtc_refl).
  destruct (uf_find_conn (tree_conn mst) _ _ _ _ _ Hrefl (tree_conn_trans mst) Hf1 HJ)
    as [HJ1 Hs].
  destruct (uf_find_conn (tree_conn mst) _ _ _ _ _ Hrefl (tree_conn_trans mst) Hf2 HJ1)
    as [HJ2 Hd].
  destruct (decide (r1 ≠ r2)) as [Hne|Heq].
  - destruct (uf_union fuel parent2 rank (src e) (dst e)) as [[parent3 rank3]|] eqn:Hu;
      [|by rewrite kruskal_fold_None in Hfold].
    simpl in Hfold.
    assert (He : tree_conn (mst ++ [e]) (src e) (dst e)).
    { apply rtc_once. exists e. split; [set_solver|by left]. }
    destruct (IH _ _ _ Hfold) as [Hes Hmono].
    { eapply (uf_union_conn (tree_conn mst) (tree_conn (mst ++ [e]))); try done.
      - apply tree_conn_trans.
      - intros x y. apply tree_conn_snoc.
      - apply tree_conn_sym.
      - apply tree_conn_trans. }
    split.
    + intros e' [->|He']%elem_of_cons; [by apply Hmono|by apply Hes].
    + intros a b Hab. by apply Hmono, tree_conn_snoc.
  - apply dec_stable in Heq. subst r2.
    destruct (IH _ _ _ Hfold HJ2) as [Hes Hmono].
    split; [|done].
    intros e' [->|He']%elem_of_cons; [|by apply Hes].
    apply Hmono. eapply tree_conn_trans; [exact Hs|]. by apply tree_conn_sym.
Qed.

Lemma dedupe_covers es seen edges :
  (∀ k, k ∈ seen → ∃ e', e' ∈ edges ∧ edge_key e' = k) →
  (∀ k, k ∈ (foldl dedupe_step (seen, edges) es).1 →
     ∃ e', e' ∈ (foldl dedupe_step (seen, edges) es).2 ∧ edge_key e' = k) ∧
  (∀ k, k ∈ seen → k ∈ (foldl dedupe_step (seen, edges) es).1) ∧
  (∀ e, e ∈ es → edge_key e ∈ (foldl dedupe_step (seen, edges) es).1).
Proof.
  revert seen edges. induction es as [|e es IH]; intros seen edges Hinv.
  { simpl. split; [done|]. split; [done|]. by intros ? ?%elem_of_nil. }
  cbn [foldl].
  change (dedupe_step (seen, edges) e)
    with (if decide (edge_key e ∈ seen) then (seen, edges)
          else ({[edge_key e]} ∪ seen, edges ++ [e])).
  destruct (decide (edge_key e ∈ seen)) as [Hin|Hnin].
  - destruct (IH seen edges Hinv) as (H1 & H2 & H3).
    split; [done|]. split; [done|].
    intros e' [->|He']%elem_of_cons; [by apply H2|by apply H3].
  - destruct (IH ({[edge_key e]} ∪ seen) (edges ++ [e])) as (H1 & H2 & H3).
    { intros k [Hk|Hk]%elem_of_union.
      - apply elem_of_singleton in Hk as ->. exists e. split; [set_solver|done].
      - destruct (Hinv k Hk) as (e' & ? & ?). exists e'. split; [set_solver|done]. }
    split; [done|]. split; [intros k Hk; apply H2; set_solver|].
    intros e' [->|He']%elem_of_cons; [apply H2; set_solver|by apply H3].
Qed.

Lemma edge_key_eq e e' :
  edge_key e' = edge_key e →
  (src e' = src e ∧ dst e' = dst e) ∨ (src e' = dst e ∧ dst e' = src e).
Proof.
  unfold edge_key.
  destruct (String.ltb (dst e') (src e')), (String.ltb (dst e) (src e));
    intros [= ? ?]; auto.
Qed.

Lemma kruskal_mst_complete g mst s d :
  graph_wf g → kruskal_mst_edges g = Some mst → reachable g s d →
  tree_conn mst s d.
Proof.
  intros Hwf. unfold kruskal_mst_edges.
  set (edges := py_sort _ _).
  destruct (foldl (kruskal_step (S (length edges))) _ edges)
    as [[[parent' rank'] mst']|] eqn:Hfold; [|done].
  simpl. intros [= <-].
  destruct (kruskal_fold_conn _ _ _ _ _ _ _ _ Hfold) as [Hes _].
  { intros y p. rewrite map_lookup_imap. destruct (cities g !! y); [|done].
    simpl. intros [= <-]. apply rtc_refl. }
  assert (Hall : ∀ e, e ∈ all_edges (adj g) → tree_conn mst' (src e) (dst e)).
  { intros e He.
    destruct (dedupe_covers (all_edges (adj g)) ∅ []) as (H1 & _ & H3).
    { by intros k ?%elem_of_empty. }
    destruct (H1 _ (H3 e He)) as (e' & He' & Hkey).
    assert (He'' : e' ∈ edges) by (by apply elem_of_py_sort).
    specialize (Hes e' He'').
    apply edge_key_eq in Hkey as [[<- <-]|[<- <-]]; [done|by apply tree_conn_sym]. }
  induction 1 as [|x y z Hxy _ IH]; [apply rtc_refl|].
  eapply tree_conn_trans; [|exact IH].
  apply graph_nbrs_edge in Hxy as (e & He & <-).
  rewrite <-(wf_src g Hwf x e He). by eapply Hall, elem_of_adj_get.
Qed.

(** ** The tree routes on connected graphs *)

Lemma is_route_length nbrs start dest r :
  is_route nbrs start dest r → length r = S (length (segments r)).
Proof.
  intros (Hhd & _). rewrite segments_length. destruct r; [done|]. simpl. lia.
Qed.

Lemma tree_route_found mst start dest r :
  tree_path_in_adj (mst_adj_of mst) start dest = Some r →
  tree_conn mst start dest →
  head r = Some start ∧ last r = Some dest ∧ length r = S (length (segments r)).
Proof.
  intros Hr Hconn.
  pose proof (tree_path_in_adj_complete _ _ _ _ Hr (tree_conn_adj _ _ _ Hconn)) as Hroute.
  pose proof (is_route_length _ _ _ _ Hroute). by destruct Hroute as (? & ? & _).
Qed.

Lemma add_bidir_edge_cities g s d md :
  cities (add_bidir_edge g s d md) = cities g.
Proof.
  unfold add_bidir_edge. destruct (cities g !! s); [|done].
  by destruct (cities g !! d).
Qed.

(** C9.  On a connected graph the program has built, between any two of its
    cities, the routes of [prim_path] and [kruskal_path] lead from the start
    to the destination, hold no location twice, have exactly one segment
    fewer than stops, and every segment runs along an edge of the tree the
    strategy has built. *)
Theorem tree_routes_no_revisit (g : Graph) (start dest : string) :
  built g → connected g →
  is_Some (cities g !! start) → is_Some (cities g !! dest) →
  (∃ mst r, prim_mst_edges g start = Some mst ∧
     prim_path g start dest = Some r ∧
     head r = Some start ∧ last r = Some dest ∧ NoDup r ∧
     length r = S (length (segments r)) ∧
     ∀ a b, (a, b) ∈ segments r → tree_segment mst a b) ∧
  (∃ mst r, kruskal_mst_edges g = Some mst ∧
     kruskal_path g start dest = Some r ∧
     head r = Some start ∧ last r = Some dest ∧ NoDup r ∧
     length r = S (length (segments r)) ∧
     ∀ a b, (a, b) ∈ segments r → tree_segment mst a b).
Proof.
  intros Hwf%built_wf Hconn Hs Hd. specialize (Hconn start dest Hs Hd). split.
  - destruct (prim_path_spec g start dest Hwf) as (mst & r & Hm & Hr & Hnd & Hseg & _).
    exists mst, r. split; [done|]. split; [done|].
    unfold prim_path in Hr. rewrite Hm in Hr. simpl in Hr.
    destruct (tree_route_found mst start dest r Hr) as (? & ? & ?);
      [by eapply prim_mst_complete|done].
  - destruct (kruskal_path_spec g start dest Hwf) as (mst & r & Hm & Hr & Hnd & Hseg & _).
    exists mst, r. split; [done|]. split; [done|].
    unfold kruskal_path in Hr. rewrite Hm in Hr. simpl in Hr.
    destruct (tree_route_found mst start dest r Hr) as (? & ? & ?);
      [by eapply kruskal_mst_complete|done].
Qed.

Lemma tree_routes_no_revisit_witness :
  let g := add_bidir_edge
             (add_c (add_c Graph_init (mkCity "A" "a" "s" (Some 0%Q)))
                    (mkCity "B" "b" "s" (Some 100%Q)))
             "A" "B" 10 in
  (∃ mst r, prim_mst_edges g "A" = Some mst ∧
     prim_path g "A" "B" = Some r ∧
     head r = Some "A" ∧ last r = Some "B" ∧ NoDup r ∧
     length r = S (length (segments r)) ∧
     ∀ a b, (a, b) ∈ segments r → tree_segment mst a b) ∧
  (∃ mst r, kruskal_mst_edges g = Some mst ∧
     kruskal_path g "A" "B" = Some r ∧
     head r = Some "A" ∧ last r = Some "B" ∧ NoDup r ∧
     length r = S (length (segments r)) ∧
     ∀ a b, (a, b) ∈ segments r → tree_segment mst a b).
Proof.
  intros g. apply (tree_routes_no_revisit g "A" "B").
  - unfold g. repeat constructor.
  - assert (HAB : reachable g "A" "B").
    { eapply rtc_l; [|apply rtc_refl]. vm_compute. left. }
    assert (HBA : reachable g "B" "A").
    { eapply rtc_l; [|apply rtc_refl]. vm_compute. left. }
    assert (Hkeys : ∀ a, is_Some (cities g !! a) → a = "A" ∨ a = "B").
    { intros a Ha.
      destruct (decide ("A" = a)) as [|HnA]; [by left|].
      destruct (decide ("B" = a)) as [|HnB]; [by right|].
      exfalso. revert Ha. unfold g. rewrite add_bidir_edge_cities.
      unfold add_c. simpl.
      rewrite lookup_insert_ne by done. rewrite lookup_insert_ne by done.
      by intros []. }
    intros a b [->| ->]%Hkeys [->| ->]%Hkeys; try done; apply rtc_refl.
  - eexists. vm_compute. reflexivity.
  - eexists. vm_compute. reflexivity.
Defined.

(* ===================================================================== *)
(** * Part III: further properties of the code *)
(* ===================================================================== *)

(** ** The searches find a route exactly when there is one *)

Lemma bfs_search_complete nbrs start dest (cand : gset string) fuel r :
  (∀ u v, v ∈ nbrs u → v ∈ cand) → 1 + size cand < fuel →
  (bfs_loop fuel nbrs dest [start] {[start]} {[start := None]}
     ≫= λ parent, reconstruct parent start dest) = Some r →
  rtc (λ a b, b ∈ nbrs a) start dest → r ≠ [].
Proof.
  intros Hcand Hfuel Hr Hreach.
  destruct (bfs_loop_spec nbrs start dest cand Hcand fuel [start] {[start]}
              {[start := None]}) as (par' & Hloop & Hch).
  { split; [set_solver|]. split; [by rewrite dom_singleton_L|].
    split; [set_solver|]. intros v ->%elem_of_singleton.
    exists [start]. split; [constructor|]. split; [apply NoDup_singleton|set_solver]. }
  { assert (size (cand ∖ {[start]}) ≤ size cand) by (apply subseteq_size; set_solver).
    simpl. lia. }
  rewrite Hloop in Hr. simpl in Hr.
  assert (Hdest : is_Some (par' !! dest)).
  { apply (bfs_loop_complete nbrs start dest _ [start] {[start]}
             {[start := None]} par' Hloop).
    - by rewrite dom_singleton_L.
    - set_solver.
    - set_solver.
    - intros x ->%elem_of_singleton. left. by left.
    - done. }
  destruct (reconstruct_chain nbrs par' start dest) as (r' & Hr' & _ & _ & Hempty).
  { intros _ Hsome. by apply Hch. }
  rewrite Hr in Hr'. injection Hr' as <-.
  intros ->. destruct (Hempty eq_refl) as [_ Hnone].
  rewrite Hnone in Hdest. by destruct Hdest.
Qed.

Lemma bfs_path_complete g start dest :
  bfs_path g start dest = Some [] → ¬ reachable g start dest.
Proof.
  intros Hr Hreach. unfold bfs_path in Hr.
  eapply (bfs_search_complete (graph_nbrs g) start dest
            (list_to_set (map dst (all_edges (adj g))))); [| |exact Hr|exact Hreach|done].
  - intros u v Hv. apply elem_of_list_to_set.
    unfold graph_nbrs in Hv. apply list_elem_of_fmap in Hv as (e & -> & He).
    apply list_elem_of_fmap. exists e. split; [done|]. by eapply elem_of_adj_get.
  - pose proof (size_list_to_set_le (map dst (all_edges (adj g)))) as H.
    rewrite length_map in H. lia.
Qed.

(** X1.  [bfs_path] always returns; the route it returns never repeats a
    location, is empty exactly when [dest] cannot be reached from [start]
    along the adjacency lists, and otherwise runs from [start] to [dest]
    along connections of the graph.  This holds for every graph and every
    pair of identifiers, known or not. *)
Theorem bfs_path_finds_iff_reachable (g : Graph) (start dest : string) :
  ∃ r, bfs_path g start dest = Some r ∧ NoDup r ∧
    (r = [] ↔ ¬ reachable g start dest) ∧
    (r ≠ [] → is_route (graph_nbrs g) start dest r).
Proof.
  destruct (bfs_path_spec g start dest) as (r & Hr & Hnd & Hroute).
  exists r. split; [done|]. split; [done|]. split; [split|].
  - intros ->. by apply bfs_path_complete.
  - intros Hno. destruct Hroute as [->|Hroute]; [done|].
    destruct Hno. by eapply is_route_reachable.
  - intros Hne. by destruct Hroute.
Qed.

Section dfs_complete.
Variables (g : Graph) (dest : string).


End dfs_complete.



(** ** A route from a location to itself *)

Lemma bfs_loop_at_dest f nbrs dest q vis par :
  bfs_loop (S f) nbrs dest (dest :: q) vis par = Some par.
Proof. simpl. by rewrite decide_True. Qed.

Lemma reconstruct_same parent s : reconstruct parent s s = Some [s].
Proof. unfold reconstruct. by rewrite decide_True. Qed.

Lemma tree_path_in_adj_same tadj s : tree_path_in_adj tadj s s = Some [s].
Proof.
  unfold tree_path_in_adj. cbn [Nat.add]. rewrite bfs_loop_at_dest. simpl.
  apply reconstruct_same.
Qed.

(** X3.  For [start = dest] on a graph the program has built, [bfs_path],
    [dfs_path], [prim_path] and [kruskal_path] return the one-location route
    [[start]] whether or not the identifier is a known city, while
    [bellman_path] returns it only for a known city and the empty route
    otherwise. *)
Theorem same_city_routes (g : Graph) (s : string) :
  built g →
  bfs_path g s s = Some [s] ∧ dfs_path g s s = Some [s] ∧
  prim_path g s s = Some [s] ∧ kruskal_path g s s = Some [s] ∧
  bellman_path g s s = Some (match cities g !! s with Some _ => [s] | None => [] end).
Proof.
  intros Hb. pose proof (built_wf g Hb) as Hwf.
  split; [|split; [|split; [|split]]].
  - unfold bfs_path. cbn [Nat.add]. rewrite bfs_loop_at_dest. simpl.
    apply reconstruct_same.
  - unfold dfs_path. cbn [Nat.add dfs dfs_found]. rewrite decide_True by done.
    simpl. apply reconstruct_same.
  - unfold prim_path. destruct (prim_mst_edges_spec g s) as (mst & -> & _).
    simpl. apply tree_path_in_adj_same.
  - unfold kruskal_path. destruct (kruskal_mst_edges_spec g Hwf) as (mst & -> & _).
    simpl. apply tree_path_in_adj_same.
  - unfold bellman_path.
    destruct (cities g !! s) as [c|] eqn:Hc.
    + destruct (bellman_ford_spec g s Hwf ltac:(by eexists))
        as (dist & pred & -> & (_ & _ & Hs & _) & _).
      simpl. rewrite Hs. simpl. apply reconstruct_same.
    + unfold bellman_ford. rewrite Hc. simpl.
      rewrite lookup_fmap, Hc. done.
Qed.

Lemma same_city_routes_witness :
  let g := add_c Graph_init (mkCity "A" "a" "s" (Some 0%Q)) in
  (bfs_path g "A" "A" = Some ["A"] ∧ dfs_path g "A" "A" = Some ["A"] ∧
   prim_path g "A" "A" = Some ["A"] ∧ kruskal_path g "A" "A" = Some ["A"] ∧
   bellman_path g "A" "A" = Some (match cities g !! "A" with Some _ => ["A"] | None => [] end)) ∧
  (bfs_path g "Z" "Z" = Some ["Z"] ∧ dfs_path g "Z" "Z" = Some ["Z"] ∧
   prim_path g "Z" "Z" = Some ["Z"] ∧ kruskal_path g "Z" "Z" = Some ["Z"] ∧
   bellman_path g "Z" "Z" = Some (match cities g !! "Z" with Some _ => ["Z"] | None => [] end)).
Proof.
  intros g. split.
  - apply (same_city_routes g "A"). repeat constructor.
  - apply (same_city_routes g "Z"). repeat constructor.
Defined.

(** ** [reconstruct] on an arbitrary [parent] dictionary *)





(** ** [edge_dist] and the graph invariant *)

Lemma find_dst_None es v : find_dst es v = None ↔ v ∉ map dst es.
Proof.
  induction es as [|e es IH]; simpl; [by split; [intros _ ?%elem_of_nil|]|].
  destruct (decide (dst e = v)) as [<-|Hne].
  - split; [done|]. intros []. by left.
  - rewrite IH. split.
    + intros Hn [->|?]%elem_of_cons; done.
    + intros Hn Hin. apply Hn. by right.
Qed.

Lemma find_dst_app es es' v e :
  find_dst es v = Some e → find_dst (es ++ es') v = Some e.
Proof.
  induction es as [|x es IH]; simpl; [done|].
  destruct (decide (dst x = v)); auto.
Qed.

Lemma find_dst_app_None es es' v :
  find_dst es v = None → find_dst (es ++ es') v = find_dst es' v.
Proof.
  induction es as [|x es IH]; simpl; [done|].
  destruct (decide (dst x = v)); [done|auto].
Qed.

Lemma adj_get_add_bidir_edge g s d md u :
  ∃ extra, adj_get (adj (add_bidir_edge g s d md)) u = adj_get (adj g) u ++ extra ∧
    ∀ e, e ∈ extra →
      is_Some (cities g !! s) ∧ is_Some (cities g !! d) ∧ src e = u ∧
      map_dist e = md ∧ (0.01 <= real_dist e)%Q ∧
      ((u = s ∧ dst e = d) ∨ (u = d ∧ dst e = s)).
Proof.
  unfold add_bidir_edge.
  destruct (cities g !! s) as [A|] eqn:HA.
  2:{ exists []. split; [by rewrite app_nil_r|by intros e ?%elem_of_nil]. }
  destruct (cities g !! d) as [B|] eqn:HB.
  2:{ exists []. split; [by rewrite app_nil_r|by intros e ?%elem_of_nil]. }
  cbn [adj].
  set (rab := py_max _ _). set (rba := py_max _ _).
  assert (Hrab : (0.01 <= rab)%Q) by apply py_max_floor.
  assert (Hrba : (0.01 <= rba)%Q) by apply py_max_floor.
  clearbody rab rba.
  destruct (decide (d = u)) as [->|Hdu]; destruct (decide (s = u)) as [->|Hsu].
  - rewrite !adj_get_append_eq, <-app_assoc. eexists. split; [done|].
    intros e [->|[->|[]%elem_of_nil]%elem_of_cons]%elem_of_cons; simpl; eauto 10.
  - rewrite adj_get_append_eq, adj_get_append_ne by done. eexists. split; [done|].
    intros e [->|[]%elem_of_nil]%elem_of_cons; simpl; eauto 10.
  - rewrite adj_get_append_ne, adj_get_append_eq by done. eexists. split; [done|].
    intros e [->|[]%elem_of_nil]%elem_of_cons; simpl; eauto 10.
  - rewrite !adj_get_append_ne by done. exists [].
    split; [by rewrite app_nil_r|by intros e ?%elem_of_nil].
Qed.

(** X5.  On a graph the program has built, two locations are connected in
    one direction exactly when they are connected in the other; [edge_dist]
    is at least the floor 0.01 for a connected pair and exactly 0 for a pair
    that is not connected. *)
Theorem edge_dist_connected (g : Graph) (u v : string) :
  built g →
  (v ∈ graph_nbrs g u ↔ u ∈ graph_nbrs g v) ∧
  (v ∈ graph_nbrs g u → (0.01 <= edge_dist g u v)%Q) ∧
  (v ∉ graph_nbrs g u → edge_dist g u v = 0%Q).
Proof.
  intros Hb. pose proof (built_wf g Hb) as Hwf.
  assert (Hsym : ∀ a b, b ∈ graph_nbrs g a → a ∈ graph_nbrs g b).
  { intros a b (e & He & <-)%graph_nbrs_edge.
    destruct (wf_sym g Hwf e) as (e' & He' & Hd); [by eapply elem_of_adj_get|].
    apply graph_nbrs_edge. exists e'. split; [done|].
    rewrite Hd. by apply (wf_src g Hwf). }
  split; [split; apply Hsym|]. unfold edge_dist. split.
  - intros Hv. destruct (find_dst (adj_get (adj g) u) v) as [e|] eqn:Hf.
    + apply find_dst_Some in Hf as [He _]. apply (wf_cost g Hwf).
      by eapply elem_of_adj_get.
    + apply find_dst_None in Hf. done.
  - intros Hv. destruct (find_dst (adj_get (adj g) u) v) as [e|] eqn:Hf.
    { apply find_dst_Some in Hf as [He <-]. destruct Hv.
      apply graph_nbrs_edge. eauto. }
    destruct (find_dst (adj_get (adj g) v) u) as [e|] eqn:Hf'; [|done].
    apply find_dst_Some in Hf' as [He <-]. destruct Hv. apply Hsym.
    apply graph_nbrs_edge. eauto.
Qed.

Lemma edge_dist_connected_witness :
  let g := add_bidir_edge
             (add_c (add_c (add_c Graph_init (mkCity "A" "a" "s" (Some 0%Q)))
                           (mkCity "B" "b" "s" (Some 0%Q)))
                    (mkCity "C" "c" "s" (Some 0%Q))) "A" "B" 10 in
  (("B" ∈ graph_nbrs g "A" ↔ "A" ∈ graph_nbrs g "B") ∧
   ("B" ∈ graph_nbrs g "A" → (0.01 <= edge_dist g "A" "B")%Q) ∧
   ("B" ∉ graph_nbrs g "A" → edge_dist g "A" "B" = 0%Q)) ∧
  (("C" ∈ graph_nbrs g "A" ↔ "A" ∈ graph_nbrs g "C") ∧
   ("C" ∈ graph_nbrs g "A" → (0.01 <= edge_dist g "A" "C")%Q) ∧
   ("C" ∉ graph_nbrs g "A" → edge_dist g "A" "C" = 0%Q)).
Proof.
  intros g. split.
  - apply (edge_dist_connected g "A" "B"). repeat constructor.
  - apply (edge_dist_connected g "A" "C"). repeat constructor.
Defined.

(** X6.  The first connection stored for an ordered pair decides its
    distance: once [v] is listed under [u], no later [add_bidir_edge]
    call, for this pair or any other, changes [edge_dist g u v]. *)
Theorem edge_dist_first_connection_wins (g : Graph) (s d : string) (md : Q)
    (u v : string) :
  v ∈ graph_nbrs g u →
  edge_dist (add_bidir_edge g s d md) u v = edge_dist g u v.
Proof.
  intros (e & He & Hd)%graph_nbrs_edge. unfold edge_dist.
  destruct (find_dst_elem _ _ He) as (e' & Hf & _ & _). rewrite Hd in Hf.
  destruct (adj_get_add_bidir_edge g s d md u) as (extra & -> & _).
  by rewrite (find_dst_app _ extra _ _ Hf), Hf.
Qed.

Lemma edge_dist_first_connection_wins_witness :
  let g := add_bidir_edge
             (add_c (add_c Graph_init (mkCity "A" "a" "s" (Some 0%Q)))
                    (mkCity "B" "b" "s" (Some 0%Q))) "A" "B" 10 in
  "B" ∈ graph_nbrs g "A" ∧
  edge_dist (add_bidir_edge g "A" "B" 5) "A" "B" = edge_dist g "A" "B".
Proof.
  intros g.
  assert (H : "B" ∈ graph_nbrs g "A") by (apply list_elem_of_here).
  split; [exact H|]. exact (edge_dist_first_connection_wins g "A" "B" 5 "A" "B" H).
Defined.

Lemma all_edges_append_length {A} (a : list (string * list A)) u e :
  length (all_edges (adj_append a u e)) = S (length (all_edges a)).
Proof.
  unfold all_edges. induction a as [|[k es] r IH]; simpl; [done|].
  destruct (decide (k = u)); simpl.
  - rewrite !length_app. simpl. lia.
  - rewrite !length_app, IH. lia.
Qed.

(** X7.  The invariant of the graphs the program builds.  Every city is
    stored under its own identifier.  Every edge is listed under its origin,
    joins two known cities, costs at least the floor 0.01, and has a reverse
    edge, listed under its destination, with the same map distance.  The
    directed edges come in pairs, so their number is even. *)
Theorem built_graph_invariant (g : Graph) :
  built g →
  (∀ k c, cities g !! k = Some c → cid c = k) ∧
  (∀ u e, e ∈ adj_get (adj g) u →
     src e = u ∧ is_Some (cities g !! u) ∧ is_Some (cities g !! dst e) ∧
     (0.01 <= real_dist e)%Q ∧
     ∃ e', e' ∈ adj_get (adj g) (dst e) ∧ src e' = dst e ∧ dst e' = u ∧
           map_dist e' = map_dist e) ∧
  Nat.Even (length (all_edges (adj g))).
Proof.
  induction 1 as [|g c Hb (IHc & IHe & IHn)|g s d md Hb (IHc & IHe & IHn)].
  - split; [by intros k c ?|]. split; [by intros u e ?%elem_of_nil|]. by exists 0.
  - split; [|split; [|done]].
    + intros k c'. simpl. rewrite lookup_insert. case_decide as Hk.
      * intros [= <-]. done.
      * apply IHc.
    + intros u e He. simpl in *. destruct (IHe u e He) as (? & Hu & Hv & ? & ?).
      split; [done|]. split; [|split; [|done]].
      * rewrite lookup_insert. by case_decide; [eexists|].
      * rewrite lookup_insert. by case_decide; [eexists|].
  - rewrite add_bidir_edge_cities. split; [done|]. split.
    + intros u e He.
      assert (Hold : ∀ w x, x ∈ adj_get (adj g) w →
                x ∈ adj_get (adj (add_bidir_edge g s d md)) w).
      { intros w x Hx. destruct (adj_get_add_bidir_edge g s d md w) as (ex & -> & _).
        apply elem_of_app. by left. }
      destruct (adj_get_add_bidir_edge g s d md u) as (extra & Heq & Hextra).
      rewrite Heq in He. apply elem_of_app in He as [He|He].
      * destruct (IHe u e He) as (? & ? & ? & ? & e' & He' & ?).
        repeat (split; [done|]). exists e'. split; [by apply Hold|done].
      * destruct (Hextra e He) as (Hs & Hd & Hsrc & Hmd & Hcost & Hends).
        unfold add_bidir_edge in *. destruct Hs as [A HA], Hd as [B HB].
        rewrite HA, HB in *. cbn [adj] in *.
        destruct Hends as [[-> Hdst]|[-> Hdst]]; rewrite Hdst.
        -- split; [done|]. split; [by eexists|]. split; [by eexists|].
           split; [done|]. eexists. split; [apply elem_of_adj_get_append; right; split; reflexivity|].
           simpl. by rewrite Hmd.
        -- split; [done|]. split; [by eexists|]. split; [by eexists|].
           split; [done|].
           destruct (decide (s = d)) as [->|Hne].
           ++ eexists. split; [apply elem_of_adj_get_append; right; split; reflexivity|].
              simpl. by rewrite Hmd.
           ++ eexists. split.
              { apply elem_of_adj_get_append. left.
                apply elem_of_adj_get_append. right. split; reflexivity. }
              simpl. by rewrite Hmd.
    + unfold add_bidir_edge. destruct (cities g !! s); [|done].
      destruct (cities g !! d); [|done]. cbn [adj].
      rewrite !all_edges_append_length. destruct IHn as [n Hn]. exists (S n). lia.
Qed.

Lemma built_graph_invariant_witness :
  let g := add_bidir_edge
             (add_c (add_c Graph_init (mkCity "A" "a" "s" (Some 0%Q)))
                    (mkCity "B" "b" "s" (Some 100%Q))) "A" "B" 10 in
  (∀ k c, cities g !! k = Some c → cid c = k) ∧
  (∀ u e, e ∈ adj_get (adj g) u →
     src e = u ∧ is_Some (cities g !! u) ∧ is_Some (cities g !! dst e) ∧
     (0.01 <= real_dist e)%Q ∧
     ∃ e', e' ∈ adj_get (adj g) (dst e) ∧ src e' = dst e ∧ dst e' = u ∧
           map_dist e' = map_dist e) ∧
  Nat.Even (length (all_edges (adj g))).
Proof.
  intros g. apply (built_graph_invariant g). repeat constructor.
Defined.

(** ** The directional costs in closed form *)

Lemma py_max_compat a a' b : (a == a')%Q → (py_max a b == py_max a' b)%Q.
Proof.
  unfold py_max. intros H.
  destruct (Qlt_le_dec a b), (Qlt_le_dec a' b); lra.
Qed.

(** X8.  For two distinct cities of the graph, [add_bidir_edge g a b md]
    appends one edge a->b to [adj[a]] and one edge b->a to [adj[b]] and
    leaves every other adjacency list alone; both edges carry the map
    distance [md].  With a map distance of 0 both costs are the floor 0.01;
    otherwise the cost a->b is [max(md + delta, 0.01)] and the cost b->a is
    [max(md - delta, 0.01)], where [delta] is the elevation gain from [a] to
    [b] in miles, taken as 0 when an elevation is missing. *)
Theorem add_bidir_edge_cost_formula (g : Graph) (a b : string) (A B : City)
    (md : Q) :
  cities g !! a = Some A → cities g !! b = Some B → a ≠ b →
  ∃ delta eab eba,
    delta = match sea_level_m A, sea_level_m B with
            | Some ea, Some eb => ((eb - ea) / 1609.34)%Q
            | _, _ => 0%Q
            end ∧
    adj_get (adj (add_bidir_edge g a b md)) a = adj_get (adj g) a ++ [eab] ∧
    adj_get (adj (add_bidir_edge g a b md)) b = adj_get (adj g) b ++ [eba] ∧
    (∀ u, u ≠ a → u ≠ b →
       adj_get (adj (add_bidir_edge g a b md)) u = adj_get (adj g) u) ∧
    (src eab = a ∧ dst eab = b ∧ map_dist eab = md) ∧
    (src eba = b ∧ dst eba = a ∧ map_dist eba = md) ∧
    ((md == 0)%Q → real_dist eab = 0.01%Q ∧ real_dist eba = 0.01%Q) ∧
    (¬ (md == 0)%Q →
       (real_dist eab == py_max (md + delta) 0.01)%Q ∧
       (real_dist eba == py_max (md - delta) 0.01)%Q).
Proof.
  intros HA HB Hne. unfold add_bidir_edge. rewrite HA, HB. cbn [adj].
  eexists _, _, _. split; [reflexivity|].
  split; [rewrite adj_get_append_ne by done; apply adj_get_append_eq|].
  split; [rewrite adj_get_append_eq; by rewrite adj_get_append_ne|].
  split; [intros u Hua Hub; by rewrite !adj_get_append_ne|].
  cbn [src dst map_dist real_dist]. split; [done|]. split; [done|].
  destruct (Qeq_bool md 0) eqn:Hz.
  - apply Qeq_bool_iff in Hz. split; [|done]. intros _.
    unfold py_max.
    destruct (Qlt_le_dec (md * (1 + 0)) 0.01), (Qlt_le_dec (md * (1 + - 0)) 0.01);
      try done; lra.
  - apply Qeq_bool_neq in Hz. split; [done|]. intros _.
    split; apply py_max_compat; field; done.
Qed.

Lemma add_bidir_edge_cost_formula_witness :
  let A := mkCity "A" "a" "s" (Some 1609.34%Q) in
  let B := mkCity "B" "b" "s" (Some 0%Q) in
  let g := add_c (add_c Graph_init A) B in
  ∃ delta eab eba,
    delta = ((0 - 1609.34) / 1609.34)%Q ∧
    adj_get (adj (add_bidir_edge g "A" "B" 10)) "A" = adj_get (adj g) "A" ++ [eab] ∧
    adj_get (adj (add_bidir_edge g "A" "B" 10)) "B" = adj_get (adj g) "B" ++ [eba] ∧
    (∀ u, u ≠ "A" → u ≠ "B" →
       adj_get (adj (add_bidir_edge g "A" "B" 10)) u = adj_get (adj g) u) ∧
    (src eab = "A" ∧ dst eab = "B" ∧ map_dist eab = 10%Q) ∧
    (src eba = "B" ∧ dst eba = "A" ∧ map_dist eba = 10%Q) ∧
    ((10 == 0)%Q → real_dist eab = 0.01%Q ∧ real_dist eba = 0.01%Q) ∧
    (¬ (10 == 0)%Q →
       (real_dist eab == py_max (10 + delta) 0.01)%Q ∧
       (real_dist eba == py_max (10 - delta) 0.01)%Q).
Proof.
  intros A B g.
  apply (add_bidir_edge_cost_formula g "A" "B" A B 10); [reflexivity|reflexivity|done].
Defined.

(** ** Distances of routes *)

Lemma foldl_lower_bound {A} (f : A → Q) (lo : Q) (l : list A) (acc : Q) :
  (∀ x, x ∈ l → (lo <= f x)%Q) →
  (acc + inject_Z (Z.of_nat (length l)) * lo <= foldl (λ t x, t + f x) acc l)%Q.
Proof.
  revert acc. induction l as [|x l IH]; intros acc Hl.
  { cbn [foldl length]. change (inject_Z (Z.of_nat 0)) with 0%Q. lra. }
  cbn [foldl length].
  eapply Qle_trans; [|apply IH; intros y Hy; apply Hl; by right].
  rewrite Nat2Z.inj_succ, <-Z.add_1_r, inject_Z_plus.
  assert (lo <= f x)%Q by (apply Hl; by left).
  change (inject_Z 1) with 1%Q. lra.
Qed.

Lemma edge_dist_nonneg g u v : graph_wf g → (0 <= edge_dist g u v)%Q.
Proof.
  intros Hwf. unfold edge_dist.
  destruct (find_dst (adj_get (adj g) u) v) as [e|] eqn:Hf.
  { apply find_dst_Some in Hf as [He _].
    pose proof (wf_cost g Hwf e ltac:(by eapply elem_of_adj_get)). lra. }
  destruct (find_dst (adj_get (adj g) v) u) as [e|] eqn:Hf'; [|lra].
  apply find_dst_Some in Hf' as [He _].
  pose proof (wf_cost g Hwf e ltac:(by eapply elem_of_adj_get)). lra.
Qed.

Lemma edge_dist_floor g u v :
  graph_wf g → v ∈ graph_nbrs g u → (0.01 <= edge_dist g u v)%Q.
Proof.
  intros Hwf (e & He & <-)%graph_nbrs_edge. unfold edge_dist.
  destruct (find_dst_elem _ _ He) as (e' & -> & He' & _).
  apply (wf_cost g Hwf). by eapply elem_of_adj_get.
Qed.

(** X9.  On a graph the program has built, [path_distance] is never
    negative, whatever list of identifiers it is given; on a list whose
    consecutive locations are all connected it is at least 0.01 per
    segment. *)
Theorem path_distance_lower_bound (g : Graph) (r : list string) :
  built g →
  (0 <= path_distance g r)%Q ∧
  ((∀ a b, (a, b) ∈ segments r → b ∈ graph_nbrs g a) →
   (inject_Z (Z.of_nat (length r - 1)) * 0.01 <= path_distance g r)%Q).
Proof.
  intros Hwf%built_wf. unfold path_distance. split.
  - pose proof (foldl_lower_bound (λ p : string * string, edge_dist g p.1 p.2) 0
                  (segments r) 0) as H.
    eapply Qle_trans; [|apply H].
    + lra.
    + intros x _. by apply edge_dist_nonneg.
  - intros Hconn.
    pose proof (foldl_lower_bound (λ p : string * string, edge_dist g p.1 p.2) 0.01
                  (segments r) 0) as H.
    rewrite segments_length in H. eapply Qle_trans; [|apply H].
    + lra.
    + intros [a b] Hab. apply edge_dist_floor; [done|]. by apply Hconn.
Qed.

Lemma path_distance_lower_bound_witness :
  let g := add_bidir_edge
             (add_c (add_c Graph_init (mkCity "A" "a" "s" (Some 0%Q)))
                    (mkCity "B" "b" "s" (Some 0%Q))) "A" "B" 10 in
  (0 <= path_distance g ["A"; "B"; "A"])%Q ∧
  ((∀ a b, (a, b) ∈ segments ["A"; "B"; "A"] → b ∈ graph_nbrs g a) →
   (inject_Z (Z.of_nat (length ["A"; "B"; "A"] - 1)) * 0.01
      <= path_distance g ["A"; "B"; "A"])%Q).
Proof.
  intros g. apply (path_distance_lower_bound g ["A"; "B"; "A"]). repeat constructor.
Defined.

(** ** What [compute] reports *)

Lemma run_algorithm_route g s d a r :
  graph_wf g → (run_algorithm g s d a).1 = Some r →
  NoDup r ∧
  (r = [] ∨
   (is_route (graph_nbrs g) s d r ∧
    a ∈ ["BFS"; "DFS"; "PRIM"; "KRUSKAL"; "BELLMAN"])).
Proof.
  intros Hwf. unfold run_algorithm.
  repeat case_decide; subst; cbn [fst]; intros Hr.
  - destruct (bfs_path_spec g s d) as (r' & Hr' & Hnd & Hroute).
    rewrite Hr in Hr'. injection Hr' as <-. split; [done|].
    destruct Hroute; [by left|right]. split; [done|set_solver].
  - destruct (dfs_path_spec g s d) as (r' & Hr' & Hnd & Hroute).
    rewrite Hr in Hr'. injection Hr' as <-. split; [done|].
    destruct Hroute; [by left|right]. split; [done|set_solver].
  - destruct (prim_path_spec g s d Hwf) as (mst & r' & _ & Hr' & Hnd & _ & _ & Hroute).
    rewrite Hr in Hr'. injection Hr' as <-. split; [done|].
    destruct Hroute; [by left|right]. split; [done|set_solver].
  - destruct (kruskal_path_spec g s d Hwf) as (mst & r' & _ & Hr' & Hnd & _ & _ & Hroute).
    rewrite Hr in Hr'. injection Hr' as <-. split; [done|].
    destruct Hroute; [by left|right]. split; [done|set_solver].
  - destruct (bellman_path_total g s d Hwf) as (r' & Hr' & Hnd & Hroute).
    rewrite Hr in Hr'. injection Hr' as <-. split; [done|].
    destruct Hroute; [by left|right]. split; [done|set_solver].
  - injection Hr as <-. split; [constructor|by left].
Qed.

Lemma compute_inv g wr names s d a info :
  compute g wr names s d a = Some (RouteFound info) →
  ∃ route, (run_algorithm g s d a).1 = Some route ∧ route ≠ [] ∧
    info = mkRouteInfo (run_algorithm g s d a).2 route
             (map (name_of names) route)
             (map (λ p, mkSegment p.1 p.2 (name_of names p.1) (name_of names p.2)
                                  (edge_dist g p.1 p.2))
                  (segments route))
             (path_distance g route) (gas_used (path_distance g route))
             (best_date_for_path route wr).2 (best_date_for_path route wr).1
             (path_distance g route + 20 * (best_date_for_path route wr).2)%Q.
Proof.
  unfold compute. destruct (run_algorithm g s d a) as [[r|] label]; [|done].
  cbn [mbind option_bind fst snd]. destruct r as [|x r]; [done|].
  destruct (best_date_for_path (x :: r) wr) as [bd rk] eqn:Hbd.
  intros [= <-]. exists (x :: r). rewrite Hbd. split; [done|]. split; [done|].
  reflexivity.
Qed.

Lemma foldl_map_distance {A} (f : A → segment) (dist : A → Q) (l : list A) acc :
  (∀ x, seg_real_dist (f x) = dist x) →
  foldl (λ t sg, (t + seg_real_dist sg)%Q) acc (map f l)
    = foldl (λ t x, (t + dist x)%Q) acc l.
Proof.
  intros Hf. revert acc. induction l as [|x l IH]; intros acc; [done|].
  simpl. by rewrite Hf, IH.
Qed.

(** X10.  On a graph the program has built, a successful result of
    [compute] comes from one of the five known algorithm tokens and
    describes a genuine route: it runs from [src] to [dst] along connections
    of the graph without repeating a location; the listed segments are the
    consecutive pairs of the route, each with a distance of at least 0.01;
    [total_distance] is the sum of the segment distances; the names are the
    names of the route's locations; and when no travel date is reported the
    risk is 0. *)
Theorem compute_route_is_genuine (g : Graph) (wr : WeatherRisk)
    (id_to_name : gmap string string) (s d a : string) (info : route_info) :
  built g → compute g wr id_to_name s d a = Some (RouteFound info) →
  a ∈ ["BFS"; "DFS"; "PRIM"; "KRUSKAL"; "BELLMAN"] ∧
  NoDup (route_ids info) ∧ is_route (graph_nbrs g) s d (route_ids info) ∧
  route_names info = map (name_of id_to_name) (route_ids info) ∧
  map (λ sg, (seg_src_id sg, seg_dst_id sg)) (route_segments info)
    = segments (route_ids info) ∧
  (∀ sg, sg ∈ route_segments info → (0.01 <= seg_real_dist sg)%Q) ∧
  total_distance info
    = foldl (λ t sg, (t + seg_real_dist sg)%Q) 0%Q (route_segments info) ∧
  (best_travel_date info = None → total_risk info = 0%Q).
Proof.
  intros Hwf%built_wf (route & Hrun & Hne & ->)%compute_inv.
  destruct (run_algorithm_route g s d a route Hwf Hrun) as [Hnd [->|[Hroute Ha]]]; [done|].
  cbn [route_ids route_names route_segments total_distance best_travel_date total_risk].
  split; [done|]. split; [done|]. split; [done|]. split; [done|].
  split; [|split; [|split]].
  - rewrite map_map. simpl. clear. induction (segments route) as [|[x y] l IH]; [done|].
    simpl. by rewrite IH.
  - intros sg (p & -> & Hp)%list_elem_of_fmap. simpl.
    destruct p as [x y]. apply edge_dist_floor; [done|].
    by apply Hroute.
  - unfold path_distance. by rewrite foldl_map_distance with (dist := λ p, edge_dist g p.1 p.2).
  - unfold best_date_for_path. destruct (length route <? 2); [done|].
    by destruct (foldl _ _ _) as [[??]|].
Qed.

Lemma compute_route_is_genuine_witness :
  let g := add_bidir_edge
             (add_c (add_c Graph_init (mkCity "A" "a" "s" (Some 0%Q)))
                    (mkCity "B" "b" "s" (Some 0%Q))) "A" "B" 10 in
  ∃ info, compute g WeatherRisk_init ∅ "A" "B" "DFS" = Some (RouteFound info) ∧
    "DFS" ∈ ["BFS"; "DFS"; "PRIM"; "KRUSKAL"; "BELLMAN"] ∧
    NoDup (route_ids info) ∧ is_route (graph_nbrs g) "A" "B" (route_ids info) ∧
    route_names info = map (name_of ∅) (route_ids info) ∧
    map (λ sg, (seg_src_id sg, seg_dst_id sg)) (route_segments info)
      = segments (route_ids info) ∧
    (∀ sg, sg ∈ route_segments info → (0.01 <= seg_real_dist sg)%Q) ∧
    total_distance info
      = foldl (λ t sg, (t + seg_real_dist sg)%Q) 0%Q (route_segments info) ∧
    (best_travel_date info = None → total_risk info = 0%Q).
Proof.
  intros g.
  destruct (compute g WeatherRisk_init ∅ "A" "B" "DFS") as [[l m|info]|] eqn:Hc;
    [vm_compute in Hc; discriminate Hc| |vm_compute in Hc; discriminate Hc].
  exists info. split; [reflexivity|].
  apply (compute_route_is_genuine g WeatherRisk_init ∅ "A" "B" "DFS" info);
    [repeat constructor|exact Hc].
Defined.

Lemma compute_of_route g wr names s d a r :
  (run_algorithm g s d a).1 = Some [r] →
  compute g wr names s d a
    = Some (RouteFound (mkRouteInfo (run_algorithm g s d a).2 [r] [name_of names r]
                                    [] 0 (gas_used 0) 0 None (0 + 20 * 0))).
Proof.
  unfold compute. destruct (run_algorithm g s d a) as [o label]. simpl.
  by intros ->.
Qed.

(** X11.  A request from a known city to itself on a graph the program has
    built: each of the five algorithms yields the one-location route with no
    segments, distance 0, risk 0 and no travel date, and since all five
    scores are 0 the ["BEST"] branch reports the first one tried, BFS. *)
Theorem same_city_request (g : Graph) (wr : WeatherRisk)
    (id_to_name : gmap string string) (s : string) :
  built g → is_Some (cities g !! s) →
  let info label :=
    mkRouteInfo label [s] [name_of id_to_name s] [] 0 (gas_used 0) 0 None (0 + 20 * 0) in
  compute g wr id_to_name s s "BFS" = Some (RouteFound (info "BFS")) ∧
  compute g wr id_to_name s s "DFS" = Some (RouteFound (info "DFS")) ∧
  compute g wr id_to_name s s "PRIM" = Some (RouteFound (info "Prim MST")) ∧
  compute g wr id_to_name s s "KRUSKAL" = Some (RouteFound (info "Kruskal MST")) ∧
  compute g wr id_to_name s s "BELLMAN" = Some (RouteFound (info "Bellman-Ford")) ∧
  evaluate_best g wr id_to_name s s = Some (Best "BFS" (info "BFS")).
Proof.
  intros Hb [c Hc] info.
  pose proof (built_wf g Hb) as Hwf.
  assert (Hbfs : bfs_path g s s = Some [s]).
  { unfold bfs_path. cbn [Nat.add]. rewrite bfs_loop_at_dest. simpl.
    apply reconstruct_same. }
  assert (Hdfs : dfs_path g s s = Some [s]).
  { unfold dfs_path. cbn [Nat.add dfs dfs_found]. rewrite decide_True by done.
    simpl. apply reconstruct_same. }
  assert (Hprim : prim_path g s s = Some [s]).
  { unfold prim_path. destruct (prim_mst_edges_spec g s) as (mst & -> & _).
    simpl. apply tree_path_in_adj_same. }
  assert (Hkru : kruskal_path g s s = Some [s]).
  { unfold kruskal_path. destruct (kruskal_mst_edges_spec g Hwf) as (mst & -> & _).
    simpl. apply tree_path_in_adj_same. }
  assert (Hbel : bellman_path g s s = Some [s]).
  { unfold bellman_path.
    destruct (bellman_ford_spec g s Hwf ltac:(by eexists))
      as (dist & pred & -> & (_ & _ & Hs & _) & _).
    simpl. rewrite Hs. simpl. apply reconstruct_same. }
  assert (H1 : compute g wr id_to_name s s "BFS" = Some (RouteFound (info "BFS")))
    by (by rewrite (compute_of_route g wr id_to_name s s "BFS" s)).
  assert (H2 : compute g wr id_to_name s s "DFS" = Some (RouteFound (info "DFS")))
    by (by rewrite (compute_of_route g wr id_to_name s s "DFS" s)).
  assert (H3 : compute g wr id_to_name s s "PRIM" = Some (RouteFound (info "Prim MST")))
    by (by rewrite (compute_of_route g wr id_to_name s s "PRIM" s)).
  assert (H4 : compute g wr id_to_name s s "KRUSKAL"
               = Some (RouteFound (info "Kruskal MST")))
    by (by rewrite (compute_of_route g wr id_to_name s s "KRUSKAL" s)).
  assert (H5 : compute g wr id_to_name s s "BELLMAN"
               = Some (RouteFound (info "Bellman-Ford")))
    by (by rewrite (compute_of_route g wr id_to_name s s "BELLMAN" s)).
  repeat (split; [done|]).
  unfold evaluate_best. cbn [best_results]. rewrite H1, H2, H3, H4, H5. reflexivity.
Qed.

Lemma same_city_request_witness :
  let g := add_c Graph_init (mkCity "A" "a" "s" (Some 0%Q)) in
  let info label :=
    mkRouteInfo label ["A"] [name_of ∅ "A"] [] 0 (gas_used 0) 0 None (0 + 20 * 0) in
  compute g WeatherRisk_init ∅ "A" "A" "BFS" = Some (RouteFound (info "BFS")) ∧
  compute g WeatherRisk_init ∅ "A" "A" "DFS" = Some (RouteFound (info "DFS")) ∧
  compute g WeatherRisk_init ∅ "A" "A" "PRIM" = Some (RouteFound (info "Prim MST")) ∧
  compute g WeatherRisk_init ∅ "A" "A" "KRUSKAL"
    = Some (RouteFound (info "Kruskal MST")) ∧
  compute g WeatherRisk_init ∅ "A" "A" "BELLMAN"
    = Some (RouteFound (info "Bellman-Ford")) ∧
  evaluate_best g WeatherRisk_init ∅ "A" "A" = Some (Best "BFS" (info "BFS")).
Proof.
  intros g.
  apply (same_city_request g WeatherRisk_init ∅ "A");
    [repeat constructor|by eexists].
Defined.

(** ** The request handler *)

Lemma upper_ascii_idemp c : upper_ascii (upper_ascii c) = upper_ascii c.
Proof. destruct c as [[] [] [] [] [] [] [] []]; reflexivity. Qed.

Lemma py_upper_idemp s : py_upper (py_upper s) = py_upper s.
Proof. induction s as [|c s IH]; simpl; [done|]. by rewrite upper_ascii_idemp, IH. Qed.

Lemma py_or_upper alg :
  py_or (Some (py_upper (py_or alg "BEST"))) "BEST" = py_upper (py_or alg "BEST").
Proof. by destruct alg as [[|c r]|]. Qed.




(** X13.  The algorithm token of a request is read without regard to case
    and defaults to ["BEST"]: a request answers as the request with the
    upper-cased token does, and an absent or empty token as ["BEST"]. *)
Theorem handle_route_token_normalised (g : Graph) (wr : WeatherRisk)
    (id_to_name : gmap string string) (src_ dst_ alg : option string) :
  handle_route g wr id_to_name src_ dst_ alg
    = handle_route g wr id_to_name src_ dst_ (Some (py_upper (py_or alg "BEST"))) ∧
  handle_route g wr id_to_name src_ dst_ None
    = handle_route g wr id_to_name src_ dst_ (Some "BEST") ∧
  handle_route g wr id_to_name src_ dst_ (Some "")
    = handle_route g wr id_to_name src_ dst_ (Some "BEST").
Proof.
  split; [|done]. unfold handle_route. by rewrite py_or_upper, py_upper_idemp.
Qed.

(** X14.  A request between two known cities whose token, once
    upper-cased, is none of BEST, BFS, DFS, PRIM, KRUSKAL, BELLMAN is not
    rejected: it is answered with status 200 and the "No route found" result
    labelled with the upper-cased token. *)
Theorem handle_route_unknown_token (g : Graph) (wr : WeatherRisk)
    (id_to_name : gmap string string) (s d : string) (alg : option string) :
  s ≠ "" → d ≠ "" → is_Some (cities g !! s) → is_Some (cities g !! d) →
  py_upper (py_or alg "BEST") ∉ ["BEST"; "BFS"; "DFS"; "PRIM"; "KRUSKAL"; "BELLMAN"] →
  handle_route g wr id_to_name (Some s) (Some d) alg
    = Some (Ok200 (DataSingle (NoRoute (py_upper (py_or alg "BEST")) "No route found"))
                  s d (name_of id_to_name s) (name_of id_to_name d)).
Proof.
  intros Hs Hd [A HA] [B HB] Halg. unfold handle_route.
  destruct s as [|c1 r1]; [done|]. destruct d as [|c2 r2]; [done|].
  rewrite HA, HB.
  set (a := py_upper (py_or alg "BEST")) in *.
  rewrite decide_False by set_solver.
  unfold compute, run_algorithm.
  rewrite !decide_False by set_solver. done.
Qed.

Lemma handle_route_unknown_token_witness :
  let g := add_c (add_c Graph_init (mkCity "A" "a" "s" (Some 0%Q)))
                 (mkCity "B" "b" "s" (Some 0%Q)) in
  handle_route g WeatherRisk_init ∅ (Some "A") (Some "B") (Some "dijkstra")
    = Some (Ok200 (DataSingle (NoRoute (py_upper (py_or (Some "dijkstra") "BEST"))
                                       "No route found"))
                  "A" "B" (name_of ∅ "A") (name_of ∅ "B")).
Proof.
  intros g.
  apply (handle_route_unknown_token g WeatherRisk_init ∅ "A" "B" (Some "dijkstra"));
    [done|done|by eexists|by eexists|].
  vm_compute. intros H. repeat (apply elem_of_cons in H as [H|H]; [discriminate H|]).
  by apply elem_of_nil in H.
Defined.

(** ** The weather table *)

Lemma sort_insert_perm {A} (le : A → A → bool) x l : sort_insert le x l ≡ₚ x :: l.
Proof.
  induction l as [|y l IH]; simpl; [done|].
  destruct (le x y); [done|]. rewrite IH. apply Permutation_swap.
Qed.

Lemma py_sort_perm {A} (le : A → A → bool) l : py_sort le l ≡ₚ l.
Proof.
  induction l as [|x l IH]; simpl; [done|].
  by rewrite sort_insert_perm, IH.
Qed.

(** X15.  What one row does to the table.  A row without a city id leaves
    it unchanged.  Otherwise the parsed value is stored under the row's city
    and date, replacing any value stored there before, and every other
    entry is untouched; the date joins the end of the dates list when it is
    not empty and not yet listed, so the list stays free of duplicates. *)
Theorem load_row_stores (wr : WeatherRisk) (r : gmap string string)
    (wr' : WeatherRisk) :
  load_row wr r = Some wr' →
  (row_city r = "" → wr' = wr) ∧
  (row_city r ≠ "" →
     risk_of wr' (row_city r) !! row_date r = parse_risk (row_raw r) ∧
     (∀ c d, (c, d) ≠ (row_city r, row_date r) →
        risk_of wr' c !! d = risk_of wr c !! d) ∧
     dates wr' =
       (if decide (row_date r = "" ∨ row_date r ∈ dates wr)
        then dates wr else dates wr ++ [row_date r]) ∧
     (NoDup (dates wr) → NoDup (dates wr'))).
Proof.
  unfold load_row. destruct (row_city r) as [|a s] eqn:Hc.
  { intros [= <-]. done. }
  destruct (parse_risk (row_raw r)) as [val|] eqn:Hp; [|done].
  intros [= <-]. split; [done|]. intros _. unfold risk_of. cbn [risk dates].
  split; [|split; [|split]].
  - rewrite (lookup_insert_eq (risk wr) (String a s)). simpl.
    by rewrite lookup_insert_eq.
  - intros c d Hcd. destruct (decide (c = String a s)) as [->|Hne].
    + rewrite (lookup_insert_eq (risk wr) (String a s)). simpl.
      rewrite lookup_insert_ne; [done|]. intros <-. done.
    + by rewrite lookup_insert_ne.
  - destruct (row_date r) as [|b t] eqn:Hd.
    + rewrite decide_True by (by left). done.
    + destruct (bool_decide _) eqn:Hb.
      * apply bool_decide_eq_true in Hb. rewrite decide_True by (by right). done.
      * apply bool_decide_eq_false in Hb. rewrite decide_False; [done|].
        intros [?|?]; done.
  - intros Hnd. destruct (row_date r) as [|b t]; [done|].
    destruct (bool_decide _) eqn:Hb; [done|].
    apply bool_decide_eq_false in Hb.
    apply NoDup_app. split; [done|]. split; [|apply NoDup_singleton].
    intros x Hx ->%list_elem_of_singleton. done.
Qed.

Lemma load_row_stores_witness :
  let r : gmap string string :=
    <["city_id" := "A"]> (<["date" := "2024-01-01"]> (<["risk" := "risk 4"]> ∅)) in
  let wr := mkWeatherRisk {["A" := {["2024-01-01" := 9%Q]}]} ["2024-01-01"] in
  ∃ wr', load_row wr r = Some wr' ∧
    (row_city r = "" → wr' = wr) ∧
    (row_city r ≠ "" →
       risk_of wr' (row_city r) !! row_date r = parse_risk (row_raw r) ∧
       (∀ c d, (c, d) ≠ (row_city r, row_date r) →
          risk_of wr' c !! d = risk_of wr c !! d) ∧
       dates wr' =
         (if decide (row_date r = "" ∨ row_date r ∈ dates wr)
          then dates wr else dates wr ++ [row_date r]) ∧
       (NoDup (dates wr) → NoDup (dates wr'))).
Proof.
  intros r wr.
  destruct (load_row wr r) as [wr'|] eqn:Hl; [|vm_compute in Hl; discriminate Hl].
  exists wr'. split; [reflexivity|]. exact (load_row_stores wr r wr' Hl).
Defined.

(** X16.  In every state a [WeatherRisk] object passes through while it is
    loaded, and after the final sort, the dates list has no duplicates, and
    a date is listed exactly when it is not empty and some city has an entry
    for it; no entry is ever stored under the empty city id. *)
Theorem wr_built_dates (wr : WeatherRisk) :
  wr_built wr →
  NoDup (dates wr) ∧
  (∀ d, d ∈ dates wr ↔ d ≠ "" ∧ ∃ c, is_Some (risk_of wr c !! d)) ∧
  risk wr !! "" = None.
Proof.
  induction 1 as [|wr r wr' Hb (IHnd & IHd & IHe) Hrow|wr Hb (IHnd & IHd & IHe)].
  - split; [constructor|]. split; [|done]. intros d. split; [by intros ?%elem_of_nil|].
    intros (_ & c & Hc). unfold risk_of in Hc. simpl in Hc.
    rewrite lookup_empty in Hc. simpl in Hc. rewrite lookup_empty in Hc.
    by destruct Hc.
  - unfold load_row in Hrow. destruct (row_city r) as [|a s] eqn:Hc.
    { by injection Hrow as <-. }
    destruct (parse_risk (row_raw r)) as [val|] eqn:Hp; [|done].
    injection Hrow as <-. cbn [risk dates].
    assert (Hrisk : ∀ c d,
      is_Some (default ∅ (<[String a s := <[row_date r := val]>
                 (default ∅ (risk wr !! String a s))]> (risk wr) !! c) !! d) ↔
      is_Some (risk_of wr c !! d) ∨ (c = String a s ∧ d = row_date r)).
    { intros c d. unfold risk_of. destruct (decide (c = String a s)) as [->|Hne].
      - rewrite (lookup_insert_eq (risk wr) (String a s)). simpl.
        destruct (decide (d = row_date r)) as [->|Hd].
        + rewrite lookup_insert_eq. split; [by right|by eexists].
        + rewrite lookup_insert_ne by done. naive_solver.
      - rewrite lookup_insert_ne by done. naive_solver. }
    split; [|split].
    + destruct (row_date r) as [|b t]; [done|].
      destruct (bool_decide _) eqn:Hbd; [done|].
      apply bool_decide_eq_false in Hbd.
      apply NoDup_app. split; [done|]. split; [|apply NoDup_singleton].
      intros x Hx ->%list_elem_of_singleton. done.
    + intros d. unfold risk_of. cbn [risk].
      assert (Hex : (∃ c, is_Some (default ∅ (<[String a s := <[row_date r := val]>
                 (default ∅ (risk wr !! String a s))]> (risk wr) !! c) !! d)) ↔
              (∃ c, is_Some (risk_of wr c !! d)) ∨ d = row_date r).
      { split.
        - intros (c & [?|[_ ?]]%Hrisk); [left; by exists c|by right].
        - intros [(c & ?)| ->].
          + exists c. apply Hrisk. by left.
          + exists (String a s). apply Hrisk. by right. }
      rewrite Hex. clear Hex Hrisk.
      destruct (row_date r) as [|b t] eqn:Hd.
      * rewrite IHd. naive_solver.
      * destruct (bool_decide _) eqn:Hbd.
        -- apply bool_decide_eq_true in Hbd. rewrite IHd. split; [naive_solver|].
           intros [Hne [?| ->]]; [done|]. by apply IHd.
        -- rewrite elem_of_app, list_elem_of_singleton, IHd. naive_solver.
    + rewrite lookup_insert_ne; done.
  - cbn [risk dates]. split; [by rewrite py_sort_perm|]. split; [|done].
    intros d. rewrite py_sort_perm. apply IHd.
Qed.

Lemma wr_built_dates_witness :
  let row c d v : gmap string string :=
    <["city_id" := c]> (<["date" := d]> (<["risk" := v]> ∅)) in
  ∃ wr, load WeatherRisk_init [row "A" "2024-01-02" "4"; row "B" "" "1"] = Loaded wr ∧
    NoDup (dates wr) ∧
    (∀ d, d ∈ dates wr ↔ d ≠ "" ∧ ∃ c, is_Some (risk_of wr c !! d)) ∧
    risk wr !! "" = None.
Proof.
  intros row.
  destruct (load WeatherRisk_init [row "A" "2024-01-02" "4"; row "B" "" "1"])
    as [wr|wr] eqn:Hl; [|vm_compute in Hl; discriminate Hl].
  exists wr. split; [reflexivity|].
  apply (wr_built_dates wr).
  apply (load_built WeatherRisk_init [row "A" "2024-01-02" "4"; row "B" "" "1"] wr
           wr_built_init).
  left. exact Hl.
Defined.

(** ** Number texts *)










(** ** Ingestion *)

Lemma city_row_lookup g r k :
  adj (city_row g r) = adj g ∧
  cities (city_row g r) !! k =
    if decide (cid (city_of_row r) = k ∧ k ≠ "") then Some (city_of_row r)
    else cities g !! k.
Proof.
  unfold city_row. destruct (cid (city_of_row r)) as [|a s] eqn:Hc.
  { split; [done|]. rewrite decide_False; [done|]. by intros [<- ?]. }
  split; [done|]. unfold add_c. cbn [cities]. rewrite Hc, lookup_insert.
  destruct (decide (String a s = k)) as [<-|Hne].
  - by rewrite decide_True.
  - rewrite decide_False; [done|]. by intros [? _].
Qed.

Lemma city_rows_lookup g rows k :
  adj (foldl city_row g rows) = adj g ∧
  cities (foldl city_row g rows) !! k =
    match last (filter (λ r, cid (city_of_row r) = k ∧ k ≠ "") rows) with
    | Some r => Some (city_of_row r)
    | None => cities g !! k
    end.
Proof.
  revert g. induction rows as [|r rows IH]; intros g; [done|].
  cbn [foldl]. destruct (IH (city_row g r)) as [-> ->].
  destruct (city_row_lookup g r k) as [-> ->].
  split; [done|]. rewrite filter_cons.
  destruct (decide (cid (city_of_row r) = k ∧ k ≠ "")) as [Hk|Hk]; [|done].
  destruct (filter _ rows) as [|r' l]; [done|].
  change (last (r :: r' :: l)) with (last (r' :: l)).
  destruct (last (r' :: l)) eqn:Hl; [done|]. by apply last_None in Hl.
Qed.

(** X18.  The loop over [cities.csv] never touches the adjacency lists and
    never stores a city under the empty identifier; for any other
    identifier the city stored at the end is the one built from the last row
    carrying that identifier, and when no row carries it the graph's
    previous entry, if any, stays. *)
Theorem city_rows_last_wins (g : Graph) (rows : list (gmap string string))
    (k : string) :
  adj (foldl city_row g rows) = adj g ∧
  cities (foldl city_row g rows) !! "" = cities g !! "" ∧
  cities (foldl city_row g rows) !! k =
    match last (filter (λ r, cid (city_of_row r) = k ∧ k ≠ "") rows) with
    | Some r => Some (city_of_row r)
    | None => cities g !! k
    end.
Proof.
  split; [apply (city_rows_lookup g rows k)|]. split; [|apply city_rows_lookup].
  destruct (city_rows_lookup g rows "") as [_ ->].
  destruct (last _) as [r|] eqn:Hlast; [|done].
  apply last_Some in Hlast as (l' & Hl').
  assert (Hin : r ∈ filter (λ r, cid (city_of_row r) = "" ∧ "" ≠ "") rows).
  { rewrite Hl'. apply elem_of_app. right. by left. }
  by apply list_elem_of_filter in Hin as [[_ ?] _].
Qed.

Lemma city_rows_built g rows : built g → built (foldl city_row g rows).
Proof.
  revert g. induction rows as [|r rows IH]; intros g Hb; [done|].
  cbn [foldl]. apply IH. unfold city_row.
  destruct (cid (city_of_row r)); [done|by constructor].
Qed.

Lemma edge_rows_built g rows g' :
  edge_rows g rows = Some g' → built g → built g' ∧ cities g' = cities g.
Proof.
  revert g. induction rows as [|r rows IH]; intros g; simpl.
  { by intros [= <-]. }
  destruct (edge_row g r) as [g1|] eqn:Hrow; [|done]. simpl.
  intros Hrows Hb. unfold edge_row in Hrow.
  destruct (parse_dist _) as [md|]; [|done]. simpl in Hrow.
  assert (built g1 ∧ cities g1 = cities g) as [Hb1 Hc1].
  { destruct (edge_src r), (edge_dst r); injection Hrow as <-;
      (split; [done||by constructor|done||apply add_bidir_edge_cities]). }
  destruct (IH _ Hrows Hb1) as [? ->]. done.
Qed.

Lemma edge_rows_None g rows :
  edge_rows g rows = None ↔ ∃ r, r ∈ rows ∧ parse_dist (edge_dist_raw r) = None.
Proof.
  revert g. induction rows as [|r rows IH]; intros g; simpl.
  { split; [done|]. by intros (r & ?%elem_of_nil & _). }
  unfold edge_row at 1.
  destruct (parse_dist (edge_dist_raw r)) as [md|] eqn:Hp; simpl.
  - assert (∃ g1, (match edge_src r with
                   | "" => Some g
                   | String _ _ =>
                       match edge_dst r with
                       | "" => Some g
                       | String _ _ => Some (add_bidir_edge g (edge_src r) (edge_dst r) md)
                       end
                   end) = Some g1) as [g1 ->].
    { destruct (edge_src r), (edge_dst r); by eexists. }
    simpl. rewrite IH. split.
    + intros (r' & ? & ?). exists r'. split; [by right|done].
    + intros (r' & [->|?]%elem_of_cons & Hr'); [by rewrite Hp in Hr'|].
      by exists r'.
  - split; [intros _|done]. exists r. split; [by left|done].
Qed.

(** X19.  The globals [main] leaves for the server.  The graph is one the
    build operations produce, with the cities of [cities.csv] and no city
    under the empty identifier; every city is stored under its own
    identifier and has an elevation.  The weather table is one [load]
    produces, complete or cut short by an error, and is empty when the
    weather file is absent.  [ID_TO_NAME] holds the name of every city of the
    graph and nothing else, so a display name is the city's name for a known
    identifier and the identifier itself otherwise. *)
Theorem main_globals_spec (city_rows edge_rows_ : list (gmap string string))
    (risk_rows : option (list (gmap string string)))
    (g : Graph) (wr : WeatherRisk) (names : gmap string string) :
  main_globals city_rows edge_rows_ risk_rows = Some (g, wr, names) →
  built g ∧ wr_built wr ∧
  cities g = cities (foldl city_row Graph_init city_rows) ∧
  (∀ k c, cities g !! k = Some c → k ≠ "" ∧ cid c = k ∧ is_Some (sea_level_m c)) ∧
  names = id_to_name_of g ∧
  (∀ k, name_of names k = match cities g !! k with Some c => name c | None => k end) ∧
  (risk_rows = None → wr = WeatherRisk_init).
Proof.
  unfold main_globals.
  destruct (edge_rows _ edge_rows_) as [g1|] eqn:Hrows; [|done]. simpl.
  intros [= <- <- <-].
  destruct (edge_rows_built _ _ _ Hrows) as [Hb Hc].
  { apply city_rows_built. constructor. }
  split; [done|]. split.
  { destruct risk_rows as [rows|]; [|constructor].
    destruct (load WeatherRisk_init rows) as [wr'|wr'] eqn:Hl;
      apply (load_built WeatherRisk_init rows wr' wr_built_init); auto. }
  split; [done|]. split.
  { intros k c. rewrite Hc.
    destruct (city_rows_lookup Graph_init city_rows k) as [_ ->].
    destruct (last _) as [r|] eqn:Hlast;
      [|unfold Graph_init; cbn [cities]; by rewrite lookup_empty].
    intros [= <-]. apply last_Some in Hlast as (l' & Hl').
    assert (Hin : r ∈ filter (λ r, cid (city_of_row r) = k ∧ k ≠ "") city_rows).
    { rewrite Hl'. apply elem_of_app. right. by left. }
    apply list_elem_of_filter in Hin as [[Hk Hne] _].
    split; [done|]. split; [done|]. by eexists. }
  unfold id_to_name_of. rewrite Hc. split; [done|]. split; [|by intros ->].
  intros k. unfold name_of. rewrite lookup_fmap.
  by destruct (cities _ !! k).
Qed.

Lemma main_globals_spec_witness :
  let crow i n e : gmap string string :=
    <["city_id" := i]> (<["city" := n]> (<["elevation" := e]> ∅)) in
  let erow s d m : gmap string string :=
    <["src_id" := s]> (<["dst_id" := d]> (<["distance" := m]> ∅)) in
  let city_rows := [crow "A" "Alpha" "10"; crow "B" "Beta" "high"] in
  let edge_rows_ := [erow "A" "B" "12 miles"] in
  ∃ g wr names, main_globals city_rows edge_rows_ None = Some (g, wr, names) ∧
    built g ∧ wr_built wr ∧
    cities g = cities (foldl city_row Graph_init city_rows) ∧
    (∀ k c, cities g !! k = Some c → k ≠ "" ∧ cid c = k ∧ is_Some (sea_level_m c)) ∧
    names = id_to_name_of g ∧
    (∀ k, name_of names k = match cities g !! k with Some c => name c | None => k end) ∧
    (@None (list (gmap string string)) = None → wr = WeatherRisk_init).
Proof.
  intros crow erow city_rows edge_rows_.
  destruct (main_globals city_rows edge_rows_ None) as [[[g wr] names]|] eqn:Hm;
    [|vm_compute in Hm; discriminate Hm].
  exists g, wr, names. split; [reflexivity|].
  exact (main_globals_spec city_rows edge_rows_ None g wr names Hm).
Defined.

(** X20.  [main] fails to set up its globals exactly when some row of
    [edges.csv] carries a distance text that neither [float] nor the
    digits-and-dots fallback can read.  The test comes before the check of
    the two identifiers, so such a row stops the start-up even when it would
    have been skipped; rows of the other two files never do. *)
Theorem main_globals_fails_iff (city_rows edge_rows_ : list (gmap string string))
    (risk_rows : option (list (gmap string string))) :
  main_globals city_rows edge_rows_ risk_rows = None ↔
  ∃ r, r ∈ edge_rows_ ∧ parse_dist (edge_dist_raw r) = None.
Proof.
  rewrite <-(edge_rows_None (foldl city_row Graph_init city_rows)).
  unfold main_globals. by destruct (edge_rows _ edge_rows_).
Qed.

(** ** The shape of Prim's tree *)

Section prim_tree.
Variables (g : Graph) (start : string).
Hypothesis Hwf : graph_wf g.

Lemma prim_inv_skip pq vis mst dm u v pq1 :
  prim_inv g start pq vis mst → heappop pq = Some ((dm, u, v), pq1) → v ∈ vis →
  prim_inv g start pq1 vis mst.
Proof using Type.
  intros (P1 & P2 & P3 & P4 & P5) Hpop Hv.
  pose proof (heappop_spec pq) as Hspec. rewrite Hpop in Hspec.
  destruct Hspec as [Hperm _].
  split; [done|]. split; [done|]. split; [|split; [|done]].
  - intros a e Ha He Hd. specialize (P3 a e Ha He Hd).
    rewrite Hperm in P3. apply elem_of_cons in P3 as [Heq|?]; [|done].
    unfold item_of in Heq. injection Heq as _ _ Hdst. by rewrite Hdst in Hd.
  - intros x Hx. apply P4. rewrite Hperm. by right.
Qed.

Lemma prim_inv_step pq vis mst dm u v pq1 :
  prim_inv g start pq vis mst → heappop pq = Some ((dm, u, v), pq1) → v ∉ vis →
  ∃ e0, find_dst (adj_get (adj g) u) v = Some e0 ∧
    e0 ∈ adj_get (adj g) u ∧ src e0 = u ∧ dst e0 = v ∧ u ∈ vis ∧
    prim_inv g start (foldl (prim_push ({[v]} ∪ vis)) pq1 (adj_get (adj g) v))
             ({[v]} ∪ vis) (mst ++ [e0]).
Proof using Hwf.
  intros (P1 & P2 & P3 & P4 & P5) Hpop Hv.
  pose proof (heappop_spec pq) as Hspec. rewrite Hpop in Hspec.
  destruct Hspec as [Hperm _].
  assert (Hin1 : ∀ x, x ∈ pq1 → x ∈ pq).
  { intros x Hx. rewrite Hperm. by right. }
  assert (Hm : (dm, u, v) ∈ pq) by (rewrite Hperm; by left).
  destruct (P4 _ Hm) as (e & Heq & He & Hsrc).
  unfold item_of in Heq. injection Heq as _ -> ->.
  destruct (find_dst_elem _ e He) as (e0 & Hfind & He0 & Hd0).
  assert (Hs0 : src e0 = src e) by (by apply (wf_src g Hwf)).
  exists e0. split; [done|]. split; [done|]. split; [done|]. split; [done|].
  split; [done|].
  split; [set_solver|]. split; [|split; [|split]].
  - intros x [Hx|Hx]%elem_of_union.
    + apply elem_of_singleton in Hx as ->.
      eapply rtc_r; [apply tree_conn_snoc, P2, Hsrc|].
      exists e0. split; [set_solver|]. left. done.
    + by apply tree_conn_snoc, P2.
  - intros a e' Ha He' Hd'. apply prim_push_fold.
    apply elem_of_union in Ha as [Ha|Ha].
    + apply elem_of_singleton in Ha as ->. right. by exists e'.
    + left. assert (Hd'' : dst e' ∉ vis) by set_solver.
      specialize (P3 a e' Ha He' Hd''). rewrite Hperm in P3.
      apply elem_of_cons in P3 as [Heq|?]; [|done].
      unfold item_of in Heq. injection Heq as _ _ Hdst. set_solver.
  - intros x [Hx|(e' & He' & Hd' & ->)]%prim_push_fold.
    + destruct (P4 x (Hin1 x Hx)) as (e' & ? & ? & ?). exists e'. set_solver.
    + exists e'. split; [done|].
      assert (src e' = dst e) as Hs' by (by apply (wf_src g Hwf)).
      rewrite Hs'. split; [done|set_solver].
  - intros x [Hx|Hx]%elem_of_union; [|by apply P5].
    apply elem_of_singleton in Hx as ->.
    eapply (wf_cities g Hwf), elem_of_adj_get, He.
Qed.

Lemma prim_tree_step vis mst e0 :
  prim_tree g start vis mst → start ∈ vis →
  e0 ∈ adj_get (adj g) (src e0) → src e0 ∈ vis → dst e0 ∉ vis →
  prim_tree g start ({[dst e0]} ∪ vis) (mst ++ [e0]).
Proof using Type.
  intros (T1 & T2 & T3 & T4 & T5 & T6) Hs He Hu Hv.
  unfold prim_tree. rewrite map_app. cbn [map].
  split; [|split; [|split; [|split; [|split]]]].
  - intros x. rewrite elem_of_union, elem_of_singleton, T1, elem_of_app,
      list_elem_of_singleton. naive_solver.
  - apply NoDup_app. split; [done|]. split; [|apply NoDup_singleton].
    intros x Hx ->%list_elem_of_singleton. apply Hv, T1. by right.
  - intros [Hin| ->%list_elem_of_singleton]%elem_of_app; [done|]. done.
  - intros l1 e l2 Heq. destruct l2 as [|z l2 _] using rev_ind.
    + apply app_inj_tail in Heq as [<- <-]. by apply T1.
    + rewrite app_comm_cons, app_assoc in Heq.
      apply app_inj_tail in Heq as [-> _]. by eapply T4.
  - intros e [Hin| ->%list_elem_of_singleton]%elem_of_app; [by apply T5|done].
  - intros x [->%elem_of_singleton|Hx]%elem_of_union; [|by apply T6].
    eapply rtc_r; [apply T6, Hu|]. apply graph_nbrs_edge. by exists e0.
Qed.

Lemma prim_loop_tree fuel pq vis mst mst' :
  prim_loop fuel g pq vis mst = Some mst' →
  prim_inv g start pq vis mst → prim_tree g start vis mst →
  ∃ vis', prim_tree g start vis' mst'.
Proof using Hwf.
  revert pq vis mst. induction fuel as [|fuel IH]; intros pq vis mst; [done|].
  intros Hloop Hinv Htree. simpl in Hloop.
  destruct pq as [|x0 pq0] eqn:Hpq.
  { injection Hloop as <-. by exists vis. }
  rewrite <-Hpq in *. clear Hpq x0 pq0.
  destruct (size vis <? size (cities g)); [|injection Hloop as <-; by exists vis].
  destruct (heappop pq) as [[[[dm u] v] pq1]|] eqn:Hpop;
    [|injection Hloop as <-; by exists vis].
  destruct (decide (v ∈ vis)) as [Hv|Hv].
  { apply (IH _ _ _ Hloop); [|done]. by eapply prim_inv_skip. }
  destruct (prim_inv_step _ _ _ _ _ _ _ Hinv Hpop Hv)
    as (e0 & Hfind & He0 & Hsrc & Hdst & Hu & Hinv').
  rewrite Hfind in Hloop. apply (IH _ _ _ Hloop); [done|].
  rewrite <-Hdst. apply prim_tree_step; try done.
  - by destruct Hinv.
  - by rewrite Hsrc.
  - by rewrite Hsrc.
  - by rewrite Hdst.
Qed.
End prim_tree.

(** X21.  On a graph the program has built, [prim_mst_edges] returns a tree
    rooted at [start]: every edge is an edge of the graph; every edge leaves
    [start] or the destination of an earlier edge; no location is the
    destination of two edges and [start] of none; the destinations are
    exactly the other locations that can be reached from [start]; so the
    tree has fewer edges than the graph has cities. *)
Theorem prim_tree_shape (g : Graph) (start : string) :
  built g →
  ∃ mst, prim_mst_edges g start = Some mst ∧
    (∀ e, e ∈ mst → e ∈ adj_get (adj g) (src e)) ∧
    (∀ l1 e l2, mst = l1 ++ e :: l2 → src e = start ∨ src e ∈ map dst l1) ∧
    NoDup (map dst mst) ∧ (start ∉ map dst mst) ∧
    (∀ d, d = start ∨ d ∈ map dst mst ↔ reachable g start d) ∧
    (is_Some (cities g !! start) → length mst < size (cities g)) ∧
    (cities g !! start = None → mst = []).
Proof.
  intros Hwf%built_wf.
  destruct (prim_mst_edges_spec g start) as (mst & Hmst & Hsub).
  exists mst. split; [done|].
  assert (Htree : ∃ vis, prim_tree g start vis mst).
  { unfold prim_mst_edges in Hmst. destruct (cities g !! start) as [c|] eqn:Hc.
    2:{ injection Hmst as <-. exists {[start]}.
        split; [intros x; rewrite elem_of_singleton; simpl; set_solver|].
        split; [constructor|]. split; [by intros ?%elem_of_nil|].
        split; [by intros [] ???|]. split; [by intros e ?%elem_of_nil|].
        intros x ->%elem_of_singleton. apply rtc_refl. }
    eapply (prim_loop_tree g start Hwf); [exact Hmst| |].
    - assert (Hpq : ∀ (es : list Edge) pq x,
        x ∈ foldl (λ pq e, heappush pq (item_of e)) pq es ↔
        x ∈ pq ∨ ∃ e, e ∈ es ∧ x = item_of e).
      { induction es as [|e es IHes]; intros pq x; simpl.
        - split; [by left|]. intros [?|(e & ?%elem_of_nil & _)]; done.
        - rewrite IHes. unfold heappush. rewrite elem_of_app, list_elem_of_singleton.
          split.
          + intros [[?| ->]|(e' & ? & ?)]; [by left| |].
            * right. exists e. split; [by left|done].
            * right. exists e'. split; [by right|done].
          + intros [?|(e' & [->|?]%elem_of_cons & ->)]; [by left; left|by left; right|].
            right. by exists e'. }
      split; [set_solver|]. split; [|split; [|split]].
      + intros v ->%elem_of_singleton. apply rtc_refl.
      + intros u e ->%elem_of_singleton He _. apply Hpq. right. by exists e.
      + intros x [?%elem_of_nil|(e & He & ->)]%Hpq; [done|].
        exists e. split; [done|].
        assert (src e = start) as -> by (by apply (wf_src g Hwf)).
        split; [done|set_solver].
      + intros v ->%elem_of_singleton. by eexists.
    - split; [intros x; rewrite elem_of_singleton; simpl; set_solver|].
      split; [constructor|]. split; [by intros ?%elem_of_nil|].
      split; [by intros [] ???|]. split; [by intros e ?%elem_of_nil|].
      intros x ->%elem_of_singleton. apply rtc_refl. }
  destruct Htree as (vis & T1 & T2 & T3 & T4 & T5 & T6).
  split; [done|]. split; [done|]. split; [done|]. split; [done|].
  assert (Hdst : ∀ x, x ∈ map dst mst → is_Some (cities g !! x)).
  { intros x (e & -> & He)%list_elem_of_fmap. by apply (wf_cities g Hwf), Hsub. }
  split; [|split].
  - intros d. split.
    + intros Hd. by apply T6, T1.
    + intros Hreach. pose proof (prim_mst_complete g start Hwf mst d Hmst Hreach) as Hconn.
      assert (Hcl : ∀ a b, tree_conn mst a b →
                a = start ∨ a ∈ map dst mst → b = start ∨ b ∈ map dst mst).
      { induction 1 as [|a b c (e & He & Hab) _ IH]; [done|].
        intros Ha. apply IH.
        apply list_elem_of_split in He as (l1 & l2 & Hsplit).
        destruct Hab as [[<- <-]|[<- <-]].
        - right. rewrite Hsplit, map_app. set_solver.
        - destruct (T4 _ _ _ Hsplit) as [?|Hin]; [by left|right].
          rewrite Hsplit, map_app. set_solver. }
      apply (Hcl _ _ Hconn). by left.
  - intros Hs.
    assert (Hle : size (list_to_set (C := gset string) (map dst mst))
                  < size (dom (cities g))).
    { apply subset_size. apply strict_spec_alt. split.
      - intros x Hx%elem_of_list_to_set. by apply elem_of_dom, Hdst.
      - intros Heq. apply T3.
        assert (Hin : start ∈ list_to_set (C := gset string) (map dst mst))
          by (rewrite Heq; by apply elem_of_dom).
        by apply elem_of_list_to_set in Hin. }
    rewrite size_list_to_set, length_map, size_dom in Hle by done. done.
  - intros Hnone. unfold prim_mst_edges in Hmst. rewrite Hnone in Hmst.
    by injection Hmst as <-.
Qed.

Lemma prim_tree_shape_witness :
  let g := add_bidir_edge
             (add_bidir_edge
                (add_c (add_c (add_c Graph_init (mkCity "A" "a" "s" (Some 0%Q)))
                              (mkCity "B" "b" "s" (Some 100%Q)))
                       (mkCity "C" "c" "s" (Some 50%Q)))
                "A" "B" 10)
             "B" "C" 5 in
  ∃ mst, prim_mst_edges g "A" = Some mst ∧
    (∀ e, e ∈ mst → e ∈ adj_get (adj g) (src e)) ∧
    (∀ l1 e l2, mst = l1 ++ e :: l2 → src e = "A" ∨ src e ∈ map dst l1) ∧
    NoDup (map dst mst) ∧ ("A" ∉ map dst mst) ∧
    (∀ d, d = "A" ∨ d ∈ map dst mst ↔ reachable g "A" d) ∧
    (is_Some (cities g !! "A") → length mst < size (cities g)) ∧
    (cities g !! "A" = None → mst = []).
Proof.
  intros g. apply (prim_tree_shape g "A"). repeat constructor.
Defined.

(** ** The shape of Kruskal's forest *)

Lemma StronglySorted_sublist {A} (R : A → A → Prop) l1 l2 :
  l1 `sublist_of` l2 → StronglySorted R l2 → StronglySorted R l1.
Proof.
  induction 1 as [|x l1 l2 Hsub IH|x l1 l2 Hsub IH]; intros Hs; [constructor| |].
  - apply StronglySorted_inv in Hs as [Hs Hx]. constructor; [by apply IH|].
    apply Forall_forall. intros y Hy. rewrite Forall_forall in Hx.
    apply Hx. by eapply elem_of_sublist.
  - apply StronglySorted_inv in Hs as [Hs _]. by apply IH.
Qed.

Lemma StronglySorted_weaken {A} (R R' : A → A → Prop) l :
  (∀ a b, R a b → R' a b) → StronglySorted R l → StronglySorted R' l.
Proof.
  intros HR. induction 1 as [|x l Hs IH Hx]; constructor; [done|].
  eapply Forall_impl; [exact Hx|]. auto.
Qed.

Lemma dedupe_nodup es seen edges :
  (∀ k, k ∈ seen ↔ k ∈ map edge_key edges) → NoDup (map edge_key edges) →
  NoDup (map edge_key (foldl dedupe_step (seen, edges) es).2).
Proof.
  revert seen edges. induction es as [|e es IH]; intros seen edges Hseen Hnd; [done|].
  cbn [foldl]. unfold dedupe_step at 2.
  destruct (decide (edge_key e ∈ seen)) as [Hin|Hin]; [by apply IH|].
  apply IH.
  - intros k. rewrite map_app, elem_of_app, elem_of_union, elem_of_singleton, Hseen.
    simpl. rewrite list_elem_of_singleton. tauto.
  - rewrite map_app. apply NoDup_app. split; [done|]. split; [|apply NoDup_singleton].
    intros k Hk ->%list_elem_of_singleton. by apply Hin, Hseen.
Qed.

Lemma kruskal_step_mst fuel parent rank mst e parent' rank' mst' :
  kruskal_step fuel (Some (parent, rank, mst)) e = Some (parent', rank', mst') →
  mst' = mst ++ [e] ∨ mst' = mst.
Proof.
  unfold kruskal_step. simpl.
  destruct (uf_find fuel parent (src e)) as [[p1 r1]|]; [|done]. simpl.
  destruct (uf_find fuel p1 (dst e)) as [[p2 r2]|]; [|done]. simpl.
  destruct (decide (r1 ≠ r2)).
  - destruct (uf_union _ _ _ _ _) as [[p3 rk3]|]; [|done]. simpl.
    intros [= <- <- <-]. by left.
  - intros [= <- <- <-]. by right.
Qed.

Lemma kruskal_fold_sublist fuel es parent rank mst parent' rank' mst' :
  foldl (kruskal_step fuel) (Some (parent, rank, mst)) es
    = Some (parent', rank', mst') →
  ∃ l, mst' = mst ++ l ∧ l `sublist_of` es.
Proof.
  revert parent rank mst. induction es as [|e es IH]; intros parent rank mst.
  { simpl. intros [= <- <- <-]. exists []. by rewrite app_nil_r. }
  cbn [foldl].
  destruct (kruskal_step fuel (Some (parent, rank, mst)) e) as [[[p1 rk1] m1]|] eqn:Hstep.
  2:{ by rewrite kruskal_fold_None. }
  intros Hfold. destruct (IH _ _ _ Hfold) as (l & -> & Hl).
  apply kruskal_step_mst in Hstep as [-> | ->].
  - exists (e :: l). rewrite <-app_assoc. split; [done|]. by constructor.
  - exists l. split; [done|]. by constructor.
Qed.

Lemma tree_conn_reachable g mst a b :
  graph_wf g → (∀ e, e ∈ mst → e ∈ all_edges (adj g)) →
  tree_conn mst a b → reachable g a b.
Proof.
  intros Hwf Hsub. induction 1 as [|x y z (e & He & Hxy) _ IH]; [apply rtc_refl|].
  eapply rtc_l; [|exact IH]. apply Hsub in He.
  destruct Hxy as [[<- <-]|[<- <-]].
  - apply graph_nbrs_edge. exists e. split; [by apply (wf_listed g Hwf)|done].
  - destruct (wf_sym g Hwf e He) as (e' & He' & Hd).
    apply graph_nbrs_edge. by exists e'.
Qed.

(** X22.  On a graph the program has built, [kruskal_mst_edges] returns
    edges of the graph in ascending order of cost, at most one for each
    unordered pair of locations, and the edges join exactly the pairs of
    locations that the graph joins. *)
Theorem kruskal_edges_order (g : Graph) :
  built g →
  ∃ mst, kruskal_mst_edges g = Some mst ∧
    (∀ e, e ∈ mst → e ∈ all_edges (adj g)) ∧
    StronglySorted (λ a b, (real_dist a <= real_dist b)%Q) mst ∧
    NoDup (map edge_key mst) ∧
    (∀ s d, tree_conn mst s d ↔ reachable g s d).
Proof.
  intros Hwf%built_wf.
  destruct (kruskal_mst_edges_spec g Hwf) as (mst & Hmst & Hsub).
  exists mst. split; [done|]. split; [done|].
  assert (Hsl : mst `sublist_of`
            py_sort (λ x y, Qle_bool (real_dist x) (real_dist y))
                    (foldl dedupe_step (∅, []) (all_edges (adj g))).2).
  { unfold kruskal_mst_edges in Hmst.
    destruct (foldl (kruskal_step _) _ _) as [[[p rk] m]|] eqn:Hfold; [|done].
    simpl in Hmst. injection Hmst as ->.
    by apply kruskal_fold_sublist in Hfold as (l & -> & Hl). }
  split; [|split].
  - eapply StronglySorted_sublist; [exact Hsl|].
    eapply StronglySorted_weaken;
      [|apply (py_sort_sorted (λ x y : Edge, Qle_bool (real_dist x) (real_dist y)))].
    + intros a b Hab. by apply Qle_bool_iff.
    + intros x y. destruct (Qlt_le_dec (real_dist y) (real_dist x)) as [Hlt|Hle].
      * right. apply Qle_bool_iff. lra.
      * left. by apply Qle_bool_iff.
    + intros x y z ?%Qle_bool_iff ?%Qle_bool_iff. apply Qle_bool_iff. lra.
  - eapply sublist_NoDup; [|apply fmap_sublist, Hsl].
    change (fmap edge_key) with (map edge_key).
    rewrite py_sort_perm. apply dedupe_nodup; [set_solver|constructor].
  - intros s d. split.
    + by apply tree_conn_reachable.
    + by apply kruskal_mst_complete.
Qed.

Lemma kruskal_edges_order_witness :
  let g := add_bidir_edge
             (add_bidir_edge
                (add_c (add_c (add_c Graph_init (mkCity "A" "a" "s" (Some 0%Q)))
                              (mkCity "B" "b" "s" (Some 100%Q)))
                       (mkCity "C" "c" "s" (Some 50%Q)))
                "A" "B" 10)
             "B" "C" 5 in
  ∃ mst, kruskal_mst_edges g = Some mst ∧
    (∀ e, e ∈ mst → e ∈ all_edges (adj g)) ∧
    StronglySorted (λ a b, (real_dist a <= real_dist b)%Q) mst ∧
    NoDup (map edge_key mst) ∧
    (∀ s d, tree_conn mst s d ↔ reachable g s d).
Proof.
  intros g. apply (kruskal_edges_order g). repeat constructor.
Defined.

(** ** Kruskal's forest has no cycle *)

Lemma uf_root_fixed (parent : gmap string string) x r :
  parent !! x = Some x → rtc (λ a b, parent !! a = Some b) x r → r = x.
Proof.
  intros Hx Hc. induction Hc as [|x y z Hxy _ IH]; [done|].
  rewrite Hx in Hxy. injection Hxy as <-. by apply IH.
Qed.

Lemma uf_root_unique parent x r r' :
  uf_root parent x r → uf_root parent x r' → r = r'.
Proof.
  intros [Hc Hr]. revert r'. induction Hc as [x|x y z Hxy _ IH]; intros r' [Hc' Hr'].
  - symmetry. by eapply uf_root_fixed.
  - inversion Hc' as [|? y' ? Hxy' Hyz']; subst.
    + rewrite Hr' in Hxy. injection Hxy as <-. by apply IH.
    + rewrite Hxy in Hxy'. injection Hxy' as <-. by apply IH.
Qed.

Lemma uf_root_compress parent x r y ry :
  uf_root parent x r → uf_root parent y ry → uf_root (<[x := r]> parent) y ry.
Proof.
  intros Hx [Hc Hr]. split.
  - induction Hc as [y|y y' z Hyy' Hc IH]; [apply rtc_refl|].
    destruct (decide (y = x)) as [->|Hne].
    + assert (r = z) as ->.
      { apply (uf_root_unique parent x); [done|]. split; [|done]. by eapply rtc_l. }
      apply rtc_once. by rewrite lookup_insert_eq.
    + eapply rtc_l; [by rewrite lookup_insert_ne|]. by apply IH.
  - destruct (decide (ry = x)) as [->|Hne]; [|by rewrite lookup_insert_ne].
    rewrite lookup_insert_eq. f_equal.
    apply (uf_root_unique parent x); [done|]. split; [apply rtc_refl|done].
Qed.

Lemma uf_find_root fuel parent x parent' r :
  uf_find fuel parent x = Some (parent', r) →
  uf_root parent x r ∧ ∀ y ry, uf_root parent y ry → uf_root parent' y ry.
Proof.
  revert parent x parent' r. induction fuel as [|f IH]; intros parent x parent' r; [done|].
  simpl. destruct (parent !! x) as [p|] eqn:Hp; [|done]. simpl.
  destruct (decide (p ≠ x)) as [Hne|Heq].
  - destruct (uf_find f parent p) as [[p1 r1]|] eqn:Hf; [|done]. simpl.
    intros [= <- <-]. destruct (IH _ _ _ _ Hf) as [[Hc Hr] Hpres].
    assert (Hx : uf_root parent x r1) by (split; [by eapply rtc_l|done]).
    split; [done|]. intros y ry Hy. apply uf_root_compress; by apply Hpres.
  - apply dec_stable in Heq as ->. intros [= <- <-].
    split; [|done]. split; [apply rtc_refl|done].
Qed.

Lemma uf_root_link (parent : gmap string string) ra rb y ry :
  parent !! ra = Some ra → parent !! rb = Some rb → ra ≠ rb →
  uf_root parent y ry →
  uf_root (<[ra := rb]> parent) y (if decide (ry = ra) then rb else ry).
Proof.
  intros Ha Hb Hne [Hc Hr]. split.
  - induction Hc as [y|y y' z Hyy' Hc IH].
    + destruct (decide (y = ra)) as [->|Hy]; [|apply rtc_refl].
      apply rtc_once. by rewrite lookup_insert_eq.
    + destruct (decide (y = ra)) as [->|Hy].
      * rewrite Ha in Hyy'. injection Hyy' as <-. by apply IH.
      * eapply rtc_l; [by rewrite lookup_insert_ne|]. by apply IH.
  - destruct (decide (ry = ra)) as [->|Hy].
    + by rewrite lookup_insert_ne.
    + by rewrite lookup_insert_ne.
Qed.

Lemma same_class_link (parent : gmap string string) ra rb a b :
  parent !! ra = Some ra → parent !! rb = Some rb → ra ≠ rb →
  (∀ x y, same_class parent x y → same_class (<[ra := rb]> parent) x y) ∧
  (uf_root parent a ra → uf_root parent b rb →
   same_class (<[ra := rb]> parent) a b ∧ same_class (<[ra := rb]> parent) b a).
Proof.
  intros Ha Hb Hne. split.
  - intros x y (r & Hx & Hy). eexists. split; by apply uf_root_link.
  - intros Hra Hrb.
    pose proof (uf_root_link parent ra rb a ra Ha Hb Hne Hra) as H1.
    pose proof (uf_root_link parent ra rb b rb Ha Hb Hne Hrb) as H2.
    rewrite decide_True in H1 by done. rewrite decide_False in H2 by done.
    split; by exists rb.
Qed.

Lemma uf_union_class fuel parent rank a b parent' rank' :
  uf_union fuel parent rank a b = Some (parent', rank') →
  (∀ x y, same_class parent x y → same_class parent' x y) ∧
  same_class parent' a b.
Proof.
  unfold uf_union.
  destruct (uf_find fuel parent a) as [[p1 ra]|] eqn:Hfa; [|done]. simpl.
  destruct (uf_find fuel p1 b) as [[p2 rb]|] eqn:Hfb; [|done]. simpl.
  destruct (uf_find_root _ _ _ _ _ Hfa) as [Hra Hpres1].
  destruct (uf_find_root _ _ _ _ _ Hfb) as [Hrb Hpres2].
  assert (Hra2 : uf_root p2 a ra) by (by apply Hpres2, Hpres1).
  assert (Hrb2 : uf_root p2 b rb) by (by apply Hpres2).
  assert (Hcl : ∀ x y, same_class parent x y → same_class p2 x y).
  { intros x y (r & Hx & Hy). exists r. split; by apply Hpres2, Hpres1. }
  pose proof (proj2 Hra2) as Ha. pose proof (proj2 Hrb2) as Hb.
  destruct (decide (ra ≠ rb)) as [Hne|Heq].
  - destruct (rank !! ra) as [rka|]; [|done]. simpl.
    destruct (rank !! rb) as [rkb|]; [|done]. simpl.
    destruct (same_class_link p2 ra rb a b Ha Hb Hne) as [L1 L2].
    destruct (same_class_link p2 rb ra b a Hb Ha ltac:(done)) as [R1 R2].
    destruct (rka <? rkb); [|destruct (rkb <? rka)]; intros [= <- <-].
    + split; [auto|]. by apply L2.
    + split; [auto|]. by apply R2.
    + split; [auto|]. by apply R2.
  - apply dec_stable in Heq as ->. intros [= <- <-]. split; [done|]. by exists rb.
Qed.

Lemma same_class_trans parent a b c :
  same_class parent a b → same_class parent b c → same_class parent a c.
Proof.
  intros (r & Ha & Hb) (r' & Hb' & Hc).
  rewrite (uf_root_unique _ _ _ _ Hb Hb') in Ha. by exists r'.
Qed.

Lemma same_class_sym parent a b : same_class parent a b → same_class parent b a.
Proof. intros (r & ? & ?). by exists r. Qed.

Lemma uf_covers_snoc parent mst e :
  uf_covers parent mst → same_class parent (src e) (dst e) →
  uf_covers parent (mst ++ [e]).
Proof.
  intros K Hsd a b Hconn.
  induction Hconn as [|a a' b (e0 & He0 & Hseg) _ IH]; [by left|].
  assert (Haa' : a = a' ∨ same_class parent a a').
  { apply elem_of_app in He0 as [He0|He0].
    - apply K. apply rtc_once. by exists e0.
    - apply list_elem_of_singleton in He0 as ->. right. destruct Hseg as [[<- <-]|[<- <-]]; [done|by apply same_class_sym]. }
  destruct Haa' as [->|Haa']; [done|]. right.
  destruct IH as [<-|IH]; [done|]. by eapply same_class_trans.
Qed.

Lemma kruskal_fold_forest fuel es parent rank mst parent' rank' mst' :
  foldl (kruskal_step fuel) (Some (parent, rank, mst)) es
    = Some (parent', rank', mst') →
  uf_covers parent mst →
  ∃ l, mst' = mst ++ l ∧
    ∀ l1 e l2, l = l1 ++ e :: l2 → ¬ tree_conn (mst ++ l1) (src e) (dst e).
Proof.
  revert parent rank mst. induction es as [|e es IH]; intros parent rank mst.
  { simpl. intros [= <- <- <-] _. exists []. split; [by rewrite app_nil_r|].
    by intros [] ???. }
  cbn [foldl]. unfold kruskal_step at 2. cbn [mbind option_bind].
  destruct (uf_find fuel parent (src e)) as [[p1 r1]|] eqn:Hf1;
    [|by rewrite kruskal_fold_None].
  cbn [mbind option_bind].
  destruct (uf_find fuel p1 (dst e)) as [[p2 r2]|] eqn:Hf2;
    [|by rewrite kruskal_fold_None].
  cbn [mbind option_bind].
  destruct (uf_find_root _ _ _ _ _ Hf1) as [Hr1 Hpres1].
  destruct (uf_find_root _ _ _ _ _ Hf2) as [Hr2 Hpres2].
  assert (Hcl : ∀ x y, same_class parent x y → same_class p2 x y).
  { intros x y (r & Hx & Hy). exists r. split; by apply Hpres2, Hpres1. }
  destruct (decide (r1 ≠ r2)) as [Hne|Heq].
  - destruct (uf_union fuel p2 rank (src e) (dst e)) as [[p3 rk3]|] eqn:Hu;
      [|by rewrite kruskal_fold_None].
    cbn [mbind option_bind]. intros Hfold K.
    destruct (uf_union_class _ _ _ _ _ _ _ Hu) as [Hcl3 Hsd].
    destruct (IH _ _ _ Hfold) as (l & -> & Hl).
    { apply uf_covers_snoc; [|done]. intros a b Hab.
      destruct (K a b Hab) as [?|?]; [by left|right; auto]. }
    exists (e :: l). rewrite <-app_assoc. split; [done|].
    intros l1 e0 l2 Heq. destruct l1 as [|x l1]; simpl in Heq.
    + injection Heq as <- _. rewrite app_nil_r. intros Hconn.
      apply Hne. destruct (K _ _ Hconn) as [Hsame|(r & Hs & Hd)].
      * apply (uf_root_unique p1 (dst e)); [|done]. rewrite <-Hsame. by apply Hpres1.
      * rewrite (uf_root_unique _ _ _ _ Hr1 Hs).
        apply (uf_root_unique p1 (dst e)); [by apply Hpres1|done].
    + injection Heq as <- Heq. specialize (Hl _ _ _ Heq).
      by rewrite <-app_assoc in Hl.
  - intros Hfold K. apply (IH _ _ _ Hfold).
    intros a b Hab. destruct (K a b Hab) as [?|?]; [by left|right; auto].
Qed.

(** X23.  On a graph the program has built, [kruskal_mst_edges] never
    closes a cycle: no edge it returns joins two locations that the edges
    returned before it already join.  In particular it returns no edge from
    a location to itself. *)
Theorem kruskal_never_closes_cycle (g : Graph) :
  built g →
  ∃ mst, kruskal_mst_edges g = Some mst ∧
    (∀ l1 e l2, mst = l1 ++ e :: l2 → ¬ tree_conn l1 (src e) (dst e)) ∧
    (∀ e, e ∈ mst → src e ≠ dst e).
Proof.
  intros Hwf%built_wf.
  destruct (kruskal_mst_edges_spec g Hwf) as (mst & Hmst & _).
  exists mst. split; [done|].
  assert (Hforest : ∀ l1 e l2, mst = l1 ++ e :: l2 → ¬ tree_conn l1 (src e) (dst e)).
  { unfold kruskal_mst_edges in Hmst.
    destruct (foldl (kruskal_step _) _ _) as [[[p rk] m]|] eqn:Hfold; [|done].
    simpl in Hmst. injection Hmst as ->.
    apply kruskal_fold_forest in Hfold as (l & -> & Hl); [done|].
    intros a b Hab. left. induction Hab as [|a a' b (e0 & ?%elem_of_nil & _) _ _]; done. }
  split; [done|].
  intros e (l1 & l2 & Hsplit)%list_elem_of_split Heq.
  apply (Hforest _ _ _ Hsplit). rewrite Heq. apply rtc_refl.
Qed.

Lemma kruskal_never_closes_cycle_witness :
  let g := add_bidir_edge
             (add_bidir_edge
                (add_bidir_edge
                   (add_c (add_c (add_c Graph_init (mkCity "A" "a" "s" (Some 0%Q)))
                                 (mkCity "B" "b" "s" (Some 0%Q)))
                          (mkCity "C" "c" "s" (Some 0%Q)))
                   "A" "B" 1)
                "B" "C" 2)
             "A" "C" 3 in
  ∃ mst, kruskal_mst_edges g = Some mst ∧
    (∀ l1 e l2, mst = l1 ++ e :: l2 → ¬ tree_conn l1 (src e) (dst e)) ∧
    (∀ e, e ∈ mst → src e ≠ dst e).
Proof.
  intros g. apply (kruskal_never_closes_cycle g). repeat constructor.
Defined.

(** ** Breadth-first search finds a route with the fewest segments *)

Lemma StronglySorted_weaken_elem {A} (R R' : A → A → Prop) l :
  (∀ a b, a ∈ l → b ∈ l → R a b → R' a b) →
  StronglySorted R l → StronglySorted R' l.
Proof.
  intros HR Hs. induction Hs as [|x l Hs IH Hx]; constructor.
  - apply IH. intros a b Ha Hb. apply HR; by right.
  - rewrite Forall_forall in *. intros y Hy. apply HR; [by left|by right|by apply Hx].
Qed.

Section bfs_levels.
Variables (nbrs : string → list string) (start dest : string).

Lemma bfs_fold_levels h u vs q vis par dep :
  bfs_levels nbrs start h (Some u) q vis par dep →
  u ∈ vis → bfs_dp dep u = h → (∀ v, v ∈ vs → v ∈ nbrs u) →
  ∃ q2 vis2 par2 dep2,
    foldl (bfs_visit u) (q, vis, par) vs = (q2, vis2, par2) ∧
    bfs_levels nbrs start h (Some u) q2 vis2 par2 dep2 ∧
    u ∈ vis2 ∧ bfs_dp dep2 u = h ∧ (∀ v, v ∈ vs → v ∈ vis2).
Proof using Type.
  revert q vis par dep. induction vs as [|v vs IH]; intros q vis par dep Hinv Hu Hdu Hvs.
  { simpl. eexists _, _, _, _. split; [done|]. split; [done|].
    split; [done|]. split; [done|]. by intros v ?%elem_of_nil. }
  cbn [foldl]. unfold bfs_visit at 2.
  destruct (decide (v ∈ vis)) as [Hv|Hv].
  { destruct (IH q vis par dep Hinv Hu Hdu) as (q2 & vis2 & par2 & dep2 & Hf & Hinv2 & Hu2 & Hdu2 & Hall).
    { intros w Hw. apply Hvs. by right. }
    exists q2, vis2, par2, dep2. split; [done|]. split; [done|]. split; [done|].
    split; [done|]. intros w [->|Hw]%elem_of_cons; [|by apply Hall].
    destruct Hinv2 as (Hd2 & _).
    assert (Hsub : vis ⊆ vis2).
    { destruct (bfs_fold_closed _ _ _ _ _ _ _ _ Hf) as (_ & ? & _); [|done].
      by destruct Hinv as (_ & ? & _). }
    by apply Hsub. }
  destruct Hinv as (I1 & I2 & I3 & I4 & I5 & I6 & I7 & I8 & I9 & I10).
  assert (Hvn : v ∈ nbrs u) by (apply Hvs; by left).
  assert (Hdp : ∀ x, x ≠ v → bfs_dp (<[v := S h]> dep) x = bfs_dp dep x).
  { intros x Hx. unfold bfs_dp. by rewrite lookup_insert_ne. }
  assert (Hdv : bfs_dp (<[v := S h]> dep) v = S h).
  { unfold bfs_dp. by rewrite lookup_insert_eq. }
  assert (Hne : ∀ x, x ∈ vis → x ≠ v) by (intros x Hx ->; done).
  destruct (IH (q ++ [v]) ({[v]} ∪ vis) (<[v := Some u]> par) (<[v := S h]> dep))
    as (q2 & vis2 & par2 & dep2 & Hf & Hinv2 & Hu2 & Hdu2 & Hall).
  - split; [by rewrite dom_insert_L, I1|]. split; [by rewrite dom_insert_L, I2|].
    split; [set_solver|]. split; [rewrite Hdp; [done|by apply Hne]|].
    split; [|split; [|split; [|split; [|split]]]].
    + intros w [Hw|Hw]%elem_of_union.
      * apply elem_of_singleton in Hw as ->.
        destruct (I5 u Hu) as (p & Hc & Hlen & Hnd & Hp).
        assert (Hvp : v ∉ p) by (intros Hin; apply Hv; by apply Hp).
        exists (v :: p). split; [|split; [|split]].
        -- apply (chain_step _ _ _ v u p); [by apply not_eq_sym, Hne|
             by rewrite lookup_insert_eq|done|by apply chain_insert_fresh].
        -- simpl. by rewrite Hlen, Hdv, Hdu.
        -- by constructor.
        -- intros x [->|Hx]%elem_of_cons; set_solver.
      * destruct (I5 w Hw) as (p & Hc & Hlen & Hnd & Hp).
        assert (Hvp : v ∉ p) by (intros Hin; apply Hv; by apply Hp).
        exists p. split; [by apply chain_insert_fresh|].
        split; [by rewrite Hdp by (by apply Hne)|]. split; [done|]. set_solver.
    + intros x [Hx|Hx]%elem_of_app; [set_solver|].
      apply list_elem_of_singleton in Hx as ->. set_solver.
    + apply StronglySorted_app_2.
      * intros x1 x2 Hx1 ->%list_elem_of_singleton.
        rewrite Hdv, Hdp by (by apply Hne, I6). specialize (I9 x1 (I6 x1 Hx1)). lia.
      * eapply StronglySorted_weaken_elem; [|exact I7].
        intros a b Ha Hb Hab. cbn beta in *.
        by rewrite !Hdp by (by apply Hne, I6).
      * repeat constructor.
    + intros y [Hy|Hy]%elem_of_app.
      * rewrite Hdp by (by apply Hne, I6). by apply I8.
      * apply list_elem_of_singleton in Hy as ->. rewrite Hdv. lia.
    + intros w [Hw|Hw]%elem_of_union.
      * apply elem_of_singleton in Hw as ->. rewrite Hdv. lia.
      * rewrite Hdp by (by apply Hne). by apply I9.
    + intros x Hx Hxq Hxu w Hw.
      assert (Hxv : x ≠ v) by (intros ->; apply Hxq; set_solver).
      assert (Hxvis : x ∈ vis) by set_solver.
      destruct (I10 x Hxvis ltac:(set_solver) Hxu w Hw) as [Hwv Hwd].
      split; [set_solver|]. by rewrite !Hdp by (by apply Hne).
  - set_solver.
  - rewrite Hdp; [done|by apply Hne].
  - intros w Hw. apply Hvs. by right.
  - exists q2, vis2, par2, dep2. split; [done|]. split; [done|]. split; [done|].
    split; [done|]. intros w [->|Hw]%elem_of_cons; [|by apply Hall].
    assert (Hsub : {[v]} ∪ vis ⊆ vis2).
    { destruct (bfs_fold_closed _ _ _ _ _ _ _ _ Hf) as (_ & ? & _); [|done].
      by rewrite dom_insert_L, I2. }
    apply Hsub. set_solver.
Qed.

Lemma bfs_levels_exit h q vis par dep :
  bfs_levels nbrs start h None q vis par dep →
  (q = [] ∨ ∃ q', q = dest :: q') → dest ∈ vis →
  ∀ r x, head r = Some x → last r = Some dest →
    (∀ a b, (a, b) ∈ segments r → b ∈ nbrs a) → x ∈ vis →
    bfs_dp dep dest + 1 ≤ bfs_dp dep x + length r.
Proof using Type.
  intros (I1 & I2 & I3 & I4 & I5 & I6 & I7 & I8 & I9 & I10) Hq Hdest.
  induction r as [|y r IH]; intros x Hhd Hlast Hseg Hx; [done|].
  simpl in Hhd. injection Hhd as ->.
  destruct (decide (x ∈ q)) as [Hxq|Hxq].
  { destruct Hq as [->|(q' & ->)]; [by apply elem_of_nil in Hxq|].
    apply elem_of_cons in Hxq as [->|Hxq]; [simpl; lia|].
    apply StronglySorted_inv in I7 as [_ Hall]. rewrite Forall_forall in Hall.
    specialize (Hall x Hxq). simpl. lia. }
  destruct r as [|z r].
  { simpl in Hlast. injection Hlast as ->. simpl. lia. }
  destruct (I10 x Hx Hxq ltac:(done) z) as [Hz Hdz].
  { apply Hseg. rewrite segments_cons. by left. }
  specialize (IH z eq_refl Hlast).
  assert (bfs_dp dep dest + 1 ≤ bfs_dp dep z + length (z :: r)).
  { apply IH; [|done]. intros a b Hab. apply Hseg. rewrite segments_cons. by right. }
  simpl in *. lia.
Qed.

Lemma bfs_loop_levels fuel q vis par par' dep h :
  bfs_loop fuel nbrs dest q vis par = Some par' →
  bfs_levels nbrs start h None q vis par dep →
  is_Some (par' !! dest) →
  ∃ p, chain nbrs par' start dest p ∧ NoDup p ∧ (∀ x, x ∈ p → x ∈ dom par') ∧
    ∀ r, is_route nbrs start dest r → length p ≤ length r.
Proof using Type.
  revert q vis par dep h. induction fuel as [|fuel IH]; intros q vis par dep h; [done|].
  simpl.
  assert (Hexit : bfs_levels nbrs start h None q vis par dep →
            (q = [] ∨ ∃ q', q = dest :: q') → is_Some (par !! dest) →
            ∃ p, chain nbrs par start dest p ∧ NoDup p ∧ (∀ x, x ∈ p → x ∈ dom par) ∧
              ∀ r, is_route nbrs start dest r → length p ≤ length r).
  { intros Hinv Hq Hd. pose proof Hinv as (I1 & I2 & I3 & I4 & I5 & _).
    assert (Hdv : dest ∈ vis) by (rewrite <-I2; by apply elem_of_dom).
    destruct (I5 dest Hdv) as (p & Hc & Hlen & Hnd & Hp).
    exists p. split; [done|]. split; [done|]. split; [by rewrite I2|].
    intros r (Hhd & Hlast & Hseg).
    pose proof (bfs_levels_exit h q vis par dep Hinv Hq Hdv r start Hhd Hlast Hseg I3).
    rewrite I4 in H. lia. }
  destruct q as [|u q].
  { intros [= <-] Hinv Hd. apply Hexit; [done|by left|done]. }
  destruct (decide (u = dest)) as [->|Hne].
  { intros [= <-] Hinv Hd. apply Hexit; [done|right; by eexists|done]. }
  destruct (foldl (bfs_visit u) (q, vis, par) (nbrs u)) as [[q2 vis2] par2] eqn:Hfold.
  intros Hloop (I1 & I2 & I3 & I4 & I5 & I6 & I7 & I8 & I9 & I10) Hd.
  assert (Hu : u ∈ vis) by (apply I6; by left).
  pose proof (StronglySorted_inv I7) as [I7' Hall]. rewrite Forall_forall in Hall.
  assert (Hhu : h ≤ bfs_dp dep u) by (apply I8; by left).
  destruct (bfs_fold_levels (bfs_dp dep u) u (nbrs u) q vis par dep)
    as (q2' & vis2' & par2' & dep2 & Hf & Hinv2 & Hu2 & Hdu2 & Hall2); [|done|done|done|].
  { split; [done|]. split; [done|]. split; [done|]. split; [done|]. split; [done|].
    split; [intros x Hx; apply I6; by right|]. split; [done|].
    split; [intros y Hy; by apply Hall|].
    split; [intros w Hw; specialize (I9 w Hw); lia|].
    intros v Hv Hvq Hvu. apply I10; [done| |done].
    intros [->|?]%elem_of_cons; [by destruct Hvu|done]. }
  rewrite Hfold in Hf. injection Hf as <- <- <-.
  apply (IH _ _ _ dep2 (bfs_dp dep u) Hloop); [|done].
  destruct Hinv2 as (J1 & J2 & J3 & J4 & J5 & J6 & J7 & J8 & J9 & J10).
  split; [done|]. split; [done|]. split; [done|]. split; [done|]. split; [done|].
  split; [done|]. split; [done|]. split; [done|]. split; [done|].
  intros v Hv Hvq _. destruct (decide (v = u)) as [->|Hvu].
  - intros w Hw. split; [by apply Hall2|].
    rewrite Hdu2. apply J9. by apply Hall2.
  - apply J10; [done|done|]. by intros [= ->].
Qed.

Lemma bfs_search_fewest fuel r :
  (bfs_loop fuel nbrs dest [start] {[start]} {[start := None]}
     ≫= λ parent, reconstruct parent start dest) = Some r →
  ∀ r', is_route nbrs start dest r' → length r ≤ length r'.
Proof using Type.
  destruct (bfs_loop fuel nbrs dest [start] {[start]} {[start := None]})
    as [par'|] eqn:Hloop; [|done].
  simpl. intros Hr r' Hr'.
  destruct (decide (dest = start)) as [->|Hne].
  { rewrite reconstruct_same in Hr. injection Hr as <-.
    destruct Hr' as (Hhd & _). destruct r'; [done|]. simpl. lia. }
  destruct (par' !! dest) as [o|] eqn:Hd.
  2:{ unfold reconstruct in Hr. rewrite decide_False, Hd in Hr by done.
      injection Hr as <-. simpl. lia. }
  destruct (bfs_loop_levels fuel [start] {[start]} {[start := None]} par'
              {[start := 0]} 0 Hloop) as (p & Hc & Hnd & Hdom & Hmin).
  - split; [by rewrite dom_singleton_L|]. split; [by rewrite dom_singleton_L|].
    split; [set_solver|]. split; [unfold bfs_dp; by rewrite lookup_singleton_eq|].
    split; [|split; [|split; [|split; [|split]]]].
    + intros v ->%elem_of_singleton. exists [start]. split; [constructor|].
      split; [unfold bfs_dp; by rewrite lookup_singleton_eq|].
      split; [apply NoDup_singleton|set_solver].
    + set_solver.
    + repeat constructor.
    + intros y _. lia.
    + intros w ->%elem_of_singleton. unfold bfs_dp. rewrite lookup_singleton_eq.
      simpl. lia.
    + intros v ->%elem_of_singleton Hv. destruct Hv. by left.
  - by eexists.
  - rewrite (reconstruct_chain_eq nbrs par' start dest p) in Hr; [|by eexists|done..].
    injection Hr as <-. rewrite length_rev. by apply Hmin.
Qed.
End bfs_levels.

(** X25.  The route [bfs_path] returns has the fewest segments: no route
    from [start] to [dest] along connections of the graph is shorter. *)
Theorem bfs_path_fewest_segments (g : Graph) (start dest : string)
    (r r' : list string) :
  bfs_path g start dest = Some r → is_route (graph_nbrs g) start dest r' →
  length r ≤ length r'.
Proof.
  unfold bfs_path. intros Hr Hr'.
  by apply (bfs_search_fewest (graph_nbrs g) start dest _ r Hr).
Qed.

Lemma bfs_path_fewest_segments_witness :
  let g := add_bidir_edge
             (add_bidir_edge
                (add_bidir_edge
                   (add_c (add_c (add_c Graph_init (mkCity "A" "a" "s" (Some 0%Q)))
                                 (mkCity "B" "b" "s" (Some 0%Q)))
                          (mkCity "C" "c" "s" (Some 0%Q)))
                   "A" "B" 1)
                "B" "C" 1)
             "A" "C" 5 in
  bfs_path g "A" "C" = Some ["A"; "C"] ∧
  is_route (graph_nbrs g) "A" "C" ["A"; "B"; "C"] ∧
  length ["A"; "C"] ≤ length ["A"; "B"; "C"].
Proof.
  intros g.
  assert (H1 : bfs_path g "A" "C" = Some ["A"; "C"]) by (vm_compute; reflexivity).
  assert (H2 : is_route (graph_nbrs g) "A" "C" ["A"; "B"; "C"]).
  { split; [reflexivity|]. split; [reflexivity|].
    intros a b Hab. vm_compute in Hab.
    apply elem_of_cons in Hab as [[= -> ->]|Hab]; [vm_compute; set_solver|].
    apply elem_of_cons in Hab as [[= -> ->]|Hab]; [vm_compute; set_solver|].
    by apply elem_of_nil in Hab. }
  split; [exact H1|]. split; [exact H2|].
  exact (bfs_path_fewest_segments g "A" "C" _ _ H1 H2).
Defined.

(** X26.  [tree_path_in_adj] always returns; the route it returns never
    repeats a node, is empty exactly when [dest] cannot be reached from
    [start] along the neighbour lists of [adj], and otherwise is a route
    from [start] to [dest] along them with the fewest segments. *)
Theorem tree_path_in_adj_finds_shortest (tadj : list (string * list string))
    (start dest : string) :
  ∃ r, tree_path_in_adj tadj start dest = Some r ∧ NoDup r ∧
    (r = [] ↔ ¬ rtc (λ a b, b ∈ adj_get tadj a) start dest) ∧
    (r ≠ [] → is_route (adj_get tadj) start dest r) ∧
    (∀ r', is_route (adj_get tadj) start dest r' → length r ≤ length r').
Proof.
  destruct (tree_path_in_adj_spec tadj start dest) as (r & Hr & Hnd & Hroute).
  exists r. split; [done|]. split; [done|]. split; [split|split].
  - intros -> Hreach.
    by pose proof (tree_path_in_adj_complete tadj start dest [] Hr Hreach) as ([=] & _).
  - intros Hno. destruct Hroute as [->|Hroute]; [done|]. destruct Hno.
    destruct Hroute as (Hhd & Hlast & Hseg). clear Hr Hnd.
    revert start Hhd. induction r as [|x r IH]; intros start Hhd; [done|].
    simpl in Hhd. injection Hhd as ->. destruct r as [|y r].
    + simpl in Hlast. injection Hlast as ->. apply rtc_refl.
    + eapply rtc_l; [apply (Hseg start y); rewrite segments_cons; by left|].
      apply IH; [done| |done]. intros a b Hab. apply Hseg. rewrite segments_cons. by right.
  - intros Hne. by destruct Hroute.
  - intros r' Hr'. unfold tree_path_in_adj in Hr.
    by apply (bfs_search_fewest (adj_get tadj) start dest _ r Hr).
Qed.

(** ** The distances of [bellman_ford] *)

(** X24.  On a graph the program has built, [bellman_ford] returns a
    distance and a predecessor entry for every city and for nothing else.
    From an unknown [start] every distance is infinite.  From a known one
    the distance of [start] is 0, the distance of a city is infinite exactly
    when the city cannot be reached, and a finite distance is the cost of
    some path from [start] and at most the cost of every such path. *)
Theorem bellman_ford_distances (g : Graph) (start : string) :
  built g →
  ∃ dist pred, bellman_ford g start = Some (dist, pred) ∧
    (∀ v, is_Some (dist !! v) ↔ is_Some (cities g !! v)) ∧
    (∀ v, is_Some (pred !! v) ↔ is_Some (cities g !! v)) ∧
    (cities g !! start = None → ∀ v, default None (dist !! v) = None) ∧
    (is_Some (cities g !! start) →
       dist !! start = Some (Some 0%Q) ∧
       (∀ v, is_Some (cities g !! v) →
          (dist !! v = Some None ↔ ¬ reachable g start v)) ∧
       (∀ v d, dist !! v = Some (Some d) →
          (∃ p, is_epath g start p v ∧ path_cost p = d) ∧
          ∀ p, is_epath g start p v → (d <= path_cost p)%Q)).
Proof.
  intros Hwf%built_wf. destruct (cities g !! start) as [c|] eqn:Hc.
  - destruct (bellman_ford_spec g start Hwf ltac:(by eexists))
      as (dist & pred & Hbf & (B1 & B2 & B3 & B4 & B5) & Hmin).
    exists dist, pred. split; [done|]. split; [done|]. split; [done|].
    split; [done|]. intros _. split; [done|]. split.
    + intros v Hv. split.
      * intros Hnone (p & Hp)%(reachable_epath g Hwf).
        destruct (Hmin v p Hp) as (d & Hd & _). congruence.
      * intros Hno. apply B1 in Hv as [[d|] Hd]; [|done].
        destruct Hno. apply (reachable_epath g Hwf).
        destruct (B4 v d Hd) as (p & Hp & _). by exists p.
    + intros v d Hd. split; [by apply B4|].
      intros p Hp. destruct (Hmin v p Hp) as (d' & Hd' & Hle). congruence.
  - unfold bellman_ford. rewrite Hc. eexists _, _. split; [done|].
    split; [intros v; by rewrite lookup_fmap, fmap_is_Some|].
    split; [intros v; by rewrite lookup_fmap, fmap_is_Some|].
    split; [|by intros []]. intros _ v. rewrite lookup_fmap.
    by destruct (cities g !! v).
Qed.

Lemma bellman_ford_distances_witness :
  let g := add_bidir_edge
             (add_c (add_c (add_c Graph_init (mkCity "A" "a" "s" (Some 0%Q)))
                           (mkCity "B" "b" "s" (Some 0%Q)))
                    (mkCity "C" "c" "s" (Some 0%Q))) "A" "B" 10 in
  ∃ dist pred, bellman_ford g "A" = Some (dist, pred) ∧
    (∀ v, is_Some (dist !! v) ↔ is_Some (cities g !! v)) ∧
    (∀ v, is_Some (pred !! v) ↔ is_Some (cities g !! v)) ∧
    (cities g !! "A" = None → ∀ v, default None (dist !! v) = None) ∧
    (is_Some (cities g !! "A") →
       dist !! "A" = Some (Some 0%Q) ∧
       (∀ v, is_Some (cities g !! v) →
          (dist !! v = Some None ↔ ¬ reachable g "A" v)) ∧
       (∀ v d, dist !! v = Some (Some d) →
          (∃ p, is_epath g "A" p v ∧ path_cost p = d) ∧
          ∀ p, is_epath g "A" p v → (d <= path_cost p)%Q)).
Proof.
  intros g. apply (bellman_ford_distances g "A"). repeat constructor.
Defined.

(** ** The best date does not depend on the direction of travel *)







(** ** The five algorithms agree on whether a route exists *)




(** ** How [load] ends *)

Lemma load_row_None wr r :
  load_row wr r = None ↔ row_city r ≠ "" ∧ parse_risk (row_raw r) = None.
Proof.
  unfold load_row. destruct (row_city r) as [|a s]; [by split; [|intros [? _]]|].
  destruct (parse_risk (row_raw r)); split; try done. by intros [_ ?].
Qed.

Lemma load_rows_outcome wr rows :
  match load_rows wr rows with
  | Loaded _ => ∀ r, r ∈ rows → row_city r = "" ∨ is_Some (parse_risk (row_raw r))
  | LoadValueError wr' =>
      ∃ before r rest, rows = before ++ r :: rest ∧
        load_rows wr before = Loaded wr' ∧
        row_city r ≠ "" ∧ parse_risk (row_raw r) = None
  end.
Proof.
  revert wr. induction rows as [|r rows IH]; intros wr; simpl.
  { by intros r ?%elem_of_nil. }
  destruct (load_row wr r) as [wr1|] eqn:Hrow.
  - specialize (IH wr1). destruct (load_rows wr1 rows) as [wr'|wr'].
    + intros r' Hr'. apply elem_of_cons in Hr' as [Heq|Hr']; [subst r'|by apply IH].
      destruct (row_city r) as [|a s] eqn:Hc; [by left|right].
      destruct (parse_risk (row_raw r)) eqn:Hp; [by eexists|].
      assert (load_row wr r = None) by (apply load_row_None; by rewrite Hc).
      congruence.
    + destruct IH as (before & r' & rest & -> & Hb & Hc & Hp).
      exists (r :: before), r', rest. split; [done|]. simpl. rewrite Hrow. done.
  - apply load_row_None in Hrow as [Hc Hp]. by exists [], r, rows.
Qed.

(** X29.  How [load] ends.  It returns exactly when every row that has a
    city id has a risk text that can be read, and then the dates list is in
    ascending order.  Otherwise it raises at the first row that has a city
    id and an unreadable risk text, and the object is left holding the rows
    before that one, with the dates list as appended. *)
Theorem load_outcome (wr : WeatherRisk) (rows : list (gmap string string)) :
  ((∃ wr', load wr rows = Loaded wr') ↔
   ∀ r, r ∈ rows → row_city r = "" ∨ is_Some (parse_risk (row_raw r))) ∧
  (∀ wr', load wr rows = Loaded wr' → dates_sorted wr') ∧
  (∀ wr', load wr rows = LoadValueError wr' →
     ∃ before r rest, rows = before ++ r :: rest ∧
       load_rows wr before = Loaded wr' ∧
       row_city r ≠ "" ∧ parse_risk (row_raw r) = None).
Proof.
  pose proof (load_rows_outcome wr rows) as H. unfold load.
  destruct (load_rows wr rows) as [wr1|wr1] eqn:Hrows.
  - split; [split; [done|by eexists]|]. split; [|done].
    intros wr' [= <-]. unfold dates_sorted. cbn [dates].
    apply py_sort_sorted; [apply String.leb_total|apply string_leb_trans].
  - destruct H as (before & r & rest & -> & Hb & Hc & Hp).
    split; [split|split; [done|]].
    + by intros [? [=]].
    + intros Hall. destruct (Hall r) as [?|[? ?]]; [set_solver|done|congruence].
    + intros wr' [= <-]. by exists before, r, rest.
Qed.
